(** * A d-ary max-heap in C (main.c): shallow embedding and verification

    The C program keeps a heap in a struct with a fixed array of
    [MAX_CAPACITY] ints, a [size] and a degree [d].  The functions of the
    program are embedded below as state-passing computations over that
    struct.  A computation ends in one of four ways:
    - it returns normally ([Ret]),
    - it prints a message and calls [exit(EXIT_FAILURE)] ([Exit], which keeps
      the message kind and the heap as it was when the process stopped),
    - it runs into undefined behaviour of C: a signed overflow of [int], an
      array access outside [0 .. MAX_CAPACITY-1], a division by zero
      ([Fault]),
    - a [while] loop is cut off by its iteration budget ([OutOfFuel]); the
      budgets built into [dmaxHeapify], [insert] and [increaseKey] are
      never used up, in any state (lemmas [heapify_loop_fuel] and
      [sift_up_fuel]).

    The values of type [int] are the integers from [INT_MIN] to [INT_MAX]
    (32 bits).  An arithmetic result outside this range is an overflow.  In
    the functions below the first overflow is always that of a child index
    [d*i + j] or of the loop counter [j]; on a machine that wraps around it
    yields a negative index, which passes the test [childrens < heap->size]
    and is then used to read the array out of bounds. *)

From Stdlib Require Import ZArith Lia Sorted Permutation.
From Stdlib Require Import Ascii String.
From Stdlib Require Import DecimalString DecimalZ DecimalPos DecimalN.
From stdpp Require Import base list.

Local Open Scope Z_scope.

(** ** Constants of the program *)

Definition MAX_CAPACITY : Z := 5000.
Definition ROOT : Z := 0.
Definition INT_MAX : Z := 2147483647.
Definition INT_MIN : Z := -2147483648.

(** ** The heap struct *)

Record Heap : Type := mkHeap {
  array : list Z;   (* int array[MAX_CAPACITY] *)
  size : Z;         (* int size *)
  d : Z             (* int d *)
}.

(** ** Outcomes and the state monad of the program *)

(** The four messages after which the program exits:
    "heap underflow", "heap overflow", "new key is smaller than current key",
    "Index out of bounds". *)
Inductive error : Type :=
| Underflow
| Overflow
| InvalidKey
| IndexOutOfBounds.

Inductive result (A : Type) : Type :=
| Ret (a : A) (h : Heap)
| Exit (e : error) (h : Heap)
| Fault
| OutOfFuel.

Arguments Ret {A} a h.
Arguments Exit {A} e h.
Arguments Fault {A}.
Arguments OutOfFuel {A}.

Definition M (A : Type) : Type := Heap -> result A.

Definition ret {A} (a : A) : M A := fun h => Ret a h.

Definition bind {A B} (m : M A) (k : A -> M B) : M B :=
  fun h =>
    match m h with
    | Ret a h' => k a h'
    | Exit e h' => Exit e h'
    | Fault => Fault
    | OutOfFuel => OutOfFuel
    end.

Notation "x <- c1 ;; c2" := (bind c1 (fun x => c2))
  (at level 100, c1 at next level, right associativity).
Notation "c1 ;; c2" := (bind c1 (fun _ => c2))
  (at level 100, right associativity).

(** [fprintf(stderr, ...); exit(EXIT_FAILURE);] *)
Definition die {A} (e : error) : M A := fun h => Exit e h.

Definition fault {A} : M A := fun _ => Fault.

Definition lift {A} (o : option A) : M A :=
  match o with
  | Some a => ret a
  | None => fault
  end.

(** ** Arithmetic of [int] *)

Definition in_int (z : Z) : bool := (INT_MIN <=? z) && (z <=? INT_MAX).

(** The value of an arithmetic expression of type [int]: defined when the
    mathematical result is representable. *)
Definition int_op (z : Z) : option Z := if in_int z then Some z else None.

(** [d * i + k] *)
Definition child (i k d : Z) : option Z :=
  match int_op (d * i) with
  | Some t => int_op (t + k)
  | None => None
  end.

(** [(i-1)/d]; the division of C truncates towards zero. *)
Definition parent (i d : Z) : option Z :=
  match int_op (i - 1) with
  | Some t => if d =? 0 then None else int_op (Z.quot t d)
  | None => None
  end.

(** ** Access to the fields of the struct *)

Definition get_size : M Z := fun h => Ret (size h) h.
Definition get_d : M Z := fun h => Ret (d h) h.

Definition set_size (n : Z) : M unit :=
  fun h => Ret tt (mkHeap (array h) n (d h)).

(** [heap->array[i]] as an rvalue *)
Definition load (i : Z) : M Z :=
  fun h =>
    if i <? 0 then Fault
    else match array h !! Z.to_nat i with
         | Some v => Ret v h
         | None => Fault
         end.

(** [heap->array[i] = v] *)
Definition store (i v : Z) : M unit :=
  fun h =>
    if (0 <=? i) && (i <? Z.of_nat (length (array h)))
    then Ret tt (mkHeap (<[Z.to_nat i := v]> (array h)) (size h) (d h))
    else Fault.

(** ** The functions of main.c *)

(** [swap(&heap->array[x], &heap->array[y])] *)
Definition swap (x y : Z) : M unit :=
  temp <- load x ;;
  vy <- load y ;;
  store x vy ;;
  store y temp.

(** The [for] loop of [dmaxHeapify]: the body runs for [j], [j+1], ... ,
    [n] times in all; [dmaxHeapify] starts it with [j = 1] and [n = d], so
    that the body runs for [j = 1 .. d] and [++j] is evaluated after each
    run. *)
Fixpoint scan_children (n : nat) (i j largest : Z) : M Z :=
  match n with
  | O => ret largest
  | S n' =>
      dd <- get_d ;;
      childrens <- lift (child i j dd) ;;
      sz <- get_size ;;
      largest' <-
        (if childrens <? sz then
           vc <- load childrens ;;
           vl <- load largest ;;
           ret (if vc >? vl then childrens else largest)
         else ret largest) ;;
      j' <- lift (int_op (j + 1)) ;;
      scan_children n' i j' largest'
  end.

Definition find_largest (i : Z) : M Z :=
  dd <- get_d ;;
  scan_children (Z.to_nat dd) i 1 i.

(** The [while (1)] loop of [dmaxHeapify], cut off after [fuel] iterations. *)
Fixpoint heapify_loop (fuel : nat) (i : Z) : M unit :=
  match fuel with
  | O => fun _ => OutOfFuel
  | S fuel' =>
      largest <- find_largest i ;;
      if negb (largest =? i) then
        swap i largest ;;
        heapify_loop fuel' largest
      else ret tt
  end.

(** Every iteration but the last moves to a larger index below [size], so
    [size + 1] iterations are enough (lemma [heapify_loop_fuel] below). *)
Definition heapify_fuel (h : Heap) : nat := S (Z.to_nat (size h)).

Definition dmaxHeapify (i : Z) : M unit :=
  fun h => heapify_loop (heapify_fuel h) i h.

Definition heapExtractMax : M Z :=
  sz <- get_size ;;
  if sz <? 1 then die Underflow
  else
    max <- load ROOT ;;
    last <- lift (int_op (sz - 1)) ;;
    vlast <- load last ;;
    store ROOT vlast ;;
    set_size last ;;
    dmaxHeapify ROOT ;;
    ret max.

(** The [while] loop shared by [insert] and [increaseKey], cut off after
    [fuel] iterations.  [parent(i, d)] is a pure function of [i] and [d],
    which the loop body does not change before its last use; it is
    evaluated once per iteration here. *)
Fixpoint sift_up (fuel : nat) (i : Z) : M unit :=
  match fuel with
  | O => fun _ => OutOfFuel
  | S fuel' =>
      if i >? ROOT then
        dd <- get_d ;;
        p <- lift (parent i dd) ;;
        vp <- load p ;;
        vi <- load i ;;
        if vp <? vi then
          swap i p ;;
          sift_up fuel' p
        else ret tt
      else ret tt
  end.

(** Every iteration but the last moves to a smaller non-negative index, so
    [i + 1] iterations are enough from index [i]. *)
Definition sift_fuel (i : Z) : nat := S (Z.to_nat i).

Definition insert (key : Z) : M unit :=
  sz <- get_size ;;
  if sz =? MAX_CAPACITY then die Overflow
  else
    store sz key ;;
    sz' <- lift (int_op (sz + 1)) ;;
    set_size sz' ;;
    sift_up (sift_fuel sz) sz.

Definition increaseKey (i key : Z) : M unit :=
  vi <- load i ;;
  if key <? vi then die InvalidKey
  else
    store i key ;;
    sift_up (sift_fuel i) i.

(** The [for] loop of [buildMaxHeap]: [dmaxHeapify] at [i], [i-1], ... ,
    [n] times in all. *)
Fixpoint build_loop (n : nat) (i : Z) : M unit :=
  match n with
  | O => ret tt
  | S n' =>
      dmaxHeapify i ;;
      i' <- lift (int_op (i - 1)) ;;
      build_loop n' i'
  end.

Definition buildMaxHeap : M unit :=
  sz <- get_size ;;
  dd <- get_d ;;
  q <- lift (if dd =? 0 then None else int_op (Z.quot sz dd)) ;;
  start <- lift (int_op (q - 1)) ;;
  build_loop (Z.to_nat (start + 1)) start.

Definition delete (index : Z) : M unit :=
  sz <- get_size ;;
  if index >=? sz then die IndexOutOfBounds
  else
    increaseKey index INT_MAX ;;
    _ <- heapExtractMax ;;
    ret tt.

(** ** Sequences of operations *)

(** [heapExtractMax] called [n] times; the results in the order returned. *)
Fixpoint extract_all (n : nat) : M (list Z) :=
  match n with
  | O => ret []
  | S n' =>
      x <- heapExtractMax ;;
      xs <- extract_all n' ;;
      ret (x :: xs)
  end.

(** [heapExtractMax] called as long as the heap is not empty, as the menu
    loop of [main] allows it ([if (selectedHeap->size > 0)]), cut off after
    [fuel] calls. *)
Fixpoint drain (fuel : nat) : M (list Z) :=
  match fuel with
  | O => fun _ => OutOfFuel
  | S fuel' =>
      sz <- get_size ;;
      if sz >? 0 then
        x <- heapExtractMax ;;
        xs <- drain fuel' ;;
        ret (x :: xs)
      else ret []
  end.

(** [insert] called with the keys of a list, one by one. *)
Fixpoint insert_all (keys : list Z) : M unit :=
  match keys with
  | [] => ret tt
  | key :: keys' => insert key ;; insert_all keys'
  end.

(** ** Reading the heap: elements, validity of a state, the heap order *)

(** [elem a i] is [a[i]] for an index inside the array. *)
Definition elem (a : list Z) (i : Z) : Z := nth (Z.to_nat i) a 0.

(** The valid elements of a heap: the first [size] slots of its array. *)
Definition valid (h : Heap) : list Z := take (Z.to_nat (size h)) (array h).

(** A state of the struct as the program can hold it: the array has
    [MAX_CAPACITY] slots of type [int], [size] is within the array, and [d]
    is an [int] that is at least 1. *)
Definition heap_ok (h : Heap) : Prop :=
  length (array h) = Z.to_nat MAX_CAPACITY /\
  Forall (fun z => INT_MIN <= z <= INT_MAX) (array h) /\
  0 <= size h <= MAX_CAPACITY /\
  1 <= d h <= INT_MAX.

Definition heap_okb (h : Heap) : bool :=
  Nat.eqb (length (array h)) (Z.to_nat MAX_CAPACITY)
  && forallb in_int (array h)
  && (0 <=? size h) && (size h <=? MAX_CAPACITY)
  && (1 <=? d h) && (d h <=? INT_MAX).

(** The max-heap property: every valid index dominates each of its children
    [d*i + k], [k = 1 .. d], that is below [size]. *)
Definition max_heap (h : Heap) : Prop :=
  forall i k, 0 <= i < size h -> 1 <= k <= d h -> d h * i + k < size h ->
    elem (array h) (d h * i + k) <= elem (array h) i.

(** The same property checked from the children: every index [c] in
    [1 .. size-1] is dominated by index [(c-1)/d]. *)
Definition max_heapb (h : Heap) : bool :=
  forallb (fun c => elem (array h) (Z.of_nat c) <=?
                    elem (array h) ((Z.of_nat c - 1) / d h))
          (seq 1 (Z.to_nat (size h) - 1)).

(** Neither the loop counter [j] nor a child index [d*i + j] leaves the
    range of [int] during the sift-down that follows the removal of one of
    the [size] elements: [j] goes up to [d + 1], and the children of the
    indices below [size - 1] go up to [d * (size - 1)]. *)
Definition index_safe (h : Heap) : Prop :=
  d h < INT_MAX /\ d h * (size h - 1) <= INT_MAX.

(** A heap over the first slots of an array that is filled up with zeros. *)
Definition pad (l : list Z) : list Z :=
  l ++ repeat 0 (Z.to_nat MAX_CAPACITY - length l)%nat.

(** The parent index as a mathematical function: [(c-1)/d], which for
    [c >= 1] is the value that [parent] computes. *)
Definition par (dg c : Z) : Z := (c - 1) / dg.

(** The array after [swap(&a[x], &a[y])]. *)
Definition swap_list (a : list Z) (x y : Z) : list Z :=
  <[Z.to_nat y := elem a x]> (<[Z.to_nat x := elem a y]> a).

(** Index [c] is dominated by its parent. *)
Definition ok_at (dg : Z) (a : list Z) (c : Z) : Prop :=
  elem a c <= elem a (par dg c).

(** The heap order among the first [n] slots, for the nodes from index [lo]
    on: every child of such a node is dominated by it. *)
Definition heap_on (dg : Z) (a : list Z) (n lo : Z) : Prop :=
  forall c, 1 <= c < n -> lo <= par dg c -> ok_at dg a c.

(** The loop invariant of [dmaxHeapify] at index [i]: the order holds at
    every node from [lo] on except [i], and the parent of [i] dominates the
    children of [i]. *)
Definition sift_down_inv (dg : Z) (a : list Z) (n lo i : Z) : Prop :=
  (forall c, 1 <= c < n -> lo <= par dg c -> par dg c <> i -> ok_at dg a c) /\
  (1 <= i -> lo <= par dg i ->
   forall c, 1 <= c < n -> par dg c = i -> elem a c <= elem a (par dg i)).

(** The loop invariant of the sift-up loops at index [i]: the order holds
    at every index except [i], and the parent of [i] dominates the children
    of [i]. *)
Definition sift_up_inv (dg : Z) (a : list Z) (n i : Z) : Prop :=
  (forall c, 1 <= c < n -> c <> i -> ok_at dg a c) /\
  (1 <= i ->
   forall c, 1 <= c < n -> par dg c = i -> elem a c <= elem a (par dg i)).

(** What the [for] loop of [dmaxHeapify] computes when it runs over the
    children [d*i + k], [j <= k < j + n], starting from [largest = l0]:
    the result [l] is [l0] or one of these children below [size] that is
    strictly greater than [l0]; it dominates [l0] and every such child;
    every such child at a smaller index is strictly smaller. *)
Definition scan_post (h : Heap) (i j n l0 l : Z) : Prop :=
  (l = l0 \/
   exists k, j <= k < j + n /\ l = d h * i + k /\ l < size h /\
             elem (array h) l0 < elem (array h) l) /\
  elem (array h) l0 <= elem (array h) l /\
  (forall k, j <= k < j + n -> d h * i + k < size h ->
     elem (array h) (d h * i + k) <= elem (array h) l) /\
  (forall k, j <= k < j + n -> d h * i + k < l ->
     elem (array h) (d h * i + k) < elem (array h) l).

(** The child [l] of [i] that an iteration of [dmaxHeapify] swaps into
    position [i]: a child below [size] that dominates all children of [i]
    below [size], every child at a smaller index being strictly smaller. *)
Definition leftmost_max_child (h : Heap) (i l : Z) : Prop :=
  exists k, 1 <= k <= d h /\ l = d h * i + k /\ l < size h /\
    (forall k', 1 <= k' <= d h -> d h * i + k' < size h ->
       elem (array h) (d h * i + k') <= elem (array h) l) /\
    (forall k', 1 <= k' < k ->
       elem (array h) (d h * i + k') < elem (array h) l).

(** A computation terminates when it returns or exits the process. *)
Definition terminates {A} (r : result A) : Prop :=
  match r with
  | Ret _ _ | Exit _ _ => True
  | Fault | OutOfFuel => False
  end.

(** ** Example states *)

(** The heap that [buildMaxHeap] makes of 3 1 4 1 5 9 2 6 with [d = 2]. *)
Definition example_heap : Heap := mkHeap (pad [9; 6; 4; 1; 5; 3; 2; 1]) 8 2.

(** The unordered input of that heap. *)
Definition example_input : Heap := mkHeap (pad [3; 1; 4; 1; 5; 9; 2; 6]) 8 2.

(** A heap of one element with the largest degree that [main] accepts. *)
Definition heap_d_max : Heap := mkHeap (pad [5]) 1 INT_MAX.

(** A heap of three elements with degree [2^30]. *)
Definition heap_d_big : Heap := mkHeap (pad [9; 8; 1]) 3 1073741824.

(** An empty heap with the largest degree that [main] accepts. *)
Definition empty_d_max : Heap := mkHeap (pad []) 0 INT_MAX.

(** An empty heap of degree 3. *)
Definition empty_heap : Heap := mkHeap (pad []) 0 3.

(** Five elements with [d = 3]: index 1 has the child 4. *)
Definition build_input : Heap := mkHeap (pad [5; 1; 2; 3; 9]) 5 3.

(** Two elements, the second greater than the first, with the largest
    degree that [main] accepts. *)
Definition heap_d_max_pair : Heap := mkHeap (pad [1; 9]) 2 INT_MAX.

(* ================================================================== *)
(** * The rest of the program

    [isNumber], [getIntInput], [readHeapsFromFile], [printHeap] and [main]
    work on text, on the console and on a file.  They are embedded over a
    state that holds the ten heaps of [main] and the console; the calls
    to the C library are embedded by what the C standard says of them. *)

(** ** Text: the functions of the C library that the program calls *)

Definition MAX_LINE_LENGTH : Z := 30000.
Definition MAX_HEAPS : Z := 10.
Definition MAX_FILENAME_LENGTH : Z := 260.

Definition nl : string := String "010" EmptyString.

(** [isdigit] of <ctype.h>: the decimal digits, in every locale. *)
Definition isdigit (c : ascii) : bool :=
  (48 <=? nat_of_ascii c)%nat && (nat_of_ascii c <=? 57)%nat.

(** [isspace] of <ctype.h>: space, and the controls from \t to \r. *)
Definition isspace (c : ascii) : bool :=
  (nat_of_ascii c =? 32)%nat ||
  ((9 <=? nat_of_ascii c)%nat && (nat_of_ascii c <=? 13)%nat).

(** A buffer read as a C string: the characters before the first NUL. *)
Fixpoint c_string (s : string) : string :=
  match s with
  | String c s' =>
      if Ascii.eqb c "000" then EmptyString else String c (c_string s')
  | EmptyString => EmptyString
  end.

(** The value of the decimal digits at the start of [s], read onto [acc]. *)
Fixpoint digits_value (s : string) (acc : Z) : Z :=
  match s with
  | String c s' =>
      if isdigit c
      then digits_value s' (10 * acc + (Z.of_nat (nat_of_ascii c) - 48))
      else acc
  | EmptyString => acc
  end.

Fixpoint skip_spaces (s : string) : string :=
  match s with
  | String c s' => if isspace c then skip_spaces s' else s
  | EmptyString => s
  end.

(** [atoi] of <stdlib.h>: white space, an optional sign, decimal digits.
    What follows the digits is ignored; without a digit the value is 0.
    The result is undefined when the value is not representable. *)
Definition atoi (s : string) : option Z :=
  match skip_spaces s with
  | String c s' =>
      if Ascii.eqb c "-" then int_op (- digits_value s' 0)
      else if Ascii.eqb c "+" then int_op (digits_value s' 0)
      else int_op (digits_value (String c s') 0)
  | EmptyString => int_op 0
  end.

(** The conversion [%d] of [printf]. *)
Definition print_int (z : Z) : string := NilZero.string_of_int (Z.to_int z).

(** [fgets(line, n + 1, file)] on the unread part of a file: at most [n]
    characters, up to and including the first newline; the line and the
    part of the file left unread. *)
Fixpoint fgets (n : nat) (file : string) : string * string :=
  match n, file with
  | S n', String c file' =>
      if Ascii.eqb c "010" then (String c EmptyString, file')
      else let (line, rest) := fgets n' file' in (String c line, rest)
  | _, _ => (EmptyString, file)
  end.

(** The runs of characters between the spaces of a string. *)
Fixpoint fields (s : string) : list string :=
  match s with
  | EmptyString => [EmptyString]
  | String c s' =>
      if Ascii.eqb c " " then EmptyString :: fields s'
      else match fields s' with
           | f :: fs => String c f :: fs
           | [] => [String c EmptyString]
           end
  end.

(** The tokens that [strtok(line, " ")] and the calls [strtok(NULL, " ")]
    after it return: the runs that are not empty. *)
Definition tokens (line : string) : list string :=
  List.filter (fun f => negb (String.eqb f EmptyString)) (fields line).

(** ** The console and the files *)

(** The program reads its standard input with [scanf("%s", ...)] only,
    which skips white space and reads one word: the input is the list of
    its words. *)
Record Console : Type := mkConsole {
  input : list string;
  output : string
}.

Record World : Type := mkWorld {
  heaps : list Heap;     (* Heap heaps[MAX_HEAPS] of main *)
  console : Console
}.

(** How the process can stop: [return 0] from [main], [exit(EXIT_FAILURE)]
    in a heap operation, [exit(EXIT_FAILURE)] in [readHeapsFromFile]. *)
Inductive stop : Type :=
| Finished
| Failed (e : error)
| FileNotOpened.

Inductive outcome (A : Type) : Type :=
| Returns (a : A) (w : World)
| Stops (e : stop) (w : World)
| Undefined
| Hangs
| NoFuel.

Arguments Returns {A} a w.
Arguments Stops {A} e w.
Arguments Undefined {A}.
Arguments Hangs {A}.
Arguments NoFuel {A}.

Definition IO (A : Type) : Type := World -> outcome A.

Definition io_ret {A} (a : A) : IO A := fun w => Returns a w.

Definition io_bind {A B} (m : IO A) (k : A -> IO B) : IO B :=
  fun w =>
    match m w with
    | Returns a w' => k a w'
    | Stops e w' => Stops e w'
    | Undefined => Undefined
    | Hangs => Hangs
    | NoFuel => NoFuel
    end.

Declare Scope io_scope.
Delimit Scope io_scope with io.
Notation "x <- c1 ;; c2" := (io_bind c1 (fun x => c2))
  (at level 100, c1 at next level, right associativity) : io_scope.
Notation "c1 ;; c2" := (io_bind c1 (fun _ => c2))
  (at level 100, right associativity) : io_scope.

(** The world after [s] has been written to the standard output. *)
Definition printed (s : string) (w : World) : World :=
  mkWorld (heaps w)
    (mkConsole (input (console w)) (output (console w) ++ s)).

(** [printf] of a text without conversions left. *)
Definition print (s : string) : IO unit :=
  fun w => Returns tt (printed s w).

(** [scanf("%s", buffer)] into a buffer of [n] characters: the next word
    as a C string.  Without a word left nothing is stored, and [buffer],
    which starts uninitialised, is as it was. *)
Definition scan_word (n : Z) : IO (option string) :=
  fun w =>
    match input (console w) with
    | [] => Returns None w
    | word :: rest =>
        if Z.of_nat (String.length word) <? n
        then Returns (Some (c_string word))
               (mkWorld (heaps w) (mkConsole rest (output (console w))))
        else Undefined
    end.

Definition io_lift {A} (o : option A) : IO A :=
  match o with
  | Some a => io_ret a
  | None => fun _ => Undefined
  end.

(** A heap operation on [heaps[k]]. *)
Definition on_heap {A} (k : nat) (m : M A) : IO A :=
  fun w =>
    match heaps w !! k with
    | None => Undefined
    | Some h =>
        match m h with
        | Ret a h' => Returns a (mkWorld (<[k := h']> (heaps w)) (console w))
        | Exit e h' =>
            Stops (Failed e) (mkWorld (<[k := h']> (heaps w)) (console w))
        | Fault => Undefined
        | OutOfFuel => NoFuel
        end
    end.

(** ** The other functions of main.c *)

Fixpoint isNumber (str : string) : bool :=
  match str with
  | EmptyString => true
  | String c str' =>
      if negb (isdigit c) && negb (Ascii.eqb c "-") then false
      else isNumber str'
  end.

Definition invalid_text (min max : Z) : string :=
  ("Invalid input. Please enter a number between "
   ++ print_int min ++ " and " ++ print_int max ++ "." ++ nl)%string.

(** The loop of [getIntInput].  [buffer] is the content of [input[100]]:
    [None] as long as nothing has been stored in it.  Once the words have
    run out, [scanf] stores nothing, the same rejected word is examined
    again and the loop never ends. *)
Fixpoint getIntInput_loop (n : nat) (prompt : string) (min max : Z)
    (buffer : option string) : IO Z :=
  (print prompt ;;
   word <- scan_word 100 ;;
   match word, n, buffer with
   | None, _, None => fun _ => Undefined
   | None, _, Some _ => fun _ => Hangs
   | Some _, O, _ => fun _ => NoFuel
   | Some str, S n', _ =>
       let again :=
         print (invalid_text min max) ;;
         getIntInput_loop n' prompt min max (Some str) in
       if isNumber str then
         match atoi str with
         | None => fun _ => Undefined
         | Some number =>
             if (number >=? min) && (number <=? max) then io_ret number
             else again
         end
       else again
   end)%io.

Definition getIntInput (prompt : string) (min max : Z) : IO Z :=
  fun w =>
    getIntInput_loop (length (input (console w))) prompt min max None w.

(** The inner loop of [readHeapsFromFile]: every token of the line is
    converted and stored at index [size], and [size] is incremented. *)
Fixpoint store_tokens (toks : list string) : M unit :=
  match toks with
  | [] => ret tt
  | token :: toks' =>
      sz <- get_size ;;
      v <- lift (atoi token) ;;
      store sz v ;;
      sz' <- lift (int_op (sz + 1)) ;;
      set_size sz' ;;
      store_tokens toks'
  end.

Definition read_line (line : string) : M unit :=
  set_size 0 ;;
  store_tokens (tokens (c_string line)).

(** The outer loop of [readHeapsFromFile]: [n] is [MAX_HEAPS - heapIndex].
    [fgets] is called before [heapIndex < MAX_HEAPS] is tested. *)
Fixpoint read_heaps (n : nat) (heapIndex : Z) (file : string) : IO Z :=
  match file with
  | EmptyString => io_ret heapIndex
  | _ =>
      match n with
      | O => io_ret heapIndex
      | S n' =>
          let (line, rest) := fgets (Z.to_nat (MAX_LINE_LENGTH - 1)) file in
          (on_heap (Z.to_nat heapIndex) (read_line line) ;;
           read_heaps n' (heapIndex + 1) rest)%io
      end
  end.

(** [files] gives the content of the files that [fopen] can open.  The
    result is the value stored in [*numHeaps]. *)
Definition readHeapsFromFile (files : string -> option string)
    (fileName : string) : IO Z :=
  match files fileName with
  | None => fun w => Stops FileNotOpened w
  | Some file => read_heaps (Z.to_nat MAX_HEAPS) 0 file
  end.

(** The [for] loop of [printHeap]: the text printed for the slots [i],
    [i+1], ..., [n] slots in all. *)
Fixpoint printHeap_loop (n : nat) (i : Z) : M string :=
  match n with
  | O => ret EmptyString
  | S n' =>
      v <- load i ;;
      i' <- lift (int_op (i + 1)) ;;
      text <- printHeap_loop n' i' ;;
      ret (print_int v ++ " " ++ text)%string
  end.

(** The text that [printHeap] writes for the elements [vs]. *)
Fixpoint heap_text (vs : list Z) : string :=
  match vs with
  | [] => EmptyString
  | v :: vs' => (print_int v ++ " " ++ heap_text vs')%string
  end.

Definition printHeap_text : M string :=
  sz <- get_size ;;
  text <- printHeap_loop (Z.to_nat sz) 0 ;;
  ret (text ++ nl)%string.

Definition printHeap (k : nat) : IO unit :=
  (text <- on_heap k printHeap_text ;; print text)%io.

(** The loop of [main] that lists the arrays read. *)
Fixpoint print_arrays (n : nat) (i : Z) : IO unit :=
  match n with
  | O => io_ret tt
  | S n' =>
      (print ("array " ++ print_int (i + 1) ++ ": ") ;;
       printHeap (Z.to_nat i) ;;
       print_arrays n' (i + 1))%io
  end.

Definition set_d (dd : Z) : M unit :=
  fun h => Ret tt (mkHeap (array h) (size h) dd).

(** The menu of [main] and the choice read. *)
Definition menu_prompt (k : nat) (dd : Z) : IO Z :=
  (print (nl ++ "Your array with the d=" ++ print_int dd
          ++ " is now heaped like this:" ++ nl) ;;
   printHeap k ;;
   print (nl ++ "Choose an operation:" ++ nl) ;;
   print ("1. Insert Key" ++ nl) ;;
   print ("2. Increase Key" ++ nl) ;;
   print ("3. Extract Max" ++ nl) ;;
   print ("4. Delete Key" ++ nl) ;;
   print ("5. Exit" ++ nl) ;;
   print "Enter your choice: " ;;
   getIntInput EmptyString 1 5)%io.

(** The [switch] of [main] on [heaps[k]]. *)
Definition menu_switch (k : nat) (choice : Z) : IO unit :=
  (if choice =? 1 then
     key <- getIntInput "Enter the key to insert: " INT_MIN INT_MAX ;;
     on_heap k (insert key)
   else if choice =? 2 then
     sz <- on_heap k get_size ;;
     hi <- io_lift (int_op (sz - 1)) ;;
     index <- getIntInput "Enter the index: " 0 hi ;;
     key <- getIntInput "Enter the new key: " INT_MIN INT_MAX ;;
     on_heap k (increaseKey index key)
   else if choice =? 3 then
     sz <- on_heap k get_size ;;
     if sz >? 0 then
       key <- on_heap k heapExtractMax ;;
       print ("Extracted Max: " ++ print_int key ++ nl)
     else print ("Heap is empty!" ++ nl)
   else if choice =? 4 then
     sz <- on_heap k get_size ;;
     hi <- io_lift (int_op (sz - 1)) ;;
     index <- getIntInput "Enter the index of the key to delete: " 0 hi ;;
     on_heap k (delete index)
   else if choice =? 5 then
     print ("Exiting program." ++ nl) ;;
     fun w => Stops Finished w
   else print ("Invalid choice. Please try again." ++ nl))%io.

(** One iteration of the menu loop of [main] on [heaps[k]]. *)
Definition menu_step (k : nat) (dd : Z) : IO unit :=
  (choice <- menu_prompt k dd ;; menu_switch k choice)%io.


(** [main] up to the menu loop: the index of the selected heap and its
    degree. *)
Definition main_setup (files : string -> option string) : IO (Z * Z) :=
  (print "Enter the name of the file containing heap data: " ;;
   name <- scan_word MAX_FILENAME_LENGTH ;;
   match name with
   | None => fun _ => Undefined
   | Some fileName =>
       numHeaps <- readHeapsFromFile files fileName ;;
       print ("Available arrays:" ++ nl) ;;
       print_arrays (Z.to_nat numHeaps) 0 ;;
       choice <- getIntInput
                   (nl ++ "Select an array number (1 to number of heaps): ")
                   1 numHeaps ;;
       selectedHeapIndex <- io_lift (int_op (choice - 1)) ;;
       dd <- getIntInput
               "Enter the degree (d) of the heap (greater than 1): "
               1 INT_MAX ;;
       on_heap (Z.to_nat selectedHeapIndex) (set_d dd) ;;
       on_heap (Z.to_nat selectedHeapIndex) buildMaxHeap ;;
       io_ret (selectedHeapIndex, dd)
   end)%io.



(** ** Words at the prompt of [getIntInput] *)

(** A word that [getIntInput] reads and does not return: it fits the
    buffer, and it is no number for [isNumber], or its value is outside
    [min .. max]. *)
Definition rejected (min max : Z) (word : string) : Prop :=
  Z.of_nat (String.length word) < 100 /\
  (isNumber (c_string word) = false \/
   exists v, atoi (c_string word) = Some v /\ ~ (min <= v <= max)).

(** A word that [getIntInput] returns as [v]. *)
Definition accepted (min max : Z) (word : string) (v : Z) : Prop :=
  Z.of_nat (String.length word) < 100 /\
  isNumber (c_string word) = true /\
  atoi (c_string word) = Some v /\
  min <= v <= max.

(** A computation that leaves the heaps alone and does not end the
    process. *)
Definition quiet {A} (m : IO A) : Prop :=
  (forall w e w', m w <> Stops e w') /\
  (forall w a w', m w = Returns a w' -> heaps w' = heaps w).



(** ** An example session *)


(** The memory of [main] at the start, and what the user types. *)
Definition session_world (words : list string) : World :=
  mkWorld (repeat (mkHeap (pad []) 0 0) (Z.to_nat MAX_HEAPS))
          (mkConsole words EmptyString).

(* ================================================================== *)
(** * Verification *)

(** ** The monad: stepping through a computation *)

Lemma bind_Ret {A B} (m : M A) (k : A -> M B) h a h' :
  m h = Ret a h' -> bind m k h = k a h'.
Proof. intros E. unfold bind. now rewrite E. Qed.

Lemma bind_Fault {A B} (m : M A) (k : A -> M B) h :
  m h = Fault -> bind m k h = Fault.
Proof. intros E. unfold bind. now rewrite E. Qed.

Lemma bind_Exit {A B} (m : M A) (k : A -> M B) h e h' :
  m h = Exit e h' -> bind m k h = Exit e h'.
Proof. intros E. unfold bind. now rewrite E. Qed.

Lemma bind_inv_Ret {A B} (m : M A) (k : A -> M B) h b h2 :
  bind m k h = Ret b h2 ->
  exists a h1, m h = Ret a h1 /\ k a h1 = Ret b h2.
Proof.
  unfold bind. destruct (m h) as [a h1| | |]; try discriminate.
  intros E. now exists a, h1.
Qed.

(** ** Arithmetic of [int], [child] and [parent] *)

Lemma in_int_true z : in_int z = true <-> INT_MIN <= z <= INT_MAX.
Proof. unfold in_int. rewrite andb_true_iff, !Z.leb_le. tauto. Qed.

Lemma int_op_Some z : INT_MIN <= z <= INT_MAX -> int_op z = Some z.
Proof. intros H. unfold int_op. now rewrite (proj2 (in_int_true z) H). Qed.

Lemma int_op_None z : INT_MAX < z -> int_op z = None.
Proof.
  intros H. unfold int_op. destruct (in_int z) eqn:E; [|reflexivity].
  apply in_int_true in E. lia.
Qed.

Lemma int_op_inv z r : int_op z = Some r -> r = z /\ INT_MIN <= z <= INT_MAX.
Proof.
  unfold int_op. destruct (in_int z) eqn:E; [|discriminate].
  intros [= <-]. apply in_int_true in E. tauto.
Qed.

Lemma child_Some i k dg :
  0 <= i -> 0 <= k -> 0 <= dg -> dg * i + k <= INT_MAX ->
  child i k dg = Some (dg * i + k).
Proof.
  intros Hi Hk Hd Hmax. unfold child, INT_MIN, INT_MAX in *.
  assert (0 <= dg * i) by lia.
  rewrite int_op_Some by (unfold INT_MIN, INT_MAX; lia).
  apply int_op_Some. unfold INT_MIN, INT_MAX; lia.
Qed.

Lemma child_inv i k dg c :
  child i k dg = Some c ->
  c = dg * i + k /\ INT_MIN <= dg * i <= INT_MAX /\ INT_MIN <= c <= INT_MAX.
Proof.
  unfold child. destruct (int_op (dg * i)) as [t|] eqn:E; [|discriminate].
  apply int_op_inv in E as [-> Ht]. intros Hc.
  apply int_op_inv in Hc as [-> Hc]. tauto.
Qed.

Lemma parent_Some i dg :
  1 <= i <= INT_MAX -> 1 <= dg ->
  parent i dg = Some ((i - 1) / dg).
Proof.
  intros Hi Hd. unfold parent.
  rewrite int_op_Some by (unfold INT_MIN, INT_MAX in *; lia).
  destruct (dg =? 0) eqn:E; [lia|].
  rewrite Z.quot_div_nonneg by lia.
  apply int_op_Some.
  assert (0 <= (i - 1) / dg) by (apply Z.div_pos; lia).
  assert ((i - 1) / dg <= i - 1) by (apply Z.div_le_upper_bound; nia).
  unfold INT_MIN, INT_MAX in *; lia.
Qed.

(** The index arithmetic of a [d]-ary tree laid out in an array. *)
Section Tree.

Variable dg : Z.
Hypothesis dg_pos : 1 <= dg.

Lemma par_child i k : 0 <= i -> 1 <= k <= dg -> par dg (dg * i + k) = i.
Proof.
  intros Hi Hk. unfold par. symmetry.
  apply (Z.div_unique_pos _ _ _ (k - 1)); lia.
Qed.

Lemma par_spec c : 1 <= c -> 0 <= par dg c /\ dg * par dg c + 1 <= c <= dg * par dg c + dg.
Proof.
  intros Hc. unfold par.
  pose proof (Z.div_mod (c - 1) dg ltac:(lia)) as E.
  pose proof (Z.mod_pos_bound (c - 1) dg ltac:(lia)) as B.
  assert (0 <= (c - 1) / dg) by (apply Z.div_pos; lia).
  lia.
Qed.

Lemma par_lt c : 1 <= c -> 0 <= par dg c < c.
Proof. intros Hc. destruct (par_spec c Hc) as [H0 [H1 H2]]. nia. Qed.

Lemma par_eq_iff c i : 1 <= c -> 0 <= i ->
  par dg c = i <-> dg * i + 1 <= c <= dg * i + dg.
Proof.
  intros Hc Hi. split.
  - intros <-. apply par_spec; lia.
  - intros H. replace c with (dg * i + (c - dg * i)) by lia.
    apply par_child; lia.
Qed.

Lemma child_gt i k : 0 <= i -> 1 <= k -> i < dg * i + k.
Proof. intros. nia. Qed.

End Tree.

(** ** Arrays: reading, writing and swapping slots *)

Lemma elem_lookup (a : list Z) i :
  0 <= i < Z.of_nat (length a) -> a !! Z.to_nat i = Some (elem a i).
Proof.
  intros Hi. unfold elem. rewrite nth_lookup.
  destruct (lookup_lt_is_Some_2 a (Z.to_nat i)) as [v ->]; [lia|reflexivity].
Qed.

Lemma elem_insert (a : list Z) x v c :
  0 <= x < Z.of_nat (length a) -> 0 <= c ->
  elem (<[Z.to_nat x := v]> a) c = if c =? x then v else elem a c.
Proof.
  intros Hx Hc. unfold elem. rewrite !nth_lookup.
  destruct (Z.eqb_spec c x) as [->|Hne].
  - rewrite list_lookup_insert_eq by lia. reflexivity.
  - rewrite list_lookup_insert_ne by lia. reflexivity.
Qed.

Lemma elem_swap (a : list Z) x y c :
  0 <= x < Z.of_nat (length a) -> 0 <= y < Z.of_nat (length a) -> 0 <= c ->
  elem (swap_list a x y) c =
  if c =? y then elem a x else if c =? x then elem a y else elem a c.
Proof.
  intros Hx Hy Hc. unfold swap_list.
  rewrite elem_insert by (rewrite ?length_insert; lia).
  destruct (c =? y); [reflexivity|]. now apply elem_insert.
Qed.

Lemma length_swap (a : list Z) x y : length (swap_list a x y) = length a.
Proof. unfold swap_list. now rewrite !length_insert. Qed.

Lemma elem_in_int (a : list Z) i :
  Forall (fun z => INT_MIN <= z <= INT_MAX) a ->
  0 <= i < Z.of_nat (length a) -> INT_MIN <= elem a i <= INT_MAX.
Proof.
  intros Ha Hi. rewrite Forall_lookup in Ha.
  apply (Ha (Z.to_nat i)). now apply elem_lookup.
Qed.

Lemma Forall_swap (a : list Z) x y :
  Forall (fun z => INT_MIN <= z <= INT_MAX) a ->
  0 <= x < Z.of_nat (length a) -> 0 <= y < Z.of_nat (length a) ->
  Forall (fun z => INT_MIN <= z <= INT_MAX) (swap_list a x y).
Proof.
  intros Ha Hx Hy. unfold swap_list.
  apply Forall_insert; [apply Forall_insert; [assumption|]|];
    now apply elem_in_int.
Qed.

Lemma take_swap_perm (a : list Z) n x y :
  0 <= x < n -> 0 <= y < n -> n <= Z.of_nat (length a) ->
  take (Z.to_nat n) (swap_list a x y) ≡ₚ take (Z.to_nat n) a.
Proof.
  intros Hx Hy Hn. unfold swap_list.
  rewrite !take_insert_lt by lia.
  apply Permutation_insert_swap.
  - rewrite lookup_take_lt by lia. apply elem_lookup. lia.
  - rewrite lookup_take_lt by lia. apply elem_lookup. lia.
Qed.

Lemma load_spec i h :
  0 <= i < Z.of_nat (length (array h)) ->
  load i h = Ret (elem (array h) i) h.
Proof.
  intros Hi. unfold load.
  destruct (Z.ltb_spec i 0); [lia|]. now rewrite elem_lookup.
Qed.

Lemma load_inv i h v h' :
  load i h = Ret v h' ->
  h' = h /\ v = elem (array h) i /\ 0 <= i < Z.of_nat (length (array h)).
Proof.
  unfold load. destruct (Z.ltb_spec i 0); [discriminate|].
  destruct (array h !! Z.to_nat i) as [w|] eqn:E; [|discriminate].
  intros [= <- <-]. pose proof (lookup_lt_Some _ _ _ E).
  split; [reflexivity|]. split; [|lia].
  rewrite elem_lookup in E by lia. congruence.
Qed.

Lemma load_result i h :
  load i h = Fault \/ load i h = Ret (elem (array h) i) h.
Proof.
  unfold load. destruct (Z.ltb_spec i 0); [now left|].
  destruct (array h !! Z.to_nat i) as [v|] eqn:E; [|now left].
  right. pose proof (lookup_lt_Some _ _ _ E).
  rewrite elem_lookup in E by lia. congruence.
Qed.

Lemma store_spec i v h :
  0 <= i < Z.of_nat (length (array h)) ->
  store i v h = Ret tt (mkHeap (<[Z.to_nat i := v]> (array h)) (size h) (d h)).
Proof.
  intros Hi. unfold store.
  destruct (Z.leb_spec 0 i); [|lia].
  destruct (Z.ltb_spec i (Z.of_nat (length (array h)))); [reflexivity|lia].
Qed.

Lemma swap_spec x y h :
  0 <= x < Z.of_nat (length (array h)) ->
  0 <= y < Z.of_nat (length (array h)) ->
  swap x y h = Ret tt (mkHeap (swap_list (array h) x y) (size h) (d h)).
Proof.
  intros Hx Hy. unfold swap.
  rewrite (bind_Ret _ _ _ _ _ (load_spec x h Hx)).
  rewrite (bind_Ret _ _ _ _ _ (load_spec y h Hy)).
  rewrite (bind_Ret _ _ _ _ _ (store_spec x _ h Hx)).
  rewrite store_spec by (cbn; rewrite length_insert; lia).
  reflexivity.
Qed.

Lemma lift_inv {A} (o : option A) h a h' :
  lift o h = Ret a h' -> o = Some a /\ h' = h.
Proof. destruct o; cbn; [intros [= <- <-]; tauto|discriminate]. Qed.

Lemma lift_Some {A} (a : A) h : lift (Some a) h = Ret a h.
Proof. reflexivity. Qed.

(** ** The [for] loop of [dmaxHeapify] *)

(** One run of the loop body, as a function of the values read. *)
Lemma scan_children_S n i j l0 h :
  scan_children (S n) i j l0 h =
  match child i j (d h) with
  | None => Fault
  | Some c =>
      match (if c <? size h
             then (vc <- load c ;; vl <- load l0 ;;
                   ret (if vc >? vl then c else l0)) h
             else Ret l0 h) with
      | Ret l1 h1 =>
          match int_op (j + 1) with
          | Some j1 => scan_children n i j1 l1 h1
          | None => Fault
          end
      | Exit e h1 => Exit e h1
      | Fault => Fault
      | OutOfFuel => OutOfFuel
      end
  end.
Proof.
  cbn [scan_children]. unfold bind at 1. cbn [get_d].
  unfold bind at 1. destruct (child i j (d h)) as [c|]; cbn [lift]; [|reflexivity].
  unfold ret at 1. unfold bind at 1. cbn [get_size].
  unfold bind at 1.
  destruct (c <? size h).
  - destruct ((vc <- load c ;; vl <- load l0 ;; ret (if vc >? vl then c else l0)) h);
      try reflexivity.
    unfold bind at 1. destruct (int_op (j + 1)); reflexivity.
  - unfold ret at 1. unfold bind at 1. destruct (int_op (j + 1)); reflexivity.
Qed.

(** Whenever the loop returns, it leaves the heap as it was and its result
    is as [scan_post] says; no assumption on the range of [d] is needed. *)
Lemma scan_children_inv n : forall i j l0 h l h',
  l0 < d h * i + j ->
  scan_children n i j l0 h = Ret l h' ->
  h' = h /\ scan_post h i j (Z.of_nat n) l0 l.
Proof.
  induction n as [|n IH]; intros i j l0 h l h' Hl0 E.
  - cbn in E. injection E as <- <-. split; [reflexivity|].
    unfold scan_post. repeat split; try lia. all: now left.
  - rewrite scan_children_S in E.
    destruct (child i j (d h)) as [c|] eqn:Ec; [|discriminate].
    apply child_inv in Ec as (-> & _ & _).
    set (c := d h * i + j) in *.
    assert (exists l1, (if c <? size h
             then (vc <- load c ;; vl <- load l0 ;;
                   ret (if vc >? vl then c else l0)) h
             else Ret l0 h) = Ret l1 h /\
             ((l1 = l0 /\ (c < size h -> elem (array h) c <= elem (array h) l0)) \/
              (l1 = c /\ c < size h /\ elem (array h) l0 < elem (array h) c)))
      as (l1 & E1 & Hl1).
    { destruct (Z.ltb_spec c (size h)) as [Hc|Hc].
      - destruct ((vc <- load c ;; vl <- load l0 ;;
                   ret (if vc >? vl then c else l0)) h) as [l1 h1| | |] eqn:E1;
          try discriminate.
        apply bind_inv_Ret in E1 as (vc & h2 & L1 & E1).
        apply load_inv in L1 as (-> & -> & _).
        apply bind_inv_Ret in E1 as (vl & h2 & L2 & E1).
        apply load_inv in L2 as (-> & -> & _).
        unfold ret in E1. injection E1 as <- <-.
        exists (if elem (array h) c >? elem (array h) l0 then c else l0).
        split; [reflexivity|].
        destruct (Z.gtb_spec (elem (array h) c) (elem (array h) l0)).
        + right. split; [reflexivity|split; [assumption|lia]].
        + left. split; [reflexivity|lia].
      - exists l0. split; [reflexivity|]. left. split; [reflexivity|lia]. }
    rewrite E1 in E.
    destruct (int_op (j + 1)) as [j1|] eqn:Ej; [|discriminate].
    apply int_op_inv in Ej as [-> _].
    apply IH in E as [-> (P1 & P2 & P3 & P4)].
    2:{ destruct Hl1 as [[-> _]|[-> _]]; subst c; lia. }
    split; [reflexivity|]. unfold scan_post.
    assert (Hle : elem (array h) l0 <= elem (array h) l1)
      by (destruct Hl1 as [[-> _]|[-> [_ ?]]]; lia).
    assert (Hc1 : c < size h -> elem (array h) c <= elem (array h) l1)
      by (destruct Hl1 as [[-> ?]|[-> _]]; [assumption|lia]).
    repeat split.
    + destruct P1 as [->|(k & Hk & -> & Hlt & Hgt)].
      * destruct Hl1 as [[-> _]|[-> [? ?]]]; [now left|].
        right. exists j. repeat split; try lia.
      * right. exists k. repeat split; try lia.
    + lia.
    + intros k Hk Hck. destruct (Z.eq_dec k j) as [->|Hne].
      * specialize (Hc1 Hck). fold c. lia.
      * apply P3; lia.
    + intros k Hk Hck. destruct (Z.eq_dec k j) as [->|Hne].
      * fold c in Hck |- *.
        destruct P1 as [->|(k' & Hk' & -> & Hlt & Hgt)].
        -- destruct Hl1 as [[-> _]|[-> _]]; lia.
        -- specialize (Hc1 ltac:(nia)). lia.
      * apply P4; lia.
Qed.

(** The loop returns when no child index and no increment of [j] leaves the
    range of [int] and every slot it reads is inside the array. *)
Lemma scan_children_runs n : forall i j l0 h,
  0 <= d h -> 0 <= i -> 0 <= j ->
  j + Z.of_nat n <= INT_MAX ->
  d h * i + j + Z.of_nat n - 1 <= INT_MAX ->
  size h <= Z.of_nat (length (array h)) ->
  0 <= l0 < Z.of_nat (length (array h)) ->
  exists l, scan_children n i j l0 h = Ret l h.
Proof.
  induction n as [|n IH]; intros i j l0 h Hd Hi Hj Hinc Hch Hsz Hl0.
  - exists l0. reflexivity.
  - rewrite scan_children_S.
    rewrite child_Some by nia.
    set (c := d h * i + j).
    assert (0 <= c) by (subst c; nia).
    assert (exists l1, (if c <? size h
             then (vc <- load c ;; vl <- load l0 ;;
                   ret (if vc >? vl then c else l0)) h
             else Ret l0 h) = Ret l1 h /\ 0 <= l1 < Z.of_nat (length (array h)))
      as (l1 & -> & Hl1).
    { destruct (Z.ltb_spec c (size h)) as [Hc|Hc].
      - rewrite (bind_Ret _ _ _ _ _ (load_spec c h ltac:(lia))).
        rewrite (bind_Ret _ _ _ _ _ (load_spec l0 h ltac:(lia))).
        unfold ret. eexists. split; [reflexivity|].
        destruct (_ >? _); lia.
      - exists l0. split; [reflexivity|lia]. }
    rewrite int_op_Some by (unfold INT_MIN, INT_MAX in *; lia).
    apply IH; try lia.
Qed.

(** The loop ends by returning or by undefined behaviour, and never
    changes the heap. *)
Lemma scan_children_result n : forall i j l0 h,
  scan_children n i j l0 h = Fault \/
  exists l, scan_children n i j l0 h = Ret l h.
Proof.
  induction n as [|n IH]; intros i j l0 h; [right; now exists l0|].
  rewrite scan_children_S.
  destruct (child i j (d h)) as [c|]; [|now left].
  assert ((if c <? size h
           then (vc <- load c ;; vl <- load l0 ;;
                 ret (if vc >? vl then c else l0)) h
           else Ret l0 h) = Fault \/
          exists l1, (if c <? size h
           then (vc <- load c ;; vl <- load l0 ;;
                 ret (if vc >? vl then c else l0)) h
           else Ret l0 h) = Ret l1 h) as [->|[l1 ->]]; [|now left|].
  { destruct (c <? size h); [|right; now exists l0].
    unfold bind, load, ret.
    destruct (c <? 0); [now left|].
    destruct (array h !! Z.to_nat c); [|now left].
    destruct (l0 <? 0); [now left|].
    destruct (array h !! Z.to_nat l0); [|now left].
    right. eauto. }
  destruct (int_op (j + 1)); [apply IH|now left].
Qed.

Lemma find_largest_result i h :
  find_largest i h = Fault \/ exists l, find_largest i h = Ret l h.
Proof. unfold find_largest, bind. cbn [get_d]. apply scan_children_result. Qed.

Lemma find_largest_inv i h l h' :
  1 <= d h -> 0 <= i ->
  find_largest i h = Ret l h' ->
  h' = h /\ scan_post h i 1 (d h) i l.
Proof.
  intros Hd Hi E. unfold find_largest, bind in E. cbn [get_d] in E.
  apply scan_children_inv in E; [|nia].
  now rewrite Z2Nat.id in E by lia.
Qed.

Lemma find_largest_runs i h :
  1 <= d h < INT_MAX ->
  0 <= i < Z.of_nat (length (array h)) ->
  d h * i + d h <= INT_MAX ->
  size h <= Z.of_nat (length (array h)) ->
  exists l, find_largest i h = Ret l h.
Proof.
  intros Hd Hi Hch Hsz. unfold find_largest, bind. cbn [get_d].
  apply scan_children_runs; rewrite ?Z2Nat.id; lia.
Qed.

(** ** The [while] loop of [dmaxHeapify] *)

Lemma heap_eta h : mkHeap (array h) (size h) (d h) = h.
Proof. now destruct h. Qed.

Lemma heapify_loop_S fuel i h :
  heapify_loop (S fuel) i h =
  match find_largest i h with
  | Ret l h1 =>
      if negb (l =? i) then (swap i l ;; heapify_loop fuel l) h1 else Ret tt h1
  | Exit e h1 => Exit e h1
  | Fault => Fault
  | OutOfFuel => OutOfFuel
  end.
Proof.
  cbn [heapify_loop]. unfold bind at 1.
  destruct (find_largest i h); try reflexivity.
  destruct (negb (a =? i)); reflexivity.
Qed.

Lemma swap_inv x y h u h' :
  swap x y h = Ret u h' ->
  h' = mkHeap (swap_list (array h) x y) (size h) (d h) /\
  0 <= x < Z.of_nat (length (array h)) /\
  0 <= y < Z.of_nat (length (array h)).
Proof.
  intros E. pose proof E as E0. unfold swap in E0.
  apply bind_inv_Ret in E0 as (vx & h1 & L1 & E0).
  apply load_inv in L1 as (-> & -> & Hx).
  apply bind_inv_Ret in E0 as (vy & h1 & L2 & _).
  apply load_inv in L2 as (-> & -> & Hy).
  rewrite (swap_spec x y h Hx Hy) in E. injection E as <-. subst h'. tauto.
Qed.

Lemma swap_result x y h :
  swap x y h = Fault \/
  swap x y h = Ret tt (mkHeap (swap_list (array h) x y) (size h) (d h)).
Proof.
  destruct (Z.ltb_spec x 0) as [Hx|Hx].
  { left. unfold swap, bind, load. destruct (Z.ltb_spec x 0); [reflexivity|lia]. }
  destruct (array h !! Z.to_nat x) as [vx|] eqn:Ex.
  2:{ left. unfold swap, bind, load. destruct (x <? 0); [reflexivity|].
      now rewrite Ex. }
  destruct (Z.ltb_spec y 0) as [Hy|Hy].
  { left. unfold swap, bind, load. destruct (x <? 0); [reflexivity|].
    rewrite Ex. destruct (Z.ltb_spec y 0); [reflexivity|lia]. }
  destruct (array h !! Z.to_nat y) as [vy|] eqn:Ey.
  2:{ left. unfold swap, bind, load. destruct (x <? 0); [reflexivity|].
      rewrite Ex. destruct (y <? 0); [reflexivity|]. now rewrite Ey. }
  right. apply lookup_lt_Some in Ex, Ey. apply swap_spec; lia.
Qed.

(** When the scan returns something else than the [largest] it started
    with, the slot of that [largest] has been read and the result is a
    child below [size]. *)
Lemma scan_children_changed n : forall i j l0 h l h',
  scan_children n i j l0 h = Ret l h' -> l <> l0 ->
  0 <= l0 < Z.of_nat (length (array h)) /\
  exists k, j <= k < j + Z.of_nat n /\ l = d h * i + k /\ l < size h.
Proof.
  induction n as [|n IH]; intros i j l0 h l h' E Hne.
  - cbn in E. injection E as <- <-. congruence.
  - rewrite scan_children_S in E.
    destruct (child i j (d h)) as [c|] eqn:Ec; [|discriminate].
    apply child_inv in Ec as (-> & _ & _).
    set (c := d h * i + j) in *.
    destruct (Z.ltb_spec c (size h)) as [Hc|Hc].
    + destruct (load_result c h) as [L|L];
        [rewrite (bind_Fault _ _ _ L) in E; discriminate|].
      rewrite (bind_Ret _ _ _ _ _ L) in E.
      destruct (load_result l0 h) as [L'|L'];
        [rewrite (bind_Fault _ _ _ L') in E; discriminate|].
      rewrite (bind_Ret _ _ _ _ _ L') in E. unfold ret in E.
      apply load_inv in L' as (_ & _ & Hl0).
      destruct (int_op (j + 1)) as [j1|] eqn:Ej; [|discriminate].
      apply int_op_inv in Ej as [-> _].
      split; [assumption|].
      destruct (elem (array h) c >? elem (array h) l0).
      * destruct (Z.eq_dec l c) as [->|Hlc].
        -- exists j. split; [lia|]. split; [reflexivity|assumption].
        -- destruct (IH _ _ _ _ _ _ E Hlc) as (_ & k & Hk & -> & Hlt).
           exists k. split; [lia|]. split; [reflexivity|assumption].
      * destruct (IH _ _ _ _ _ _ E Hne) as (_ & k & Hk & -> & Hlt).
        exists k. split; [lia|]. split; [reflexivity|assumption].
    + destruct (int_op (j + 1)) as [j1|] eqn:Ej; [|discriminate].
      apply int_op_inv in Ej as [-> _].
      destruct (IH _ _ _ _ _ _ E Hne) as (Hl0 & k & Hk & -> & Hlt).
      split; [assumption|].
      exists k. split; [lia|]. split; [reflexivity|assumption].
Qed.

(** An iteration that goes on started inside the array, with [d >= 1], and
    moves to a strictly larger index below [size]; it changes neither
    [size] nor [d].  This holds in every state. *)
Lemma heapify_continue i h l h1 :
  find_largest i h = Ret l h1 -> l <> i ->
  h1 = h /\ 1 <= d h /\ 0 <= i < l /\ l < size h.
Proof.
  intros E Hne.
  assert (h1 = h) as ->.
  { destruct (find_largest_result i h) as [E'|[l' E']]; congruence. }
  split; [reflexivity|].
  unfold find_largest, bind in E. cbn [get_d] in E.
  apply scan_children_changed in E as (Hi & k & Hk & -> & Hlt); [|assumption].
  assert (1 <= d h) by lia. split; [assumption|]. nia.
Qed.

(** The result of the loop does not depend on the iteration budget once
    the budget exceeds [size - i], and such a budget is never used up.
    This holds in every state. *)
Lemma heapify_loop_fuel fuel1 : forall fuel2 i h,
  (Z.to_nat (size h - Z.max i 0) < fuel1)%nat ->
  (Z.to_nat (size h - Z.max i 0) < fuel2)%nat ->
  heapify_loop fuel1 i h = heapify_loop fuel2 i h /\
  heapify_loop fuel1 i h <> OutOfFuel.
Proof.
  induction fuel1 as [|fuel1 IH]; intros fuel2 i h F1 F2; [lia|].
  destruct fuel2 as [|fuel2]; [lia|].
  rewrite !heapify_loop_S.
  destruct (find_largest i h) as [l h1| | |] eqn:E; try (split; [reflexivity|]).
  - destruct (Z.eqb_spec l i) as [->|Hne]; cbn [negb].
    + split; [reflexivity|discriminate].
    + destruct (heapify_continue i h l h1 E Hne) as (-> & Hd & Hi & Hl).
      unfold bind.
      destruct (swap_result i l h) as [->| ->];
        [split; [reflexivity|discriminate]|].
      apply IH; cbn [size d]; lia.
  - discriminate.
  - discriminate.
  - destruct (find_largest_result i h) as [E'|[l E']]; congruence.
Qed.

Lemma dmaxHeapify_budget i h fuel :
  (Z.to_nat (size h) < fuel)%nat ->
  heapify_loop fuel i h = dmaxHeapify i h /\ dmaxHeapify i h <> OutOfFuel.
Proof.
  intros F. unfold dmaxHeapify.
  destruct (heapify_loop_fuel fuel (heapify_fuel h) i h) as [E1 E2];
    try (unfold heapify_fuel; lia).
  split; [assumption|]. now rewrite <- E1.
Qed.

(** One swap of [dmaxHeapify] re-establishes its invariant at the child. *)
Lemma sift_down_inv_swap dg a n lo i l :
  1 <= dg -> 0 <= i -> n <= Z.of_nat (length a) ->
  sift_down_inv dg a n lo i ->
  (exists k, 1 <= k <= dg /\ l = dg * i + k) -> l < n ->
  elem a i < elem a l ->
  (forall k, 1 <= k < 1 + dg -> dg * i + k < n ->
     elem a (dg * i + k) <= elem a l) ->
  sift_down_inv dg (swap_list a i l) n lo l.
Proof.
  intros Hdg Hlo Hn [IA IB] (k & Hk & ->) Hl Hgt Hmax.
  set (l := dg * i + k) in *.
  assert (Hpl : par dg l = i) by (apply par_child; lia).
  assert (Hil : i < l) by (subst l; nia).
  assert (Hsw : forall c, 0 <= c ->
            elem (swap_list a i l) c =
            if c =? l then elem a i else if c =? i then elem a l else elem a c)
    by (intros c Hc; apply elem_swap; lia).
  split.
  - intros c Hc Hpc Hne. unfold ok_at.
    pose proof (par_lt dg Hdg c ltac:(lia)) as Hp.
    rewrite (Hsw c), (Hsw (par dg c)) by lia.
    destruct (Z.eqb_spec (par dg c) l) as [E|_]; [congruence|].
    destruct (Z.eqb_spec (par dg c) i) as [Ei|Ni].
    + (* a child of [i] *)
      destruct (Z.eqb_spec c l) as [->|Ncl]; [lia|].
      destruct (Z.eqb_spec c i) as [->|_]; [lia|].
      apply (par_eq_iff dg Hdg c i) in Ei; [|lia..].
      replace c with (dg * i + (c - dg * i)) by lia.
      apply Hmax; lia.
    + destruct (Z.eqb_spec c l) as [->|Ncl]; [congruence|].
      destruct (Z.eqb_spec c i) as [->|Nci].
      * apply (IB ltac:(lia) Hpc l); [lia|assumption].
      * apply IA; [lia|assumption..].
  - intros Hl1 Hlo' c Hc Hpc.
    pose proof (par_lt dg Hdg c ltac:(lia)) as Hp.
    rewrite (Hsw c), (Hsw (par dg l)) by lia.
    rewrite Hpl.
    destruct (Z.eqb_spec c l) as [->|_]; [lia|].
    destruct (Z.eqb_spec c i) as [->|_]; [lia|].
    destruct (Z.eqb_spec i l) as [?|_]; [lia|].
    rewrite Z.eqb_refl.
    specialize (IA c ltac:(lia) ltac:(lia) ltac:(lia)).
    unfold ok_at in IA. now rewrite Hpc in IA.
Qed.

(** When no child is greater, the invariant of [dmaxHeapify] gives the
    heap order. *)
Lemma sift_down_inv_done dg a n lo i :
  1 <= dg -> 0 <= i ->
  sift_down_inv dg a n lo i ->
  (forall k, 1 <= k < 1 + dg -> dg * i + k < n ->
     elem a (dg * i + k) <= elem a i) ->
  heap_on dg a n lo.
Proof.
  intros Hdg Hi [IA _] Hmax c Hc Hpc.
  destruct (Z.eq_dec (par dg c) i) as [E|N]; [|now apply IA].
  unfold ok_at. rewrite E.
  apply (par_eq_iff dg Hdg c i) in E; [|lia..].
  replace c with (dg * i + (c - dg * i)) by lia.
  apply Hmax; lia.
Qed.

(** Whenever the loop of [dmaxHeapify] at [i] returns, it has permuted the
    valid elements and restored the heap order from [lo] on, for every
    [lo] for which its invariant held at the start. *)
Lemma heapify_loop_partial fuel : forall i h h',
  heap_ok h -> 0 <= i ->
  heapify_loop fuel i h = Ret tt h' ->
  exists a',
    h' = mkHeap a' (size h) (d h) /\
    heap_ok (mkHeap a' (size h) (d h)) /\
    take (Z.to_nat (size h)) a' ≡ₚ take (Z.to_nat (size h)) (array h) /\
    (forall lo, sift_down_inv (d h) (array h) (size h) lo i ->
                heap_on (d h) a' (size h) lo).
Proof.
  induction fuel as [|fuel IH]; intros i h h' Hok Hi E; [discriminate|].
  pose proof Hok as (Hlen & Hall & Hsz & Hd).
  assert (HM : Z.of_nat (length (array h)) = MAX_CAPACITY) by lia.
  rewrite heapify_loop_S in E.
  destruct (find_largest i h) as [l h1| | |] eqn:F; try discriminate.
  destruct (find_largest_inv i h l h1 ltac:(lia) ltac:(lia) F)
    as [-> (P1 & P2 & P3 & P4)].
  destruct (Z.eqb_spec l i) as [Heq|Hne] in E; cbn [negb] in E.
  - subst l. injection E as <-. exists (array h). rewrite heap_eta.
    split; [reflexivity|]. split; [assumption|]. split; [reflexivity|].
    intros lo Inv.
    apply (sift_down_inv_done _ _ _ _ i); [lia..|assumption|assumption].
  - destruct P1 as [?|(k & Hk & Hl & Hlt & Hgt)]; [congruence|].
    assert (Hil : i < l) by nia.
    apply bind_inv_Ret in E as (u & h2 & Es & E).
    apply swap_inv in Es as (-> & _ & _).
    apply IH in E as (a' & -> & Hok' & Hperm & Hheap); cbn [array size d] in *.
    + exists a'. split; [reflexivity|]. split; [assumption|]. split.
      * rewrite Hperm. apply take_swap_perm; lia.
      * intros lo Inv. apply Hheap.
        apply sift_down_inv_swap; try assumption; try lia.
        exists k. split; [lia|assumption].
    + split; [|split; [|split]]; cbn [array size d]; try lia.
      * rewrite length_swap. lia.
      * apply Forall_swap; [assumption|lia..].
    + lia.
Qed.

(** The loop of [dmaxHeapify] at [i] returns when neither the loop counter
    nor a child index of the indices from [i] to [size - 1] overflows. *)
Lemma heapify_loop_runs fuel : forall i h,
  heap_ok h ->
  d h < INT_MAX -> d h * (i + 1) <= INT_MAX -> d h * size h <= INT_MAX ->
  0 <= i < MAX_CAPACITY ->
  (Z.to_nat (size h - i) < fuel)%nat ->
  exists h', heapify_loop fuel i h = Ret tt h'.
Proof.
  induction fuel as [|fuel IH]; intros i h Hok Hd1 Hd2 Hd3 Hi F; [lia|].
  pose proof Hok as (Hlen & Hall & Hsz & Hd).
  assert (HM : Z.of_nat (length (array h)) = MAX_CAPACITY) by lia.
  rewrite heapify_loop_S.
  destruct (find_largest_runs i h) as [l E]; [lia..|].
  rewrite E.
  destruct (Z.eqb_spec l i) as [->|Hne]; cbn [negb]; [now exists h|].
  destruct (heapify_continue i h l h E Hne) as (_ & _ & Hil & Hl).
  unfold bind. rewrite swap_spec by lia.
  apply IH; cbn [array size d]; try lia; try nia.
  split; [|split; [|split]]; cbn [array size d]; try lia.
  - rewrite length_swap. lia.
  - apply Forall_swap; [assumption|lia..].
Qed.

(** [dmaxHeapify] at [i] restores the heap order from [lo] on, and permutes
    the valid elements. *)
Lemma heapify_loop_spec fuel : forall i h,
  heap_ok h ->
  d h < INT_MAX -> d h * (i + 1) <= INT_MAX -> d h * size h <= INT_MAX ->
  0 <= i < MAX_CAPACITY ->
  (Z.to_nat (size h - i) < fuel)%nat ->
  exists a',
    heapify_loop fuel i h = Ret tt (mkHeap a' (size h) (d h)) /\
    heap_ok (mkHeap a' (size h) (d h)) /\
    take (Z.to_nat (size h)) a' ≡ₚ take (Z.to_nat (size h)) (array h) /\
    (forall lo, sift_down_inv (d h) (array h) (size h) lo i ->
                heap_on (d h) a' (size h) lo).
Proof.
  intros i h Hok Hd1 Hd2 Hd3 Hi F.
  destruct (heapify_loop_runs fuel i h Hok Hd1 Hd2 Hd3 Hi F) as [h' E].
  destruct (heapify_loop_partial fuel i h h' Hok ltac:(lia) E)
    as (a' & -> & Hrest).
  exists a'. split; assumption.
Qed.

(** ** The sift-up loop of [insert] and [increaseKey] *)

Lemma sift_up_S fuel i h :
  sift_up (S fuel) i h =
  if i >? ROOT then
    match parent i (d h) with
    | None => Fault
    | Some p =>
        (vp <- load p ;; vi <- load i ;;
         if vp <? vi then swap i p ;; sift_up fuel p else ret tt) h
    end
  else Ret tt h.
Proof.
  cbn [sift_up]. destruct (i >? ROOT); [|reflexivity].
  unfold bind at 1. cbn [get_d]. unfold bind at 1.
  destruct (parent i (d h)); reflexivity.
Qed.

Lemma parent_inv i dg p :
  1 <= i -> 1 <= dg -> parent i dg = Some p -> p = par dg i.
Proof.
  intros Hi Hd. unfold parent.
  destruct (int_op (i - 1)) as [t|] eqn:E; [|discriminate].
  apply int_op_inv in E as [-> _].
  destruct (dg =? 0); [discriminate|].
  intros E. apply int_op_inv in E as [-> _].
  unfold par. apply Z.quot_div_nonneg; lia.
Qed.

Lemma parent_lt i dg p :
  1 <= i -> parent i dg = Some p -> p < i.
Proof.
  intros Hi. unfold parent.
  destruct (int_op (i - 1)) as [t|] eqn:E; [|discriminate].
  apply int_op_inv in E as [-> _].
  destruct (Z.eqb_spec dg 0) as [|Hd]; [discriminate|].
  intros E. apply int_op_inv in E as [-> _].
  destruct (Z_lt_le_dec 0 dg) as [Hpos|Hneg].
  - rewrite Z.quot_div_nonneg by lia.
    assert ((i - 1) / dg <= i - 1) by (apply Z.div_le_upper_bound; nia). lia.
  - replace dg with (- (- dg)) by lia. rewrite Z.quot_opp_r by lia.
    assert (0 <= (i - 1) ÷ (- dg)) by (apply Z.quot_pos; lia). lia.
Qed.

(** The result of the loop does not depend on the iteration budget once
    the budget exceeds [i], and such a budget is never used up.  This
    holds in every state. *)
Lemma sift_up_fuel fuel1 : forall fuel2 i h,
  (Z.to_nat i < fuel1)%nat -> (Z.to_nat i < fuel2)%nat ->
  sift_up fuel1 i h = sift_up fuel2 i h /\ sift_up fuel1 i h <> OutOfFuel.
Proof.
  induction fuel1 as [|fuel1 IH]; intros fuel2 i h F1 F2; [lia|].
  destruct fuel2 as [|fuel2]; [lia|].
  rewrite !sift_up_S. unfold ROOT.
  destruct (Z.gtb_spec i 0) as [Hi|Hi]; [|split; [reflexivity|discriminate]].
  destruct (parent i (d h)) as [p|] eqn:Ep; [|split; [reflexivity|discriminate]].
  apply parent_lt in Ep; [|lia].
  destruct (load_result p h) as [L1|L1].
  { rewrite !(bind_Fault _ _ _ L1). split; [reflexivity|discriminate]. }
  rewrite !(bind_Ret _ _ _ _ _ L1).
  apply load_inv in L1 as (_ & _ & Hp).
  destruct (load_result i h) as [L2|L2].
  { rewrite !(bind_Fault _ _ _ L2). split; [reflexivity|discriminate]. }
  rewrite !(bind_Ret _ _ _ _ _ L2).
  destruct (_ <? _); [|split; [reflexivity|discriminate]].
  unfold bind.
  destruct (swap_result i p h) as [->| ->];
    [split; [reflexivity|discriminate]|].
  apply IH; lia.
Qed.

(** One swap of the sift-up loop re-establishes its invariant at the
    parent. *)
Lemma sift_up_inv_swap dg a n i :
  1 <= dg -> 1 <= i < n -> n <= Z.of_nat (length a) ->
  sift_up_inv dg a n i ->
  elem a (par dg i) < elem a i ->
  sift_up_inv dg (swap_list a i (par dg i)) n (par dg i).
Proof.
  intros Hdg Hi Hn [IA IB] Hlt.
  pose proof (par_lt dg Hdg i ltac:(lia)) as Hp.
  set (p := par dg i) in *.
  assert (Hsw : forall c, 0 <= c ->
            elem (swap_list a i p) c =
            if c =? p then elem a i else if c =? i then elem a p else elem a c)
    by (intros c Hc; apply elem_swap; lia).
  split.
  - intros c Hc Hne. unfold ok_at.
    pose proof (par_lt dg Hdg c ltac:(lia)) as Hq.
    rewrite (Hsw c), (Hsw (par dg c)) by lia.
    destruct (Z.eqb_spec c p) as [?|_]; [congruence|].
    destruct (Z.eqb_spec c i) as [->|Nci].
    + fold p. rewrite Z.eqb_refl. lia.
    + specialize (IA c Hc Nci). unfold ok_at in IA.
      destruct (Z.eqb_spec (par dg c) p) as [E|_].
      * rewrite E in IA. lia.
      * destruct (Z.eqb_spec (par dg c) i) as [E|_]; [|assumption].
        apply (IB ltac:(lia) c Hc E).
  - intros Hp1 c Hc Hpc.
    pose proof (par_lt dg Hdg p ltac:(lia)) as Hpp.
    rewrite (Hsw c), (Hsw (par dg p)) by lia.
    destruct (Z.eqb_spec (par dg p) p) as [?|_]; [lia|].
    destruct (Z.eqb_spec (par dg p) i) as [?|_]; [lia|].
    pose proof (par_lt dg Hdg c ltac:(lia)) as Hq.
    destruct (Z.eqb_spec c p) as [?|_]; [lia|].
    pose proof (IA p ltac:(lia) ltac:(lia)) as Okp. unfold ok_at in Okp.
    destruct (Z.eqb_spec c i) as [->|Nci]; [assumption|].
    pose proof (IA c Hc Nci) as Okc. unfold ok_at in Okc.
    rewrite Hpc in Okc. lia.
Qed.

Lemma sift_up_inv_done dg a n i :
  sift_up_inv dg a n i ->
  (1 <= i < n -> elem a i <= elem a (par dg i)) ->
  heap_on dg a n 0.
Proof.
  intros [IA _] Hi c Hc _.
  destruct (Z.eq_dec c i) as [->|N]; [now apply Hi|now apply IA].
Qed.

(** The sift-up loop from [i] restores the heap order everywhere, and
    permutes the valid elements. *)
Lemma sift_up_spec fuel : forall i h,
  heap_ok h -> 0 <= i < size h ->
  (Z.to_nat i < fuel)%nat ->
  exists a',
    sift_up fuel i h = Ret tt (mkHeap a' (size h) (d h)) /\
    heap_ok (mkHeap a' (size h) (d h)) /\
    take (Z.to_nat (size h)) a' ≡ₚ take (Z.to_nat (size h)) (array h) /\
    (sift_up_inv (d h) (array h) (size h) i -> heap_on (d h) a' (size h) 0).
Proof.
  induction fuel as [|fuel IH]; intros i h Hok Hi F; [lia|].
  pose proof Hok as (Hlen & Hall & Hsz & Hd).
  assert (HM : Z.of_nat (length (array h)) = MAX_CAPACITY) by lia.
  rewrite sift_up_S. unfold ROOT.
  destruct (Z.gtb_spec i 0) as [Hi0|Hi0].
  2:{ exists (array h). rewrite heap_eta.
      split; [reflexivity|]. split; [assumption|]. split; [reflexivity|].
      intros Inv. apply (sift_up_inv_done _ _ _ i); [assumption|lia]. }
  rewrite parent_Some by (unfold MAX_CAPACITY, INT_MAX in *; lia).
  fold (par (d h) i).
  pose proof (par_lt (d h) ltac:(lia) i ltac:(lia)) as Hp.
  rewrite (bind_Ret _ _ _ _ _ (load_spec (par (d h) i) h ltac:(lia))).
  rewrite (bind_Ret _ _ _ _ _ (load_spec i h ltac:(lia))).
  destruct (Z.ltb_spec (elem (array h) (par (d h) i)) (elem (array h) i)) as [Hlt|Hge].
  - unfold bind. rewrite swap_spec by lia.
    set (h1 := mkHeap (swap_list (array h) i (par (d h) i)) (size h) (d h)).
    destruct (IH (par (d h) i) h1) as (a' & R & Hok' & Hperm & Hheap);
      subst h1; cbn [array size d].
    + split; [|split; [|split]]; cbn [array size d]; try lia.
      * rewrite length_swap. lia.
      * apply Forall_swap; [assumption|lia..].
    + lia.
    + lia.
    + exists a'. cbn [array size d] in *.
      split; [assumption|]. split; [assumption|]. split.
      * rewrite Hperm. apply take_swap_perm; lia.
      * intros Inv. apply Hheap.
        apply sift_up_inv_swap; try assumption; lia.
  - exists (array h). unfold ret. rewrite heap_eta.
    split; [reflexivity|]. split; [assumption|]. split; [reflexivity|].
    intros Inv. apply (sift_up_inv_done _ _ _ i); [assumption|lia].
Qed.

(** ** The heap order *)

Lemma heap_okb_true h : heap_okb h = true -> heap_ok h.
Proof.
  unfold heap_okb, heap_ok. rewrite !andb_true_iff, !Z.leb_le, Nat.eqb_eq.
  intros (((((H1 & H2) & H3) & H4) & H5) & H6).
  split; [assumption|]. split; [|lia].
  rewrite forallb_forall in H2. apply Forall_forall.
  intros z Hz. apply in_int_true, H2, list_elem_of_In, Hz.
Qed.

Lemma max_heap_heap_on h :
  1 <= d h -> (max_heap h <-> heap_on (d h) (array h) (size h) 0).
Proof.
  intros Hd. split.
  - intros H c Hc _. unfold ok_at.
    destruct (par_spec (d h) Hd c ltac:(lia)) as (Hp0 & Hp1 & Hp2).
    replace c with (d h * par (d h) c + (c - d h * par (d h) c)) at 1 by lia.
    apply H; nia.
  - intros H i k Hi Hk Hc.
    specialize (H (d h * i + k) ltac:(nia)). unfold ok_at in H.
    rewrite par_child in H by lia. apply H. lia.
Qed.

Lemma max_heapb_true h : 1 <= d h -> max_heapb h = true -> max_heap h.
Proof.
  intros Hd Hb. apply max_heap_heap_on; [assumption|].
  intros c Hc _. unfold max_heapb in Hb. rewrite forallb_forall in Hb.
  specialize (Hb (Z.to_nat c)). rewrite Z2Nat.id in Hb by lia.
  apply Z.leb_le, Hb, in_seq. lia.
Qed.

(** The root dominates every valid index. *)
Lemma root_max dg a n :
  1 <= dg -> heap_on dg a n 0 ->
  forall c, 0 <= c < n -> elem a c <= elem a 0.
Proof.
  intros Hdg H c Hc.
  remember (Z.to_nat c) as m eqn:Em.
  revert c Hc Em. induction (lt_wf m) as [m _ IH]. intros c Hc ->.
  destruct (Z.eq_dec c 0) as [->|Hne]; [lia|].
  pose proof (par_lt dg Hdg c ltac:(lia)) as Hp.
  specialize (H c ltac:(lia) ltac:(lia)). unfold ok_at in H.
  specialize (IH (Z.to_nat (par dg c)) ltac:(lia) (par dg c) ltac:(lia) eq_refl).
  lia.
Qed.

Lemma elem_of_valid h x :
  size h <= Z.of_nat (length (array h)) ->
  x ∈ valid h <-> exists c, 0 <= c < size h /\ x = elem (array h) c.
Proof.
  intros Hsz. unfold valid. rewrite list_elem_of_lookup. split.
  - intros [n Hn]. pose proof (lookup_lt_Some _ _ _ Hn) as Hlen.
    rewrite length_take in Hlen.
    rewrite lookup_take_lt in Hn by lia.
    exists (Z.of_nat n). split; [lia|].
    unfold elem. rewrite Nat2Z.id, nth_lookup, Hn. reflexivity.
  - intros (c & Hc & ->). exists (Z.to_nat c).
    rewrite lookup_take_lt by lia. apply elem_lookup. lia.
Qed.

Lemma valid_le_root h x :
  heap_ok h -> max_heap h -> x ∈ valid h -> x <= elem (array h) 0.
Proof.
  intros (Hlen & _ & Hsz & Hd) Hh Hx.
  apply elem_of_valid in Hx as (c & Hc & ->); [|lia].
  apply (root_max (d h) _ (size h)); [lia| |assumption].
  apply max_heap_heap_on; [lia|assumption].
Qed.

(** ** [insert] *)

Lemma get_size_bind {B} (k : Z -> M B) h : (sz <- get_size ;; k sz) h = k (size h) h.
Proof. reflexivity. Qed.

Lemma set_size_bind {B} (k : unit -> M B) n h :
  (u <- set_size n ;; k u) h = k tt (mkHeap (array h) n (d h)).
Proof. reflexivity. Qed.

Lemma lift_bind {A B} (k : A -> M B) a h : (x <- lift (Some a) ;; k x) h = k a h.
Proof. reflexivity. Qed.

Lemma insert_full key h :
  size h = MAX_CAPACITY -> insert key h = Exit Overflow h.
Proof.
  intros E. unfold insert. rewrite get_size_bind, E. reflexivity.
Qed.

Lemma valid_insert_end (a : list Z) n key :
  0 <= n < Z.of_nat (length a) ->
  take (Z.to_nat (n + 1)) (<[Z.to_nat n := key]> a) = take (Z.to_nat n) a ++ [key].
Proof.
  intros Hn. replace (Z.to_nat (n + 1)) with (S (Z.to_nat n)) by lia.
  rewrite (take_S_r _ _ key) by (apply list_lookup_insert_eq; lia).
  rewrite take_insert. destruct (decide (Z.to_nat n < Z.to_nat n)%nat); [lia|].
  reflexivity.
Qed.

Lemma insert_spec key h :
  heap_ok h -> INT_MIN <= key <= INT_MAX -> size h < MAX_CAPACITY ->
  exists a',
    insert key h = Ret tt (mkHeap a' (size h + 1) (d h)) /\
    heap_ok (mkHeap a' (size h + 1) (d h)) /\
    valid (mkHeap a' (size h + 1) (d h)) ≡ₚ key :: valid h /\
    (max_heap h -> max_heap (mkHeap a' (size h + 1) (d h))).
Proof.
  intros Hok Hkey Hsz.
  pose proof Hok as (Hlen & Hall & Hsz0 & Hd).
  assert (HM : Z.of_nat (length (array h)) = MAX_CAPACITY) by lia.
  unfold insert. rewrite get_size_bind.
  destruct (Z.eqb_spec (size h) MAX_CAPACITY) as [?|_]; [lia|].
  rewrite (bind_Ret _ _ _ _ _ (store_spec (size h) key h ltac:(lia))).
  rewrite int_op_Some by (unfold MAX_CAPACITY, INT_MIN, INT_MAX in *; lia).
  rewrite lift_bind, set_size_bind. cbn [array size d].
  set (h1 := mkHeap (<[Z.to_nat (size h) := key]> (array h)) (size h + 1) (d h)).
  destruct (sift_up_spec (sift_fuel (size h)) (size h) h1)
    as (a' & R & Hok' & Hperm & Hheap); subst h1; cbn [array size d] in *.
  - split; [|split; [|split]]; cbn [array size d]; try lia.
    + rewrite length_insert. lia.
    + apply Forall_insert; assumption.
  - lia.
  - unfold sift_fuel. lia.
  - exists a'. split; [assumption|]. split; [assumption|]. split.
    + unfold valid. cbn [array size d]. rewrite Hperm, valid_insert_end by lia.
      symmetry. apply Permutation_cons_append.
    + intros Hh. apply max_heap_heap_on; [cbn [d]; lia|]. cbn [array size d].
      apply Hheap. apply max_heap_heap_on in Hh; [|lia]. split.
      * intros c Hc Hne. unfold ok_at.
        pose proof (par_lt (d h) ltac:(lia) c ltac:(lia)) as Hp.
        rewrite !elem_insert by lia.
        destruct (Z.eqb_spec c (size h)) as [?|_]; [lia|].
        destruct (Z.eqb_spec (par (d h) c) (size h)) as [?|_]; [lia|].
        apply Hh; lia.
      * intros Hs c Hc Hpc.
        pose proof (par_lt (d h) ltac:(lia) c ltac:(lia)). lia.
Qed.

(** ** [increaseKey] *)

Lemma increaseKey_invalid i key h :
  0 <= i < Z.of_nat (length (array h)) ->
  key < elem (array h) i ->
  increaseKey i key h = Exit InvalidKey h.
Proof.
  intros Hi Hlt. unfold increaseKey.
  rewrite (bind_Ret _ _ _ _ _ (load_spec i h Hi)).
  destruct (Z.ltb_spec key (elem (array h) i)); [reflexivity|lia].
Qed.

Lemma increaseKey_spec i key h :
  heap_ok h -> 0 <= i < size h -> elem (array h) i <= key <= INT_MAX ->
  exists a',
    increaseKey i key h = Ret tt (mkHeap a' (size h) (d h)) /\
    heap_ok (mkHeap a' (size h) (d h)) /\
    valid (mkHeap a' (size h) (d h)) ≡ₚ <[Z.to_nat i := key]> (valid h) /\
    (max_heap h -> max_heap (mkHeap a' (size h) (d h))).
Proof.
  intros Hok Hi Hkey.
  pose proof Hok as (Hlen & Hall & Hsz0 & Hd).
  assert (HM : Z.of_nat (length (array h)) = MAX_CAPACITY) by lia.
  pose proof (elem_in_int (array h) i Hall ltac:(lia)) as Hvi.
  unfold increaseKey.
  rewrite (bind_Ret _ _ _ _ _ (load_spec i h ltac:(lia))).
  destruct (Z.ltb_spec key (elem (array h) i)); [lia|].
  rewrite (bind_Ret _ _ _ _ _ (store_spec i key h ltac:(lia))).
  set (h1 := mkHeap (<[Z.to_nat i := key]> (array h)) (size h) (d h)).
  destruct (sift_up_spec (sift_fuel i) i h1)
    as (a' & R & Hok' & Hperm & Hheap); subst h1; cbn [array size d] in *.
  - split; [|split; [|split]]; cbn [array size d]; try lia.
    + rewrite length_insert. lia.
    + apply Forall_insert; [assumption|lia].
  - lia.
  - unfold sift_fuel. lia.
  - exists a'. split; [assumption|]. split; [assumption|]. split.
    + unfold valid. cbn [array size d]. rewrite Hperm.
      now rewrite take_insert_lt by lia.
    + intros Hh. apply max_heap_heap_on; [cbn [d]; lia|]. cbn [array size d].
      apply Hheap. apply max_heap_heap_on in Hh; [|lia]. split.
      * intros c Hc Hne. unfold ok_at.
        pose proof (par_lt (d h) ltac:(lia) c ltac:(lia)) as Hp.
        rewrite !elem_insert by lia.
        destruct (Z.eqb_spec c i) as [?|_]; [lia|].
        specialize (Hh c Hc ltac:(lia)). unfold ok_at in Hh.
        destruct (Z.eqb_spec (par (d h) c) i) as [E|_]; [|assumption].
        rewrite E in Hh. lia.
      * intros Hi1 c Hc Hpc.
        pose proof (par_lt (d h) ltac:(lia) c ltac:(lia)) as Hp.
        pose proof (par_lt (d h) ltac:(lia) i ltac:(lia)) as Hpi.
        rewrite !elem_insert by lia.
        destruct (Z.eqb_spec c i) as [?|_]; [lia|].
        destruct (Z.eqb_spec (par (d h) i) i) as [?|_]; [lia|].
        pose proof (Hh c Hc ltac:(lia)) as H1. unfold ok_at in H1.
        pose proof (Hh i ltac:(lia) ltac:(lia)) as H2. unfold ok_at in H2.
        rewrite Hpc in H1. lia.
Qed.

(** With the key that is already there, [increaseKey] changes nothing. *)
Lemma increaseKey_same i h :
  heap_ok h -> 0 <= i < size h -> max_heap h ->
  increaseKey i (elem (array h) i) h = Ret tt h.
Proof.
  intros Hok Hi Hh.
  pose proof Hok as (Hlen & Hall & Hsz0 & Hd).
  assert (HM : Z.of_nat (length (array h)) = MAX_CAPACITY) by lia.
  unfold increaseKey.
  rewrite (bind_Ret _ _ _ _ _ (load_spec i h ltac:(lia))).
  rewrite Z.ltb_irrefl.
  rewrite (bind_Ret _ _ _ _ _ (store_spec i _ h ltac:(lia))).
  rewrite list_insert_id by (apply elem_lookup; lia).
  rewrite heap_eta. unfold sift_fuel. rewrite sift_up_S. unfold ROOT.
  destruct (Z.gtb_spec i 0) as [Hi0|Hi0]; [|reflexivity].
  rewrite parent_Some by (unfold MAX_CAPACITY, INT_MAX in *; lia).
  fold (par (d h) i).
  pose proof (par_lt (d h) ltac:(lia) i ltac:(lia)) as Hp.
  rewrite (bind_Ret _ _ _ _ _ (load_spec (par (d h) i) h ltac:(lia))).
  rewrite (bind_Ret _ _ _ _ _ (load_spec i h ltac:(lia))).
  apply max_heap_heap_on in Hh; [|lia].
  specialize (Hh i ltac:(lia) ltac:(lia)). unfold ok_at in Hh.
  destruct (Z.ltb_spec (elem (array h) (par (d h) i)) (elem (array h) i));
    [lia|reflexivity].
Qed.

(** ** [heapExtractMax] *)

Lemma heapExtractMax_empty h :
  size h < 1 -> heapExtractMax h = Exit Underflow h.
Proof.
  intros Hs. unfold heapExtractMax. rewrite get_size_bind.
  destruct (Z.ltb_spec (size h) 1); [reflexivity|lia].
Qed.

(** Moving the last valid element into slot 0 and dropping the last slot
    removes one occurrence of the old root. *)
Lemma valid_move_last (a : list Z) n :
  1 <= n <= Z.of_nat (length a) ->
  elem a 0 :: take (Z.to_nat (n - 1)) (<[0%nat := elem a (n - 1)]> a)
  ≡ₚ take (Z.to_nat n) a.
Proof.
  intros Hn. destruct a as [|x t]; [cbn in Hn; lia|].
  replace (Z.to_nat n) with (S (Z.to_nat (n - 1))) by lia.
  unfold elem. change (Z.to_nat 0) with 0%nat.
  assert (Hm : (Z.to_nat (n - 1) <= length t)%nat) by (cbn in Hn; lia).
  revert Hm. generalize (Z.to_nat (n - 1)). intros m Hm.
  cbn [nth list_insert insert take firstn].
  constructor.
  destruct m as [|m]; [reflexivity|].
  cbn [nth take firstn].
  assert (Hlt : (m < length t)%nat) by lia.
  destruct (lookup_lt_is_Some_2 t m Hlt) as [v Hv].
  rewrite (take_S_r _ _ _ Hv), nth_lookup, Hv. cbn.
  apply Permutation_cons_append.
Qed.

Lemma heapExtractMax_unfold h :
  heap_ok h -> 1 <= size h ->
  heapExtractMax h =
  (dmaxHeapify ROOT ;; ret (elem (array h) 0))
    (mkHeap (<[0%nat := elem (array h) (size h - 1)]> (array h))
            (size h - 1) (d h)).
Proof.
  intros (Hlen & Hall & Hsz0 & Hd) Hsz.
  assert (HM : Z.of_nat (length (array h)) = MAX_CAPACITY) by lia.
  unfold heapExtractMax. rewrite get_size_bind.
  destruct (Z.ltb_spec (size h) 1); [lia|]. unfold ROOT.
  rewrite (bind_Ret _ _ _ _ _ (load_spec 0 h ltac:(lia))).
  rewrite int_op_Some by (unfold MAX_CAPACITY, INT_MIN, INT_MAX in *; lia).
  rewrite lift_bind.
  rewrite (bind_Ret _ _ _ _ _ (load_spec (size h - 1) h ltac:(lia))).
  rewrite (bind_Ret _ _ _ _ _ (store_spec 0 _ h ltac:(lia))).
  rewrite set_size_bind. reflexivity.
Qed.

(** Whenever [heapExtractMax] returns on a non-empty heap, it returns the
    element of slot 0, has removed one occurrence of it from the valid
    elements, and has kept the max-heap property if it held. *)
Lemma heapExtractMax_partial h m h' :
  heap_ok h -> 1 <= size h ->
  heapExtractMax h = Ret m h' ->
  m = elem (array h) 0 /\
  exists a',
    h' = mkHeap a' (size h - 1) (d h) /\
    heap_ok (mkHeap a' (size h - 1) (d h)) /\
    elem (array h) 0 :: valid (mkHeap a' (size h - 1) (d h)) ≡ₚ valid h /\
    (max_heap h -> max_heap (mkHeap a' (size h - 1) (d h))).
Proof.
  intros Hok Hsz E.
  pose proof Hok as (Hlen & Hall & Hsz0 & Hd).
  assert (HM : Z.of_nat (length (array h)) = MAX_CAPACITY) by lia.
  rewrite heapExtractMax_unfold in E by assumption.
  apply bind_inv_Ret in E as ([] & h2 & E & Em).
  unfold ret in Em. injection Em as <- <-. split; [reflexivity|].
  unfold dmaxHeapify, ROOT in E.
  apply heapify_loop_partial in E as (a' & -> & Hok' & Hperm & Hheap);
    cbn [array size d] in *.
  - exists a'. split; [reflexivity|]. split; [assumption|]. split.
    + unfold valid. cbn [array size d]. rewrite Hperm.
      apply valid_move_last. lia.
    + intros Hh. apply max_heap_heap_on; [cbn [d]; lia|]. cbn [array size d].
      apply Hheap. apply max_heap_heap_on in Hh; [|lia]. split; [|lia].
      intros c Hc _ Hne. unfold ok_at.
      pose proof (par_lt (d h) ltac:(lia) c ltac:(lia)) as Hp.
      change 0%nat with (Z.to_nat 0).
      rewrite !elem_insert by lia.
      destruct (Z.eqb_spec c 0) as [?|_]; [lia|].
      destruct (Z.eqb_spec (par (d h) c) 0) as [?|_]; [lia|].
      apply Hh; lia.
  - split; [|split; [|split]]; cbn [array size d]; try lia.
    + rewrite length_insert. lia.
    + apply Forall_insert; [assumption|]. apply elem_in_int; [assumption|lia].
  - lia.
Qed.

(** [heapExtractMax] returns on a non-empty heap when the index arithmetic
    of the sift-down stays within [int]. *)
Lemma heapExtractMax_runs h :
  heap_ok h -> 1 <= size h -> index_safe h ->
  exists m h', heapExtractMax h = Ret m h'.
Proof.
  intros Hok Hsz [Hsafe1 Hsafe2].
  pose proof Hok as (Hlen & Hall & Hsz0 & Hd).
  assert (HM : Z.of_nat (length (array h)) = MAX_CAPACITY) by lia.
  rewrite heapExtractMax_unfold by assumption.
  unfold bind, dmaxHeapify.
  match goal with |- context [heapify_loop ?f ?i ?s] =>
    destruct (heapify_loop_runs f i s) as [h' ->] end; cbn [array size d].
  - split; [|split; [|split]]; cbn [array size d]; try lia.
    + rewrite length_insert. lia.
    + apply Forall_insert; [assumption|]. apply elem_in_int; [assumption|lia].
  - assumption.
  - unfold ROOT. lia.
  - assumption.
  - unfold ROOT, MAX_CAPACITY. lia.
  - unfold heapify_fuel, ROOT. cbn [size]. lia.
  - unfold ret. eauto.
Qed.

Lemma heapExtractMax_spec h :
  heap_ok h -> 1 <= size h -> index_safe h ->
  exists a',
    heapExtractMax h = Ret (elem (array h) 0) (mkHeap a' (size h - 1) (d h)) /\
    heap_ok (mkHeap a' (size h - 1) (d h)) /\
    elem (array h) 0 :: valid (mkHeap a' (size h - 1) (d h)) ≡ₚ valid h /\
    (max_heap h -> max_heap (mkHeap a' (size h - 1) (d h))).
Proof.
  intros Hok Hsz Hsafe.
  destruct (heapExtractMax_runs h Hok Hsz Hsafe) as (m & h' & E).
  destruct (heapExtractMax_partial h m h' Hok Hsz E) as (-> & a' & -> & Hrest).
  exists a'. split; assumption.
Qed.

(** ** [delete] *)

Lemma delete_out_of_bounds index h :
  size h <= index -> delete index h = Exit IndexOutOfBounds h.
Proof.
  intros Hi. unfold delete. rewrite get_size_bind.
  destruct (Z.geb_spec index (size h)); [reflexivity|lia].
Qed.

Lemma insert_perm (l : list Z) : forall i x y,
  l !! i = Some x -> x :: <[i := y]> l ≡ₚ y :: l.
Proof.
  induction l as [|z l IH]; intros [|i] x y E; try discriminate.
  - cbn in E. injection E as ->. cbn. apply perm_swap.
  - cbn in E. cbn [list_insert insert].
    change (<[S i:=y]> (z :: l)) with (z :: <[i:=y]> l).
    rewrite perm_swap, (IH i x y E). apply perm_swap.
Qed.

Lemma length_valid h :
  size h <= Z.of_nat (length (array h)) ->
  length (valid h) = Z.to_nat (size h).
Proof. intros Hs. unfold valid. rewrite length_take. lia. Qed.

Lemma valid_lookup h i :
  0 <= i < size h -> size h <= Z.of_nat (length (array h)) ->
  valid h !! Z.to_nat i = Some (elem (array h) i).
Proof.
  intros Hi Hs. unfold valid. rewrite lookup_take_lt by lia.
  apply elem_lookup. lia.
Qed.

(** Whenever [delete] returns for an index below [size], it has removed
    one occurrence of the element at that index and kept the max-heap
    property, if the heap had it. *)
Lemma delete_partial index h h' :
  heap_ok h -> 0 <= index < size h ->
  delete index h = Ret tt h' ->
  exists a',
    h' = mkHeap a' (size h - 1) (d h) /\
    heap_ok (mkHeap a' (size h - 1) (d h)) /\
    (max_heap h ->
     elem (array h) index :: valid (mkHeap a' (size h - 1) (d h)) ≡ₚ valid h /\
     max_heap (mkHeap a' (size h - 1) (d h))).
Proof.
  intros Hok Hi E.
  pose proof Hok as (Hlen & Hall & Hsz0 & Hd).
  assert (HM : Z.of_nat (length (array h)) = MAX_CAPACITY) by lia.
  pose proof (elem_in_int (array h) index Hall ltac:(lia)) as Hvi.
  unfold delete in E. rewrite get_size_bind in E.
  destruct (Z.geb_spec index (size h)) as [|_] in E; [lia|].
  destruct (increaseKey_spec index INT_MAX h Hok Hi ltac:(lia))
    as (a1 & R1 & Hok1 & Hperm1 & Hheap1).
  rewrite (bind_Ret _ _ _ _ _ R1) in E.
  apply bind_inv_Ret in E as (m & h2 & E & Em).
  unfold ret in Em. injection Em as <-.
  apply heapExtractMax_partial in E as (-> & a2 & -> & Hok2 & Hperm2 & Hheap2);
    [|assumption|cbn [size]; lia].
  cbn [array size d] in *.
  exists a2. split; [reflexivity|]. split; [assumption|].
  intros Hh. specialize (Hheap1 Hh). split; [|now apply Hheap2].
  assert (Hroot : elem a1 0 = INT_MAX).
  { assert (Hin : INT_MAX ∈ valid (mkHeap a1 (size h) (d h))).
    { rewrite Hperm1. apply list_elem_of_lookup. exists (Z.to_nat index).
      apply list_lookup_insert_eq. rewrite length_valid; lia. }
    pose proof (valid_le_root _ INT_MAX Hok1 Hheap1 Hin) as Hle.
    destruct Hok1 as (Hlen1 & Hall1 & _). cbn [array] in Hlen1, Hall1, Hle.
    pose proof (elem_in_int a1 0 Hall1 ltac:(lia)). lia. }
  rewrite Hroot in Hperm2.
  apply (Permutation_cons_inv (a := INT_MAX)).
  rewrite perm_swap, Hperm2, Hperm1.
  apply insert_perm, valid_lookup; lia.
Qed.

(** [delete] returns for an index below [size] when the index arithmetic of
    the sift-down stays within [int]. *)
Lemma delete_runs index h :
  heap_ok h -> 0 <= index < size h -> index_safe h ->
  exists h', delete index h = Ret tt h'.
Proof.
  intros Hok Hi Hsafe.
  pose proof Hok as (Hlen & Hall & Hsz0 & Hd).
  assert (HM : Z.of_nat (length (array h)) = MAX_CAPACITY) by lia.
  pose proof (elem_in_int (array h) index Hall ltac:(lia)) as Hvi.
  unfold delete. rewrite get_size_bind.
  destruct (Z.geb_spec index (size h)); [lia|].
  destruct (increaseKey_spec index INT_MAX h Hok Hi ltac:(lia))
    as (a1 & R1 & Hok1 & _).
  rewrite (bind_Ret _ _ _ _ _ R1).
  destruct (heapExtractMax_runs (mkHeap a1 (size h) (d h)) Hok1
              ltac:(cbn; lia) Hsafe) as (m & h' & R2).
  rewrite (bind_Ret _ _ _ _ _ R2). unfold ret. eauto.
Qed.

Lemma delete_spec index h :
  heap_ok h -> 0 <= index < size h -> index_safe h ->
  exists a',
    delete index h = Ret tt (mkHeap a' (size h - 1) (d h)) /\
    heap_ok (mkHeap a' (size h - 1) (d h)) /\
    (max_heap h ->
     elem (array h) index :: valid (mkHeap a' (size h - 1) (d h)) ≡ₚ valid h /\
     max_heap (mkHeap a' (size h - 1) (d h))).
Proof.
  intros Hok Hi Hsafe.
  destruct (delete_runs index h Hok Hi Hsafe) as (h' & E).
  destruct (delete_partial index h h' Hok Hi E) as (a' & -> & Hrest).
  exists a'. split; assumption.
Qed.

(** ** Repeated extraction *)

Lemma extract_all_S n h :
  extract_all (S n) h =
  (x <- heapExtractMax ;; xs <- extract_all n ;; ret (x :: xs)) h.
Proof. reflexivity. Qed.

Lemma drain_S fuel h :
  drain (S fuel) h =
  if size h >? 0
  then (x <- heapExtractMax ;; xs <- drain fuel ;; ret (x :: xs)) h
  else Ret [] h.
Proof. cbn [drain]. rewrite get_size_bind. now destruct (size h >? 0). Qed.

Lemma extract_all_spec n : forall h,
  heap_ok h -> max_heap h -> index_safe h -> Z.of_nat n <= size h ->
  exists l a',
    extract_all n h = Ret l (mkHeap a' (size h - Z.of_nat n) (d h)) /\
    heap_ok (mkHeap a' (size h - Z.of_nat n) (d h)) /\
    max_heap (mkHeap a' (size h - Z.of_nat n) (d h)) /\
    l ++ valid (mkHeap a' (size h - Z.of_nat n) (d h)) ≡ₚ valid h /\
    length l = n /\
    Sorted Z.ge l.
Proof.
  induction n as [|n IH]; intros h Hok Hh Hsafe Hn.
  - exists [], (array h). cbn [extract_all Z.of_nat]. rewrite Z.sub_0_r, heap_eta.
    unfold ret. split; [reflexivity|]. split; [assumption|].
    split; [assumption|]. split; [reflexivity|]. split; [reflexivity|constructor].
  - pose proof Hok as (Hlen & Hall & Hsz0 & Hd).
    destruct (heapExtractMax_spec h Hok ltac:(lia) Hsafe)
      as (a1 & R1 & Hok1 & Hperm1 & Hheap1).
    specialize (Hheap1 Hh).
    destruct (IH (mkHeap a1 (size h - 1) (d h)) Hok1 Hheap1)
      as (l & a2 & R2 & Hok2 & Hheap2 & Hperm2 & Hlen2 & Hsorted).
    { unfold index_safe in *. cbn [size d]. split; [tauto|nia]. }
    { cbn [size]. lia. }
    cbn [array size d] in *.
    replace (size h - 1 - Z.of_nat n) with (size h - Z.of_nat (S n)) in * by lia.
    exists (elem (array h) 0 :: l), a2.
    cbn [extract_all]. rewrite (bind_Ret _ _ _ _ _ R1), (bind_Ret _ _ _ _ _ R2).
    unfold ret. split; [reflexivity|]. split; [assumption|].
    split; [assumption|]. split; [|split].
    + cbn [app]. rewrite Hperm2. assumption.
    + cbn. now rewrite Hlen2.
    + constructor; [assumption|].
      destruct l as [|x l']; constructor.
      apply Z.le_ge. apply (valid_le_root h x Hok Hh).
      rewrite <- Hperm1, <- Hperm2.
      apply list_elem_of_further, list_elem_of_here.
Qed.

Lemma max_heap_empty h : size h <= 1 -> max_heap h.
Proof. intros Hs i k Hi Hk Hc. nia. Qed.

Lemma valid_empty h : size h <= 0 -> valid h = [].
Proof.
  intros Hs. unfold valid. replace (Z.to_nat (size h)) with 0%nat by lia.
  reflexivity.
Qed.

Lemma drain_spec fuel : forall h,
  heap_ok h -> max_heap h -> index_safe h ->
  (Z.to_nat (size h) < fuel)%nat ->
  exists l a',
    drain fuel h = Ret l (mkHeap a' 0 (d h)) /\
    heap_ok (mkHeap a' 0 (d h)) /\
    l ≡ₚ valid h /\
    Sorted Z.ge l.
Proof.
  induction fuel as [|fuel IH]; intros h Hok Hh Hsafe F; [lia|].
  pose proof Hok as (Hlen & Hall & Hsz0 & Hd).
  cbn [drain]. rewrite get_size_bind.
  destruct (Z.gtb_spec (size h) 0) as [Hpos|Hzero].
  - destruct (heapExtractMax_spec h Hok ltac:(lia) Hsafe)
      as (a1 & R1 & Hok1 & Hperm1 & Hheap1).
    specialize (Hheap1 Hh).
    destruct (IH (mkHeap a1 (size h - 1) (d h)) Hok1 Hheap1)
      as (l & a2 & R2 & Hok2 & Hperm2 & Hsorted).
    { unfold index_safe in *. cbn [size d]. split; [tauto|nia]. }
    { cbn [size]. lia. }
    cbn [array size d] in *.
    exists (elem (array h) 0 :: l), a2.
    rewrite (bind_Ret _ _ _ _ _ R1), (bind_Ret _ _ _ _ _ R2).
    unfold ret. split; [reflexivity|]. split; [assumption|]. split.
    + rewrite Hperm2. assumption.
    + constructor; [assumption|].
      destruct l as [|x l']; constructor.
      apply Z.le_ge. apply (valid_le_root h x Hok Hh).
      rewrite <- Hperm1, <- Hperm2.
      apply list_elem_of_further, list_elem_of_here.
  - exists [], (array h). unfold ret.
    replace 0 with (size h) at 1 2 by lia. rewrite heap_eta.
    split; [reflexivity|]. split; [assumption|].
    rewrite valid_empty by lia. split; [reflexivity|constructor].
Qed.

Lemma insert_all_spec keys : forall h,
  heap_ok h -> max_heap h ->
  Forall (fun z => INT_MIN <= z <= INT_MAX) keys ->
  size h + Z.of_nat (length keys) <= MAX_CAPACITY ->
  exists a',
    insert_all keys h = Ret tt (mkHeap a' (size h + Z.of_nat (length keys)) (d h)) /\
    heap_ok (mkHeap a' (size h + Z.of_nat (length keys)) (d h)) /\
    max_heap (mkHeap a' (size h + Z.of_nat (length keys)) (d h)) /\
    valid (mkHeap a' (size h + Z.of_nat (length keys)) (d h)) ≡ₚ keys ++ valid h.
Proof.
  induction keys as [|key keys IH]; intros h Hok Hh Hkeys Hcap.
  - exists (array h). cbn [insert_all length Z.of_nat app].
    rewrite Z.add_0_r, heap_eta. unfold ret.
    split; [reflexivity|]. split; [assumption|]. split; [assumption|reflexivity].
  - apply Forall_cons in Hkeys as [Hkey Hkeys]. cbn [length] in Hcap.
    destruct (insert_spec key h Hok Hkey ltac:(lia))
      as (a1 & R1 & Hok1 & Hperm1 & Hheap1).
    specialize (Hheap1 Hh).
    destruct (IH (mkHeap a1 (size h + 1) (d h)) Hok1 Hheap1 Hkeys)
      as (a2 & R2 & Hok2 & Hheap2 & Hperm2).
    { cbn [size]. lia. }
    cbn [array size d] in *.
    replace (size h + 1 + Z.of_nat (length keys))
      with (size h + Z.of_nat (length (key :: keys))) in * by (cbn [length]; lia).
    exists a2. cbn [insert_all]. rewrite (bind_Ret _ _ _ _ _ R1).
    split; [assumption|]. split; [assumption|]. split; [assumption|].
    rewrite Hperm2, Hperm1. cbn [app].
    symmetry. apply Permutation_middle.
Qed.

(** ** Where the index arithmetic leaves the range of [int] *)

Lemma scan_body_result c l0 h :
  (if c <? size h
   then (vc <- load c ;; vl <- load l0 ;; ret (if vc >? vl then c else l0)) h
   else Ret l0 h) = Fault \/
  exists l1,
  (if c <? size h
   then (vc <- load c ;; vl <- load l0 ;; ret (if vc >? vl then c else l0)) h
   else Ret l0 h) = Ret l1 h.
Proof.
  destruct (c <? size h); [|right; now exists l0].
  destruct (load_result c h) as [L|L].
  { left. now rewrite (bind_Fault _ _ _ L). }
  rewrite (bind_Ret _ _ _ _ _ L).
  destruct (load_result l0 h) as [L'|L'].
  { left. now rewrite (bind_Fault _ _ _ L'). }
  rewrite (bind_Ret _ _ _ _ _ L'). right. unfold ret. eauto.
Qed.

(** When the last [++j] of the [for] loop overflows, the loop does not
    return. *)
Lemma scan_children_incr_overflow n : forall i j l0 h,
  (1 <= n)%nat -> j + Z.of_nat n - 1 = INT_MAX ->
  scan_children n i j l0 h = Fault.
Proof.
  induction n as [|n IH]; intros i j l0 h Hn Hj; [lia|].
  rewrite scan_children_S.
  destruct (child i j (d h)) as [c|]; [|reflexivity].
  destruct (scan_body_result c l0 h) as [->|[l1 ->]]; [reflexivity|].
  destruct (int_op (j + 1)) as [j1|] eqn:Ej; [|reflexivity].
  apply int_op_inv in Ej as [-> Hr].
  destruct n as [|n]; [lia|]. apply IH; lia.
Qed.

(** When the last child index of the [for] loop overflows, the loop does
    not return. *)
Lemma scan_children_child_overflow n : forall i j l0 h,
  (1 <= n)%nat -> INT_MAX < d h * i + j + Z.of_nat n - 1 ->
  scan_children n i j l0 h = Fault.
Proof.
  induction n as [|n IH]; intros i j l0 h Hn Hj; [lia|].
  rewrite scan_children_S.
  destruct (child i j (d h)) as [c|] eqn:Ec; [|reflexivity].
  apply child_inv in Ec as (-> & _ & Hc).
  destruct (scan_body_result (d h * i + j) l0 h) as [->|[l1 ->]]; [reflexivity|].
  destruct (int_op (j + 1)) as [j1|] eqn:Ej; [|reflexivity].
  apply int_op_inv in Ej as [-> Hr].
  destruct n as [|n]; [lia|]. apply IH; lia.
Qed.

Lemma find_largest_d_max i h : d h = INT_MAX -> find_largest i h = Fault.
Proof.
  intros Hd. unfold find_largest, bind. cbn [get_d].
  apply scan_children_incr_overflow.
  - rewrite Hd. unfold INT_MAX. lia.
  - rewrite Z2Nat.id; rewrite Hd; unfold INT_MAX; lia.
Qed.

Lemma find_largest_child_overflow i h :
  1 <= d h -> INT_MAX < d h * i + d h -> find_largest i h = Fault.
Proof.
  intros Hd Hov. unfold find_largest, bind. cbn [get_d].
  apply scan_children_child_overflow.
  - lia.
  - rewrite Z2Nat.id; lia.
Qed.

Lemma dmaxHeapify_d_max i h : d h = INT_MAX -> dmaxHeapify i h = Fault.
Proof.
  intros Hd. unfold dmaxHeapify, heapify_fuel. rewrite heapify_loop_S.
  now rewrite find_largest_d_max.
Qed.

(** With [d = INT_MAX], extracting from a non-empty heap runs into the
    overflow of [++j]. *)
Lemma heapExtractMax_d_max h :
  heap_ok h -> 1 <= size h -> d h = INT_MAX -> heapExtractMax h = Fault.
Proof.
  intros (Hlen & Hall & Hsz0 & Hd) Hsz Hmax.
  assert (HM : Z.of_nat (length (array h)) = MAX_CAPACITY) by lia.
  unfold heapExtractMax. rewrite get_size_bind.
  destruct (Z.ltb_spec (size h) 1); [lia|]. unfold ROOT.
  rewrite (bind_Ret _ _ _ _ _ (load_spec 0 h ltac:(lia))).
  rewrite int_op_Some by (unfold MAX_CAPACITY, INT_MIN, INT_MAX in *; lia).
  rewrite lift_bind.
  rewrite (bind_Ret _ _ _ _ _ (load_spec (size h - 1) h ltac:(lia))).
  rewrite (bind_Ret _ _ _ _ _ (store_spec 0 _ h ltac:(lia))).
  rewrite set_size_bind. apply bind_Fault. now apply dmaxHeapify_d_max.
Qed.

Lemma delete_d_max index h :
  heap_ok h -> 0 <= index < size h -> d h = INT_MAX -> delete index h = Fault.
Proof.
  intros Hok Hi Hmax.
  pose proof Hok as (Hlen & Hall & Hsz0 & Hd).
  assert (HM : Z.of_nat (length (array h)) = MAX_CAPACITY) by lia.
  pose proof (elem_in_int (array h) index Hall ltac:(lia)) as Hvi.
  unfold delete. rewrite get_size_bind.
  destruct (Z.geb_spec index (size h)); [lia|].
  destruct (increaseKey_spec index INT_MAX h Hok Hi ltac:(lia))
    as (a1 & R1 & Hok1 & _).
  rewrite (bind_Ret _ _ _ _ _ R1). apply bind_Fault.
  apply heapExtractMax_d_max; [assumption|cbn; lia|assumption].
Qed.

(** With two valid elements and the greater one in slot 1, the scan at the
    root selects slot 1, whatever [d] is. *)
Lemma find_largest_root_two h :
  heap_ok h -> size h = 2 -> d h < INT_MAX ->
  elem (array h) 0 < elem (array h) 1 ->
  find_largest 0 h = Ret 1 h.
Proof.
  intros (Hlen & Hall & Hsz0 & Hd) Hs Hdm Hlt.
  destruct (find_largest_runs 0 h) as [l E];
    [lia|unfold MAX_CAPACITY in *; lia|lia|lia|].
  rewrite E. f_equal.
  apply find_largest_inv in E as [_ (P1 & _ & P3 & _)]; [|lia..].
  destruct P1 as [->|(k & Hk & -> & Hl & _)]; [|lia].
  specialize (P3 1 ltac:(lia) ltac:(lia)).
  replace (d h * 0 + 1) with 1 in P3 by lia. lia.
Qed.

(** With [2 * d] above [INT_MAX], a sift-down that leaves the root computes
    a child index that overflows. *)
Lemma heapExtractMax_child_overflow h :
  heap_ok h -> size h = 3 -> INT_MAX < 2 * d h -> d h < INT_MAX ->
  elem (array h) 2 < elem (array h) 1 ->
  heapExtractMax h = Fault.
Proof.
  intros Hok Hs Hd2 Hdm Hlt.
  pose proof Hok as (Hlen & Hall & Hsz0 & Hd).
  assert (HM : Z.of_nat (length (array h)) = MAX_CAPACITY) by lia.
  unfold heapExtractMax. rewrite get_size_bind.
  destruct (Z.ltb_spec (size h) 1); [lia|]. unfold ROOT.
  rewrite (bind_Ret _ _ _ _ _ (load_spec 0 h ltac:(lia))).
  rewrite int_op_Some by (unfold MAX_CAPACITY, INT_MIN, INT_MAX in *; lia).
  rewrite lift_bind.
  rewrite (bind_Ret _ _ _ _ _ (load_spec (size h - 1) h ltac:(lia))).
  rewrite (bind_Ret _ _ _ _ _ (store_spec 0 _ h ltac:(lia))).
  rewrite set_size_bind. apply bind_Fault. cbn [array size d].
  rewrite Hs. change (3 - 1) with 2. change (Z.to_nat 0) with 0%nat.
  set (h1 := mkHeap (<[0%nat := elem (array h) 2]> (array h)) 2 (d h)).
  assert (Hok1 : heap_ok h1).
  { split; [|split; [|split]]; cbn [h1 array size d]; try lia.
    - rewrite length_insert. lia.
    - apply Forall_insert; [assumption|]. apply elem_in_int; [assumption|lia]. }
  assert (E0 : elem (array h1) 0 = elem (array h) 2 /\
               elem (array h1) 1 = elem (array h) 1).
  { cbn [h1 array]. change 0%nat with (Z.to_nat 0).
    rewrite !elem_insert by lia. cbn. tauto. }
  unfold dmaxHeapify, heapify_fuel. cbn [h1 size]. fold h1.
  change (Z.to_nat 2) with 2%nat.
  rewrite heapify_loop_S.
  destruct E0 as [E0 E1].
  rewrite find_largest_root_two;
    [|assumption|reflexivity|assumption|rewrite E0, E1; assumption].
  cbn [Z.eqb negb]. unfold bind.
  rewrite swap_spec by (cbn [h1 array]; rewrite length_insert; lia).
  rewrite heapify_loop_S.
  rewrite find_largest_child_overflow; [reflexivity|cbn [h1 d]; lia..].
Qed.

(** ** [buildMaxHeap] *)

Lemma dmaxHeapify_spec i h :
  heap_ok h ->
  d h < INT_MAX -> d h * (i + 1) <= INT_MAX -> d h * size h <= INT_MAX ->
  0 <= i < MAX_CAPACITY ->
  exists a',
    dmaxHeapify i h = Ret tt (mkHeap a' (size h) (d h)) /\
    heap_ok (mkHeap a' (size h) (d h)) /\
    valid (mkHeap a' (size h) (d h)) ≡ₚ valid h /\
    (forall lo, sift_down_inv (d h) (array h) (size h) lo i ->
                heap_on (d h) a' (size h) lo).
Proof.
  intros Hok Hd1 Hd2 Hd3 Hi. unfold dmaxHeapify.
  apply heapify_loop_spec; try assumption.
  unfold heapify_fuel. destruct Hok as (_ & _ & Hsz & _). lia.
Qed.

Lemma build_loop_spec n : forall i h,
  heap_ok h -> Z.of_nat n = i + 1 -> d h * (i + 1) <= size h ->
  exists a',
    build_loop n i h = Ret tt (mkHeap a' (size h) (d h)) /\
    heap_ok (mkHeap a' (size h) (d h)) /\
    valid (mkHeap a' (size h) (d h)) ≡ₚ valid h /\
    (heap_on (d h) (array h) (size h) (i + 1) ->
     heap_on (d h) a' (size h) 0).
Proof.
  induction n as [|n IH]; intros i h Hok Hn Hi.
  - exists (array h). cbn [build_loop]. unfold ret. rewrite heap_eta.
    split; [reflexivity|]. split; [assumption|]. split; [reflexivity|].
    now replace (i + 1) with 0 by lia.
  - pose proof Hok as (Hlen & Hall & Hsz0 & Hd).
    assert (Hi0 : 0 <= i) by lia.
    assert (Hlt : i < size h) by nia.
    destruct (dmaxHeapify_spec i h Hok) as (a1 & R1 & Hok1 & Hperm1 & Hheap1);
      [unfold MAX_CAPACITY, INT_MAX in *; nia..|].
    cbn [build_loop]. rewrite (bind_Ret _ _ _ _ _ R1).
    rewrite int_op_Some by (unfold MAX_CAPACITY, INT_MIN, INT_MAX in *; lia).
    rewrite lift_bind.
    destruct (IH (i - 1) (mkHeap a1 (size h) (d h)) Hok1)
      as (a2 & R2 & Hok2 & Hperm2 & Hheap2); cbn [array size d] in *.
    + lia.
    + nia.
    + exists a2. split; [assumption|]. split; [assumption|]. split.
      * now rewrite Hperm2.
      * intros Hh. apply Hheap2. replace (i - 1 + 1) with i by lia.
        apply Hheap1. split.
        -- intros c Hc Hpc Hne. apply Hh; lia.
        -- intros Hi1 Hpi. pose proof (par_lt (d h) ltac:(lia) i Hi1). lia.
Qed.

(** [buildMaxHeap] returns and permutes the valid elements; it establishes
    the heap order when [size mod d <= 1], that is when the loop starts at
    the last node that has a child. *)
Lemma buildMaxHeap_spec h :
  heap_ok h ->
  exists a',
    buildMaxHeap h = Ret tt (mkHeap a' (size h) (d h)) /\
    heap_ok (mkHeap a' (size h) (d h)) /\
    valid (mkHeap a' (size h) (d h)) ≡ₚ valid h /\
    (size h mod d h <= 1 -> max_heap (mkHeap a' (size h) (d h))).
Proof.
  intros Hok. pose proof Hok as (Hlen & Hall & Hsz0 & Hd).
  assert (Hq : 0 <= size h / d h <= size h).
  { split; [apply Z.div_pos; lia|]. apply Z.div_le_upper_bound; nia. }
  pose proof (Z.div_mod (size h) (d h) ltac:(lia)) as Hdm.
  pose proof (Z.mod_pos_bound (size h) (d h) ltac:(lia)) as Hmb.
  unfold buildMaxHeap. rewrite get_size_bind.
  unfold bind at 1. cbn [get_d].
  destruct (Z.eqb_spec (d h) 0); [lia|].
  rewrite Z.quot_div_nonneg by lia.
  rewrite int_op_Some by (unfold MAX_CAPACITY, INT_MIN, INT_MAX in *; lia).
  rewrite lift_bind.
  rewrite int_op_Some by (unfold MAX_CAPACITY, INT_MIN, INT_MAX in *; lia).
  rewrite lift_bind.
  destruct (build_loop_spec (Z.to_nat (size h / d h - 1 + 1)) (size h / d h - 1) h Hok)
    as (a' & R & Hok' & Hperm & Hheap).
  - lia.
  - lia.
  - exists a'. split; [assumption|]. split; [assumption|]. split; [assumption|].
    intros Hmod. apply max_heap_heap_on; [cbn [d]; lia|]. cbn [array size d].
    apply Hheap. intros c Hc Hpc.
    destruct (par_spec (d h) ltac:(lia) c ltac:(lia)) as (_ & Hp & _). nia.
Qed.

(** ** Shape of the results *)

Lemma heapify_loop_no_exit fuel : forall i h e h',
  heapify_loop fuel i h <> Exit e h'.
Proof.
  induction fuel as [|fuel IH]; intros i h e h'; [discriminate|].
  rewrite heapify_loop_S.
  destruct (find_largest_result i h) as [->|[l ->]]; [discriminate|].
  destruct (negb (l =? i)); [|discriminate].
  unfold bind. destruct (swap_result i l h) as [->| ->]; [discriminate|].
  apply IH.
Qed.

Lemma heapExtractMax_no_exit h e h' :
  heap_ok h -> 1 <= size h -> heapExtractMax h <> Exit e h'.
Proof.
  intros Hok Hsz. rewrite heapExtractMax_unfold by assumption.
  unfold bind, dmaxHeapify.
  match goal with |- context [heapify_loop ?f ?i ?s] =>
    pose proof (heapify_loop_no_exit f i s) as Hne;
    destruct (heapify_loop f i s) end; try discriminate.
  intros E. injection E as -> ->. now apply (Hne e h').
Qed.

(** ** Checks on the example states *)

Lemma example_heap_ok : heap_ok example_heap.
Proof. apply heap_okb_true. vm_compute. reflexivity. Qed.

Lemma example_heap_max_heap : max_heap example_heap.
Proof. apply max_heapb_true; [cbn; lia|vm_compute; reflexivity]. Qed.

Lemma example_heap_safe : index_safe example_heap.
Proof. unfold index_safe. cbn. unfold INT_MAX. lia. Qed.

Lemma example_input_ok : heap_ok example_input.
Proof. apply heap_okb_true. vm_compute. reflexivity. Qed.

Lemma heap_d_max_ok : heap_ok heap_d_max.
Proof. apply heap_okb_true. vm_compute. reflexivity. Qed.

Lemma heap_d_big_ok : heap_ok heap_d_big.
Proof. apply heap_okb_true. vm_compute. reflexivity. Qed.

Lemma empty_d_max_ok : heap_ok empty_d_max.
Proof. apply heap_okb_true. vm_compute. reflexivity. Qed.

Lemma empty_heap_ok : heap_ok empty_heap.
Proof. apply heap_okb_true. vm_compute. reflexivity. Qed.

Lemma build_input_ok : heap_ok build_input.
Proof. apply heap_okb_true. vm_compute. reflexivity. Qed.

Lemma heap_d_max_max_heap : max_heap heap_d_max.
Proof. apply max_heap_empty. cbn. lia. Qed.

Lemma heap_d_big_max_heap : max_heap heap_d_big.
Proof. apply max_heapb_true; [cbn; lia|vm_compute; reflexivity]. Qed.

Lemma heap_d_max_fault : heapExtractMax heap_d_max = Fault.
Proof. apply heapExtractMax_d_max; [apply heap_d_max_ok|cbn; lia|reflexivity]. Qed.

Lemma heap_d_big_fault : heapExtractMax heap_d_big = Fault.
Proof.
  apply heapExtractMax_child_overflow;
    [apply heap_d_big_ok|reflexivity|cbn; unfold INT_MAX; lia..|].
  vm_compute. reflexivity.
Qed.

Lemma heap_d_max_delete_fault : delete 0 heap_d_max = Fault.
Proof. apply delete_d_max; [apply heap_d_max_ok|cbn; lia|reflexivity]. Qed.

Lemma heap_d_big_delete_fault : delete 0 heap_d_big = Fault.
Proof.
  unfold delete. rewrite get_size_bind.
  replace (0 >=? size heap_d_big) with false by reflexivity.
  assert (R : increaseKey 0 INT_MAX heap_d_big =
              Ret tt (mkHeap (pad [INT_MAX; 8; 1]) 3 1073741824))
    by (vm_compute; reflexivity).
  rewrite (bind_Ret _ _ _ _ _ R). apply bind_Fault.
  apply heapExtractMax_child_overflow.
  - apply heap_okb_true. vm_compute. reflexivity.
  - reflexivity.
  - cbn. unfold INT_MAX. lia.
  - cbn. unfold INT_MAX. lia.
  - vm_compute. reflexivity.
Qed.

Lemma heap_d_max_pair_ok : heap_ok heap_d_max_pair.
Proof. apply heap_okb_true. vm_compute. reflexivity. Qed.

(** ** The scenario of the specification, run on the embedding *)

(** Build with [d = 2] from 3 1 4 1 5 9 2 6: the root is 9. *)
Example build_scenario :
  buildMaxHeap example_input = Ret tt example_heap.
Proof. vm_compute. reflexivity. Qed.

(** [heapExtractMax] returns 9, the new size is 7, the new root is 6; the
    old last element stays behind in slot 7. *)
Example extract_scenario :
  heapExtractMax example_heap
  = Ret 9 (mkHeap (pad [6; 5; 4; 1; 1; 3; 2; 1]) 7 2).
Proof. vm_compute. reflexivity. Qed.

(** [insert 10] then makes 10 the root. *)
Example insert_scenario :
  insert 10 (mkHeap (pad [6; 5; 4; 1; 1; 3; 2; 1]) 7 2)
  = Ret tt (mkHeap (pad [10; 6; 4; 5; 1; 3; 2; 1]) 8 2).
Proof. vm_compute. reflexivity. Qed.

(** [increaseKey] of an element 1 to 20 bubbles 20 up to the root;
    [increaseKey] to 0 of an element 5 fails with InvalidKey. *)
Example increaseKey_scenario :
  increaseKey 3 20 example_heap
  = Ret tt (mkHeap (pad [20; 9; 4; 6; 5; 3; 2; 1]) 8 2) /\
  increaseKey 4 0 example_heap = Exit InvalidKey example_heap.
Proof. split; vm_compute; reflexivity. Qed.

(** [delete] at the index of the second-largest value removes that value
    from the extraction sequence. *)
Example delete_scenario :
  (delete 1 ;; extract_all 7) example_heap
  = Ret [9; 5; 4; 3; 2; 1; 1] (mkHeap (pad [1; 1; 1; 1; 1; 3; 2; 1]) 0 2).
Proof. vm_compute. reflexivity. Qed.

(* ================================================================== *)
(** * The claims *)

(** ** C1: [buildMaxHeap] *)

(** C1.  The claim: for every array of [size] elements and every [d >= 1],
    [buildMaxHeap] produces a state with the max-heap property.  The code
    starts its loop at index [size/d - 1], which for [d >= 3] can lie below
    the last node that has a child, [(size-2)/d].  On the five elements
    5 1 2 3 9 with [d = 3] the loop visits index 0 only; index 1 keeps its
    greater child at index 4, and the state that [buildMaxHeap] returns is
    the input itself, which is not a max-heap. *)
Theorem buildMaxHeap_skips_internal_node :
  heap_ok build_input /\
  buildMaxHeap build_input = Ret tt build_input /\
  elem (array build_input) 1 < elem (array build_input) (d build_input * 1 + 1) /\
  ~ max_heap build_input.
Proof.
  split; [apply build_input_ok|]. split; [vm_compute; reflexivity|].
  split; [vm_compute; reflexivity|].
  intros H. specialize (H 1 1). cbn [build_input size d] in H.
  specialize (H ltac:(lia) ltac:(lia) ltac:(lia)).
  vm_compute in H. apply H. reflexivity.
Qed.

(** The loop of [buildMaxHeap] does reach every node that has a child when
    [size mod d <= 1] (lemma [buildMaxHeap_spec]), in particular for
    [d = 1] and [d = 2]; then the result is a max-heap over the same
    elements. *)
Lemma buildMaxHeap_binary h :
  heap_ok h -> d h <= 2 ->
  exists h',
    buildMaxHeap h = Ret tt h' /\ size h' = size h /\ d h' = d h /\
    valid h' ≡ₚ valid h /\ max_heap h'.
Proof.
  intros Hok Hd. destruct (buildMaxHeap_spec h Hok) as (a' & R & _ & Hperm & Hh).
  eexists. split; [exact R|]. split; [reflexivity|]. split; [reflexivity|].
  split; [assumption|]. apply Hh.
  destruct Hok as (_ & _ & _ & Hd1).
  pose proof (Z.mod_pos_bound (size h) (d h) ltac:(lia)). lia.
Qed.

(** ** C2: the operations preserve the max-heap property *)

(** C2.  The claim: for every heap state satisfying the max-heap property
    with [d >= 1], each operation leaves a state that satisfies it, among
    them [heapExtractMax] (when [size >= 1]) and [delete] (when
    [0 <= index < size]).  On the max-heap of one element with
    [d = INT_MAX], and on the max-heap 9 8 1 with [d = 2^30], both calls
    overflow [int] in the sift-down: they return no state in which the
    property could hold. *)
Theorem max_heap_lost_for_huge_degree :
  (heap_ok heap_d_max /\ max_heap heap_d_max /\ 1 <= d heap_d_max /\
   1 <= size heap_d_max /\ heapExtractMax heap_d_max = Fault /\
   0 <= 0 < size heap_d_max /\ delete 0 heap_d_max = Fault) /\
  (heap_ok heap_d_big /\ max_heap heap_d_big /\ 1 <= d heap_d_big /\
   1 <= size heap_d_big /\ heapExtractMax heap_d_big = Fault /\
   0 <= 0 < size heap_d_big /\ delete 0 heap_d_big = Fault).
Proof.
  split.
  - split; [apply heap_d_max_ok|]. split; [apply heap_d_max_max_heap|].
    split; [cbn; unfold INT_MAX; lia|]. split; [cbn; lia|].
    split; [apply heap_d_max_fault|]. split; [cbn; lia|].
    apply heap_d_max_delete_fault.
  - split; [apply heap_d_big_ok|]. split; [apply heap_d_big_max_heap|].
    split; [cbn; lia|]. split; [cbn; lia|].
    split; [apply heap_d_big_fault|]. split; [cbn; lia|].
    apply heap_d_big_delete_fault.
Qed.

(** X28.  The operations that return keep the max-heap property.  For
    every heap state satisfying the max-heap property with [d >= 1], [insert] (when
    [size < capacity]) and [increaseKey] (when [0 <= i < size] and
    [key >= elements[i]]) return a state in which every valid index
    dominates its children below [size]; when [d < INT_MAX] and
    [d * (size - 1) <= INT_MAX], so do [heapExtractMax] (when
    [size >= 1]) and [delete] (when [0 <= index < size]). *)
Theorem operations_preserve_max_heap h :
  heap_ok h -> max_heap h ->
  (forall key, INT_MIN <= key <= INT_MAX -> size h < MAX_CAPACITY ->
     exists h', insert key h = Ret tt h' /\ d h' = d h /\ max_heap h') /\
  (forall i key, 0 <= i < size h -> elem (array h) i <= key <= INT_MAX ->
     exists h', increaseKey i key h = Ret tt h' /\ d h' = d h /\ max_heap h') /\
  (index_safe h ->
     (1 <= size h ->
      exists m h', heapExtractMax h = Ret m h' /\ d h' = d h /\ max_heap h') /\
     (forall index, 0 <= index < size h ->
        exists h', delete index h = Ret tt h' /\ d h' = d h /\ max_heap h')).
Proof.
  intros Hok Hh. split; [|split].
  - intros key Hkey Hsz.
    destruct (insert_spec key h Hok Hkey Hsz) as (a' & R & _ & _ & H').
    eexists. split; [exact R|]. split; [reflexivity|auto].
  - intros i key Hi Hkey.
    destruct (increaseKey_spec i key h Hok Hi Hkey) as (a' & R & _ & _ & H').
    eexists. split; [exact R|]. split; [reflexivity|auto].
  - intros Hsafe. split.
    + intros Hsz.
      destruct (heapExtractMax_spec h Hok Hsz Hsafe) as (a' & R & _ & _ & H').
      eexists _, _. split; [exact R|]. split; [reflexivity|auto].
    + intros index Hi.
      destruct (delete_spec index h Hok Hi Hsafe) as (a' & R & _ & H').
      eexists. split; [exact R|]. split; [reflexivity|]. now apply H'.
Qed.

Lemma operations_preserve_max_heap_witness :
  (exists h', insert 10 example_heap = Ret tt h' /\
              d h' = d example_heap /\ max_heap h') /\
  (exists m h', heapExtractMax example_heap = Ret m h' /\
                d h' = d example_heap /\ max_heap h') /\
  (exists h', delete 3 example_heap = Ret tt h' /\
              d h' = d example_heap /\ max_heap h').
Proof.
  destruct (operations_preserve_max_heap example_heap
              example_heap_ok example_heap_max_heap)
    as (Hins & _ & Hrest).
  destruct (Hrest example_heap_safe) as [Hext Hdel].
  split; [|split].
  - apply Hins; [unfold INT_MIN, INT_MAX; lia|cbn; unfold MAX_CAPACITY; lia].
  - apply Hext. cbn. lia.
  - apply Hdel. cbn. lia.
Defined.

(** ** C3: [heapExtractMax] *)

(** C3.  The claim: on a non-empty heap satisfying the max-heap property,
    [heapExtractMax] returns the maximum of the valid elements, decrements
    [size] and restores the heap property.  On the max-heap of one element
    with [d = INT_MAX], and on the max-heap 9 8 1 with [d = 2^30], the
    sift-down overflows [int]: the call neither fails with Underflow nor
    returns. *)
Theorem heapExtractMax_fails_for_huge_degree :
  (heap_ok heap_d_max /\ max_heap heap_d_max /\ size heap_d_max <> 0 /\
   heapExtractMax heap_d_max = Fault) /\
  (heap_ok heap_d_big /\ max_heap heap_d_big /\ size heap_d_big <> 0 /\
   heapExtractMax heap_d_big = Fault).
Proof.
  split.
  - split; [apply heap_d_max_ok|]. split; [apply heap_d_max_max_heap|].
    split; [cbn; lia|apply heap_d_max_fault].
  - split; [apply heap_d_big_ok|]. split; [apply heap_d_big_max_heap|].
    split; [cbn; lia|apply heap_d_big_fault].
Qed.

(** Where no index computation overflows, the claim holds:
    [heapExtractMax] fails with Underflow exactly when [size == 0];
    otherwise, on a heap satisfying the max-heap property with
    [d < INT_MAX] and [d * (size - 1) <= INT_MAX], it returns the maximum
    of all valid elements (the value at index 0), moves [elements[size-1]]
    into slot 0, decrements [size] by one, and restores the heap property
    by [dmaxHeapify] at the root. *)
Theorem heapExtractMax_correct h :
  heap_ok h ->
  ((exists h', heapExtractMax h = Exit Underflow h') <-> size h = 0) /\
  (size h = 0 -> heapExtractMax h = Exit Underflow h) /\
  (size h <> 0 -> index_safe h -> max_heap h ->
   exists h',
     heapExtractMax h = Ret (elem (array h) 0) h' /\
     elem (array h) 0 ∈ valid h /\
     (forall x, x ∈ valid h -> x <= elem (array h) 0) /\
     dmaxHeapify ROOT
       (mkHeap (<[0%nat := elem (array h) (size h - 1)]> (array h))
               (size h - 1) (d h)) = Ret tt h' /\
     size h' = size h - 1 /\ d h' = d h /\
     max_heap h').
Proof.
  intros Hok. pose proof Hok as (Hlen & Hall & Hsz0 & Hd).
  split; [|split].
  - split.
    + intros [h' E]. destruct (Z.eq_dec (size h) 0) as [|Hne]; [assumption|].
      exfalso. apply (heapExtractMax_no_exit h Underflow h' Hok); [lia|assumption].
    + intros Hs. exists h. apply heapExtractMax_empty. lia.
  - intros Hs. apply heapExtractMax_empty. lia.
  - intros Hne Hsafe Hh.
    destruct (heapExtractMax_spec h Hok ltac:(lia) Hsafe)
      as (a' & R & _ & Hperm & H').
    exists (mkHeap a' (size h - 1) (d h)).
    split; [exact R|]. split; [|split; [|split; [|split; [|split]]]].
    + apply elem_of_valid; [lia|]. exists 0. split; [lia|reflexivity].
    + intros x Hx. now apply valid_le_root.
    + rewrite heapExtractMax_unfold in R by (assumption || lia).
      apply bind_inv_Ret in R as ([] & h1 & R & E).
      unfold ret in E. injection E as <-. assumption.
    + reflexivity.
    + reflexivity.
    + auto.
Qed.

Lemma heapExtractMax_correct_witness :
  exists h',
    heapExtractMax example_heap = Ret 9 h' /\
    size h' = 7 /\ max_heap h'.
Proof.
  destruct (heapExtractMax_correct example_heap example_heap_ok)
    as (_ & _ & H).
  destruct (H ltac:(cbn; lia) example_heap_safe example_heap_max_heap)
    as (h' & R & _ & _ & _ & Hs & _ & Hh).
  exists h'. split; [exact R|]. split; [exact Hs|exact Hh].
Defined.

(** ** C4: extracting every element *)

(** C4.  The claim: for every heap of [n] elements satisfying the max-heap
    property with [d >= 1], [n] calls of [heapExtractMax] yield the
    elements in non-increasing order.  On the max-heap of one element with
    [d = INT_MAX], and on the max-heap 9 8 1 with [d = 2^30], the first
    call overflows [int] in the sift-down and nothing is returned. *)
Theorem extract_all_fails_for_huge_degree :
  (heap_ok heap_d_max /\ max_heap heap_d_max /\ 1 <= d heap_d_max /\
   size heap_d_max = 1 /\ extract_all 1 heap_d_max = Fault) /\
  (heap_ok heap_d_big /\ max_heap heap_d_big /\ 1 <= d heap_d_big /\
   size heap_d_big = 3 /\ extract_all 3 heap_d_big = Fault).
Proof.
  split.
  - split; [apply heap_d_max_ok|]. split; [apply heap_d_max_max_heap|].
    split; [cbn; unfold INT_MAX; lia|]. split; [reflexivity|].
    rewrite extract_all_S. apply bind_Fault, heap_d_max_fault.
  - split; [apply heap_d_big_ok|]. split; [apply heap_d_big_max_heap|].
    split; [cbn; lia|]. split; [reflexivity|].
    rewrite extract_all_S. apply bind_Fault, heap_d_big_fault.
Qed.

(** Where no index computation overflows, the claim holds: for every heap
    of [n] elements satisfying the max-heap property with [d >= 1],
    [d < INT_MAX] and [d * (n - 1) <= INT_MAX], calling [heapExtractMax]
    [n] times empties the heap and yields a permutation of the [n] original
    elements in non-increasing order. *)
Theorem extract_all_sorted h :
  heap_ok h -> max_heap h -> index_safe h ->
  exists l h',
    extract_all (Z.to_nat (size h)) h = Ret l h' /\
    size h' = 0 /\
    l ≡ₚ valid h /\
    Sorted Z.ge l.
Proof.
  intros Hok Hh Hsafe. pose proof Hok as (Hlen & Hall & Hsz0 & Hd).
  destruct (extract_all_spec (Z.to_nat (size h)) h Hok Hh Hsafe ltac:(lia))
    as (l & a' & R & _ & _ & Hperm & _ & Hsorted).
  exists l, (mkHeap a' (size h - Z.of_nat (Z.to_nat (size h))) (d h)).
  split; [exact R|]. split; [cbn [size]; lia|]. split; [|assumption].
  rewrite <- Hperm, valid_empty by (cbn [size]; lia).
  now rewrite app_nil_r.
Qed.

Lemma extract_all_sorted_witness :
  exists l h',
    extract_all 8 example_heap = Ret l h' /\ size h' = 0 /\
    l ≡ₚ [9; 6; 4; 1; 5; 3; 2; 1] /\ Sorted Z.ge l.
Proof.
  exact (extract_all_sorted example_heap
           example_heap_ok example_heap_max_heap example_heap_safe).
Defined.

(** ** C5: inserting, then extracting everything *)

(** C5.  The claim: for every degree [d >= 1], inserting keys into an empty
    heap and extracting until the heap is empty yields the keys in
    descending order.  From the empty heap with [d = INT_MAX], after
    [insert 5] the first [heapExtractMax] overflows [int] at [++j] of the
    [for] loop of [dmaxHeapify]: nothing is returned, whatever the number
    of calls allowed. *)
Theorem insert_then_drain_fails_for_huge_degree :
  heap_ok empty_d_max /\ size empty_d_max = 0 /\ 1 <= d empty_d_max /\
  forall fuel, (insert_all [5] ;; drain (S fuel)) empty_d_max = Fault.
Proof.
  split; [apply empty_d_max_ok|]. split; [reflexivity|].
  split; [cbn; unfold INT_MAX; lia|].
  intros fuel.
  destruct (insert_all_spec [5] empty_d_max empty_d_max_ok
              ltac:(apply max_heap_empty; cbn; lia)
              ltac:(repeat constructor; unfold INT_MIN, INT_MAX; lia)
              ltac:(cbn; unfold MAX_CAPACITY; lia))
    as (a1 & R1 & Hok1 & _).
  rewrite (bind_Ret _ _ _ _ _ R1). rewrite drain_S.
  replace (size _ >? 0) with true by reflexivity.
  apply bind_Fault.
  apply (heapExtractMax_d_max _ Hok1); [cbn; lia|reflexivity].
Qed.

(** Where no index computation overflows, the claim holds: for every degree
    [d >= 1] and every sequence of keys of length at most the capacity with
    [d < INT_MAX] and [d * (length - 1) <= INT_MAX], starting from an empty
    heap, inserting the keys one by one and then calling [heapExtractMax]
    until the heap is empty yields a permutation of the keys in
    non-increasing order. *)
Theorem insert_then_drain_sorted h keys fuel :
  heap_ok h -> size h = 0 ->
  Forall (fun z => INT_MIN <= z <= INT_MAX) keys ->
  Z.of_nat (length keys) <= MAX_CAPACITY ->
  d h < INT_MAX -> d h * (Z.of_nat (length keys) - 1) <= INT_MAX ->
  (length keys < fuel)%nat ->
  exists l h',
    (insert_all keys ;; drain fuel) h = Ret l h' /\
    size h' = 0 /\
    l ≡ₚ keys /\
    Sorted Z.ge l.
Proof.
  intros Hok Hs Hkeys Hcap Hsafe1 Hsafe2 F.
  destruct (insert_all_spec keys h Hok ltac:(apply max_heap_empty; lia) Hkeys
              ltac:(lia)) as (a1 & R1 & Hok1 & Hh1 & Hperm1).
  destruct (drain_spec fuel _ Hok1 Hh1) as (l & a2 & R2 & _ & Hperm2 & Hsorted).
  { unfold index_safe. cbn [size d]. rewrite Hs. split; [assumption|].
    now replace (0 + Z.of_nat (length keys) - 1)
      with (Z.of_nat (length keys) - 1) by lia. }
  { cbn [size]. lia. }
  exists l, (mkHeap a2 0 (d h)).
  rewrite (bind_Ret _ _ _ _ _ R1). cbn [d] in R2.
  split; [exact R2|]. split; [reflexivity|]. split; [|assumption].
  rewrite Hperm2, Hperm1, valid_empty by lia. now rewrite app_nil_r.
Qed.

Lemma insert_then_drain_sorted_witness :
  exists l h',
    (insert_all [3; 1; 4; 1; 5] ;; drain 6) empty_heap = Ret l h' /\
    size h' = 0 /\ l ≡ₚ [3; 1; 4; 1; 5] /\ Sorted Z.ge l.
Proof.
  apply (insert_then_drain_sorted empty_heap [3; 1; 4; 1; 5] 6 empty_heap_ok).
  - reflexivity.
  - repeat constructor; unfold INT_MIN, INT_MAX; lia.
  - cbn. unfold MAX_CAPACITY. lia.
  - cbn. unfold INT_MAX. lia.
  - cbn. unfold INT_MAX. lia.
  - cbn. lia.
Defined.

(** ** C6: size bookkeeping and rejected operations *)

(** C6.  The claim: [heapExtractMax] decreases [size] by exactly 1, or
    fails with Underflow (when [size == 0]) leaving the state unchanged;
    [delete] decreases [size] by exactly 1, or fails with
    IndexOutOfBounds (when [index >= size]) leaving the state unchanged.
    On the heap of one element with [d = INT_MAX], and on the heap 9 8 1
    with [d = 2^30], [heapExtractMax] and [delete 0] overflow [int] in
    the sift-down: they neither return with [size] decreased by 1 nor fail
    with Underflow or IndexOutOfBounds. *)
Theorem size_bookkeeping_fails_for_huge_degree :
  (heap_ok heap_d_max /\ size heap_d_max <> 0 /\
   0 <= 0 < size heap_d_max /\
   heapExtractMax heap_d_max = Fault /\
   (forall m h', heapExtractMax heap_d_max <> Ret m h') /\
   (forall e h', heapExtractMax heap_d_max <> Exit e h') /\
   delete 0 heap_d_max = Fault /\
   (forall h', delete 0 heap_d_max <> Ret tt h') /\
   (forall e h', delete 0 heap_d_max <> Exit e h')) /\
  (heap_ok heap_d_big /\ size heap_d_big <> 0 /\
   0 <= 0 < size heap_d_big /\
   heapExtractMax heap_d_big = Fault /\
   delete 0 heap_d_big = Fault).
Proof.
  split.
  - split; [apply heap_d_max_ok|]. split; [cbn; lia|]. split; [cbn; lia|].
    rewrite heap_d_max_fault, heap_d_max_delete_fault.
    split; [reflexivity|]. split; [discriminate|]. split; [discriminate|].
    split; [reflexivity|]. split; discriminate.
  - split; [apply heap_d_big_ok|]. split; [cbn; lia|]. split; [cbn; lia|].
    split; [apply heap_d_big_fault|apply heap_d_big_delete_fault].
Qed.

(** X29.  Size bookkeeping where no index computation overflows.  [insert]
    increases [size] by exactly 1, or fails with Overflow (when
    [size == capacity]) leaving the whole heap state unchanged.  In every
    state, [heapExtractMax] fails with Underflow when [size == 0] and
    [delete] fails with IndexOutOfBounds when [index >= size], both
    leaving the state unchanged.  When [d < INT_MAX] and
    [d * (size - 1) <= INT_MAX], [heapExtractMax] on a heap that is not
    empty and [delete] with [0 <= index < size] decrease [size] by
    exactly 1. *)
Theorem size_bookkeeping h :
  heap_ok h ->
  (forall key, INT_MIN <= key <= INT_MAX ->
     (size h = MAX_CAPACITY /\ insert key h = Exit Overflow h) \/
     (size h < MAX_CAPACITY /\
      exists h', insert key h = Ret tt h' /\ size h' = size h + 1)) /\
  (size h = 0 -> heapExtractMax h = Exit Underflow h) /\
  (forall index, size h <= index ->
     delete index h = Exit IndexOutOfBounds h) /\
  (index_safe h ->
     (1 <= size h ->
      exists m h', heapExtractMax h = Ret m h' /\ size h' = size h - 1) /\
     (forall index, 0 <= index < size h ->
        exists h', delete index h = Ret tt h' /\ size h' = size h - 1)).
Proof.
  intros Hok. pose proof Hok as (Hlen & Hall & Hsz0 & Hd).
  split; [|split; [|split]].
  - intros key Hkey. destruct (Z.eq_dec (size h) MAX_CAPACITY) as [E|N].
    + left. split; [assumption|]. now apply insert_full.
    + right. split; [lia|].
      destruct (insert_spec key h Hok Hkey ltac:(lia)) as (a' & R & _).
      eexists. split; [exact R|reflexivity].
  - intros E. apply heapExtractMax_empty. lia.
  - intros index E. now apply delete_out_of_bounds.
  - intros Hsafe. split.
    + intros Hs.
      destruct (heapExtractMax_spec h Hok Hs Hsafe) as (a' & R & _).
      eexists _, _. split; [exact R|reflexivity].
    + intros index Hi.
      destruct (delete_spec index h Hok Hi Hsafe) as (a' & R & _).
      eexists. split; [exact R|reflexivity].
Qed.

Lemma size_bookkeeping_witness :
  delete 8 example_heap = Exit IndexOutOfBounds example_heap /\
  (exists m h', heapExtractMax example_heap = Ret m h' /\
                size h' = size example_heap - 1) /\
  (exists h', delete 3 example_heap = Ret tt h' /\
              size h' = size example_heap - 1).
Proof.
  destruct (size_bookkeeping example_heap example_heap_ok)
    as (_ & _ & Hout & Hrest).
  destruct (Hrest example_heap_safe) as [Hext Hdel].
  split; [apply Hout; cbn; lia|]. split.
  - apply Hext. cbn. lia.
  - apply Hdel. cbn. lia.
Defined.

(** ** C7: [delete] *)

(** C7.  The claim: for every heap satisfying the max-heap property with
    [d >= 1] and every index with [0 <= index < size], [delete index]
    removes the element at [index], restores the heap property and
    decrements [size].  On the max-heap of one element with [d = INT_MAX],
    and on the max-heap 9 8 1 with [d = 2^30], [increaseKey] returns and
    the sift-down of [heapExtractMax] then overflows [int]: [delete 0]
    does not return. *)
Theorem delete_fails_for_huge_degree :
  (heap_ok heap_d_max /\ max_heap heap_d_max /\ 1 <= d heap_d_max /\
   0 <= 0 < size heap_d_max /\ delete 0 heap_d_max = Fault) /\
  (heap_ok heap_d_big /\ max_heap heap_d_big /\ 1 <= d heap_d_big /\
   0 <= 0 < size heap_d_big /\ delete 0 heap_d_big = Fault).
Proof.
  split.
  - split; [apply heap_d_max_ok|]. split; [apply heap_d_max_max_heap|].
    split; [cbn; unfold INT_MAX; lia|]. split; [cbn; lia|].
    apply delete_d_max; [apply heap_d_max_ok|cbn; lia|reflexivity].
  - split; [apply heap_d_big_ok|]. split; [apply heap_d_big_max_heap|].
    split; [cbn; lia|]. split; [cbn; lia|].
    unfold delete. rewrite get_size_bind.
    replace (0 >=? size heap_d_big) with false by reflexivity.
    assert (R : increaseKey 0 INT_MAX heap_d_big =
                Ret tt (mkHeap (pad [INT_MAX; 8; 1]) 3 1073741824))
      by (vm_compute; reflexivity).
    rewrite (bind_Ret _ _ _ _ _ R). apply bind_Fault.
    apply heapExtractMax_child_overflow.
    + apply heap_okb_true. vm_compute. reflexivity.
    + reflexivity.
    + cbn. unfold INT_MAX. lia.
    + cbn. unfold INT_MAX. lia.
    + vm_compute. reflexivity.
Qed.

(** Where no index computation overflows, the claim holds: for every heap
    satisfying the max-heap property with [d >= 1], [d < INT_MAX] and
    [d * (size - 1) <= INT_MAX], and every index with [0 <= index < size],
    [delete index] -- [increaseKey index INT_MAX] followed by
    [heapExtractMax] -- removes one occurrence of [elements[index]] from
    the valid elements (also when [INT_MAX] is itself a key), restores the
    heap property and decrements [size] by one; it fails with
    IndexOutOfBounds when [index >= size]. *)
Theorem delete_correct h index :
  heap_ok h -> max_heap h -> index_safe h ->
  (0 <= index < size h ->
   exists h',
     delete index h = Ret tt h' /\
     delete index h = (increaseKey index INT_MAX ;; _ <- heapExtractMax ;; ret tt) h /\
     elem (array h) index :: valid h' ≡ₚ valid h /\
     max_heap h' /\
     size h' = size h - 1 /\ d h' = d h) /\
  (size h <= index -> delete index h = Exit IndexOutOfBounds h).
Proof.
  intros Hok Hh Hsafe. split.
  - intros Hi.
    destruct (delete_spec index h Hok Hi Hsafe) as (a' & R & _ & H').
    destruct (H' Hh) as [Hperm Hh'].
    eexists. split; [exact R|]. split; [|split; [exact Hperm|]].
    + unfold delete. rewrite get_size_bind.
      destruct (Z.geb_spec index (size h)); [lia|reflexivity].
    + split; [assumption|]. split; reflexivity.
  - apply delete_out_of_bounds.
Qed.

Lemma delete_correct_witness :
  exists h',
    delete 1 example_heap = Ret tt h' /\
    6 :: valid h' ≡ₚ [9; 6; 4; 1; 5; 3; 2; 1] /\
    max_heap h' /\ size h' = 7.
Proof.
  destruct (delete_correct example_heap 1
              example_heap_ok example_heap_max_heap example_heap_safe)
    as [H _].
  destruct (H ltac:(cbn; lia)) as (h' & R & _ & Hp & Hh & Hs & _).
  exists h'. split; [exact R|]. split; [exact Hp|]. split; [exact Hh|exact Hs].
Defined.

(** ** C8: [increaseKey] with a smaller or an equal key *)

(** C8.  For every heap satisfying the max-heap property with [d >= 1] and
    every index with [0 <= i < size], [increaseKey i key] fails with
    InvalidKey exactly when [key < elements[i]] (and then leaves the state
    as it is); when [key == elements[i]] it is accepted and leaves the
    entire heap state (elements, size, d) unchanged. *)
Theorem increaseKey_rejects_smaller_key h i key :
  heap_ok h -> max_heap h -> 0 <= i < size h ->
  INT_MIN <= key <= INT_MAX ->
  ((exists h', increaseKey i key h = Exit InvalidKey h') <->
   key < elem (array h) i) /\
  (key < elem (array h) i -> increaseKey i key h = Exit InvalidKey h) /\
  (key = elem (array h) i -> increaseKey i key h = Ret tt h).
Proof.
  intros Hok Hh Hi Hkey. pose proof Hok as (Hlen & Hall & Hsz0 & Hd).
  assert (Hinv : key < elem (array h) i -> increaseKey i key h = Exit InvalidKey h)
    by (intros Hlt; apply increaseKey_invalid; [lia|assumption]).
  split; [|split].
  - split.
    + intros [h' E].
      destruct (Z_lt_le_dec key (elem (array h) i)) as [|Hge]; [assumption|].
      destruct (increaseKey_spec i key h Hok Hi ltac:(lia)) as (a' & R & _).
      rewrite R in E. discriminate.
    + intros Hlt. exists h. now apply Hinv.
  - exact Hinv.
  - intros ->. now apply increaseKey_same.
Qed.

Lemma increaseKey_rejects_smaller_key_witness :
  increaseKey 4 0 example_heap = Exit InvalidKey example_heap /\
  increaseKey 4 5 example_heap = Ret tt example_heap.
Proof.
  split.
  - apply (increaseKey_rejects_smaller_key example_heap 4 0
             example_heap_ok example_heap_max_heap);
      [cbn; lia|unfold INT_MIN, INT_MAX; lia|vm_compute; reflexivity].
  - apply (increaseKey_rejects_smaller_key example_heap 4 5
             example_heap_ok example_heap_max_heap);
      [cbn; lia|unfold INT_MIN, INT_MAX; lia|vm_compute; reflexivity].
Defined.

(** ** C9: the child chosen by [dmaxHeapify] *)

(** C9.  The claim: in every iteration of [dmaxHeapify] at position [i]
    where some child [c = d*i + k] with [c < size] is strictly greater
    than [elements[i]], the child swapped into position [i] is the
    leftmost child attaining the maximum child value.  On the heap 1 9
    with [d = INT_MAX] the child at index 1 is greater than the root, and
    the scan of the children overflows [int] at [++j]: no child is chosen
    and nothing is swapped. *)
Theorem heapify_choice_fails_for_huge_degree :
  heap_ok heap_d_max_pair /\
  0 <= 0 < size heap_d_max_pair /\
  1 <= 1 <= d heap_d_max_pair /\
  d heap_d_max_pair * 0 + 1 < size heap_d_max_pair /\
  elem (array heap_d_max_pair) 0 <
  elem (array heap_d_max_pair) (d heap_d_max_pair * 0 + 1) /\
  find_largest 0 heap_d_max_pair = Fault /\
  (forall fuel, heapify_loop (S fuel) 0 heap_d_max_pair = Fault) /\
  dmaxHeapify 0 heap_d_max_pair = Fault.
Proof.
  assert (F : find_largest 0 heap_d_max_pair = Fault)
    by (now apply find_largest_d_max).
  split; [apply heap_d_max_pair_ok|]. split; [cbn; lia|].
  split; [cbn; unfold INT_MAX; lia|]. split; [cbn; lia|].
  split; [reflexivity|]. split; [exact F|]. split.
  - intros fuel. now rewrite heapify_loop_S, F.
  - now apply dmaxHeapify_d_max.
Qed.

(** X30.  The child chosen where the scan does not overflow.  When
    [d < INT_MAX], in every iteration of [dmaxHeapify] at position [i]
    where some child [c = d*i + k] with [c < size] is strictly greater
    than [elements[i]], the scan returns a child [l], the loop swaps
    slots [i] and [l] and goes on at [l], and [l] is the leftmost child
    attaining the maximum child value: it dominates every child below
    [size], and every child at a smaller index is strictly smaller. *)
Theorem heapify_swaps_leftmost_max_child h i :
  heap_ok h -> 0 <= i < size h -> d h < INT_MAX ->
  (exists k, 1 <= k <= d h /\ d h * i + k < size h /\
             elem (array h) i < elem (array h) (d h * i + k)) ->
  exists l,
    find_largest i h = Ret l h /\
    l <> i /\ leftmost_max_child h i l /\
    elem (array h) i < elem (array h) l /\
    (forall fuel,
       heapify_loop (S fuel) i h =
       heapify_loop fuel l (mkHeap (swap_list (array h) i l) (size h) (d h))) /\
    elem (swap_list (array h) i l) i = elem (array h) l /\
    elem (swap_list (array h) i l) l = elem (array h) i.
Proof.
  intros Hok Hi Hdm (k & Hk & Hc & Hgt).
  pose proof Hok as (Hlen & Hall & Hsz0 & Hd).
  assert (HM : Z.of_nat (length (array h)) = MAX_CAPACITY) by lia.
  destruct (find_largest_runs i h) as [l E]; try lia.
  { unfold MAX_CAPACITY, INT_MAX in *. nia. }
  exists l. split; [exact E|].
  destruct (find_largest_inv i h l h ltac:(lia) ltac:(lia) E)
    as [_ (P1 & P2 & P3 & P4)].
  specialize (P3 k ltac:(lia) Hc) as Hkl.
  destruct P1 as [->|(k0 & Hk0 & Hl & Hlt & Hgt0)]; [lia|].
  assert (Hil : i < l) by nia.
  split; [lia|]. split; [|split; [assumption|split; [|split]]].
  - exists k0. split; [lia|]. split; [assumption|]. split; [assumption|].
    split.
    + intros k' Hk' Hc'. apply P3; [lia|assumption].
    + intros k' Hk'. apply P4; [lia|nia].
  - intros fuel. rewrite heapify_loop_S, E.
    destruct (Z.eqb_spec l i) as [?|_]; [lia|]. cbn [negb].
    unfold bind. now rewrite swap_spec by lia.
  - rewrite elem_swap by lia.
    destruct (Z.eqb_spec i l) as [?|_]; [lia|]. now rewrite Z.eqb_refl.
  - rewrite elem_swap by lia. now rewrite Z.eqb_refl.
Qed.

Lemma heapify_swaps_leftmost_max_child_witness :
  exists l,
    find_largest 0 (mkHeap (pad [1; 7; 9; 9]) 4 3)
    = Ret l (mkHeap (pad [1; 7; 9; 9]) 4 3) /\
    leftmost_max_child (mkHeap (pad [1; 7; 9; 9]) 4 3) 0 l.
Proof.
  assert (Hok : heap_ok (mkHeap (pad [1; 7; 9; 9]) 4 3))
    by (apply heap_okb_true; vm_compute; reflexivity).
  destruct (heapify_swaps_leftmost_max_child (mkHeap (pad [1; 7; 9; 9]) 4 3) 0
              Hok ltac:(cbn; lia) ltac:(cbn; unfold INT_MAX; lia))
    as (l & E & _ & Hl & _).
  - exists 1. split; [cbn; lia|]. split; [cbn; lia|]. vm_compute. reflexivity.
  - exists l. split; [exact E|exact Hl].
Defined.

(** ** C10: termination *)

(** C10.  The claim: for every heap state with [d >= 1] and
    [size <= capacity], every operation terminates.  With [d = INT_MAX]
    the condition [j <= heap->d] of the [for] loop of [dmaxHeapify] holds
    for every [int], so that the loop cannot end before [++j] overflows;
    with [d = 2^30] the child index [d*i + j] overflows at [i = 1].  In
    these states [dmaxHeapify] and [heapExtractMax] do not terminate
    normally. *)
Theorem termination_fails_for_huge_degree :
  (heap_ok heap_d_max /\ 1 <= d heap_d_max /\ size heap_d_max <= MAX_CAPACITY /\
   find_largest 0 heap_d_max = Fault /\
   ~ terminates (dmaxHeapify 0 heap_d_max) /\
   ~ terminates (heapExtractMax heap_d_max)) /\
  (heap_ok heap_d_big /\ 1 <= d heap_d_big /\ size heap_d_big <= MAX_CAPACITY /\
   ~ terminates (heapExtractMax heap_d_big)).
Proof.
  split.
  - split; [apply heap_d_max_ok|]. split; [cbn; unfold INT_MAX; lia|].
    split; [cbn; unfold MAX_CAPACITY; lia|].
    split; [now apply find_largest_d_max|]. split.
    + rewrite dmaxHeapify_d_max by reflexivity. intros [].
    + rewrite heap_d_max_fault. intros [].
  - split; [apply heap_d_big_ok|]. split; [cbn; lia|].
    split; [cbn; unfold MAX_CAPACITY; lia|].
    rewrite heap_d_big_fault. intros [].
Qed.

(** The [while] loops are bounded for every [d >= 1]: every child index
    [d*i + k] with [k >= 1] exceeds [i], every iteration of the
    [dmaxHeapify] loop that goes on moves to a strictly larger index below
    [size], and [parent(i) = (i-1)/d < i] for every [i >= 1], so that the
    loops end within [size - i + 1] and [i + 1] iterations.  [insert],
    [increaseKey] and [buildMaxHeap] terminate; so do [dmaxHeapify],
    [heapExtractMax] and [delete] provided [d < INT_MAX] and no child
    index overflows ([d * size <= INT_MAX] for [dmaxHeapify] on the current
    state, [d * (size - 1) <= INT_MAX] for the other two, which sift down
    after removing an element). *)
Theorem operations_terminate h :
  heap_ok h ->
  (forall i k, 0 <= i -> 1 <= k -> i < d h * i + k) /\
  (forall i l h1, find_largest i h = Ret l h1 -> l <> i ->
     h1 = h /\ i < l < size h) /\
  (forall i, 1 <= i <= INT_MAX ->
     parent i (d h) = Some (par (d h) i) /\ 0 <= par (d h) i < i) /\
  (forall i fuel, (Z.to_nat (size h - Z.max i 0) < fuel)%nat ->
     heapify_loop fuel i h = dmaxHeapify i h /\ dmaxHeapify i h <> OutOfFuel) /\
  (forall i fuel, (Z.to_nat i < fuel)%nat ->
     sift_up fuel i h = sift_up (sift_fuel i) i h /\
     sift_up (sift_fuel i) i h <> OutOfFuel) /\
  (forall key, INT_MIN <= key <= INT_MAX -> terminates (insert key h)) /\
  (forall i key, 0 <= i < size h -> INT_MIN <= key <= INT_MAX ->
     terminates (increaseKey i key h)) /\
  terminates (buildMaxHeap h) /\
  (d h < INT_MAX -> d h * size h <= INT_MAX ->
     forall i, 0 <= i < size h -> terminates (dmaxHeapify i h)) /\
  (index_safe h ->
     terminates (heapExtractMax h) /\
     (forall index, 0 <= index -> terminates (delete index h))).
Proof.
  intros Hok. pose proof Hok as (Hlen & Hall & Hsz0 & Hd).
  split; [|split; [|split; [|split; [|split; [|split; [|split; [|split; [|split]]]]]]]].
  - intros i k Hi Hk. apply child_gt; lia.
  - intros i l h1 E Hne.
    destruct (heapify_continue i h l h1 E Hne) as (-> & _ & Hi & Hl).
    split; [reflexivity|lia].
  - intros i Hi. split; [apply parent_Some; lia|apply par_lt; lia].
  - intros i fuel F. unfold dmaxHeapify.
    destruct (heapify_loop_fuel fuel (heapify_fuel h) i h) as [E1 E2];
      try (unfold heapify_fuel; lia).
    split; [assumption|]. now rewrite <- E1.
  - intros i fuel F.
    destruct (sift_up_fuel fuel (sift_fuel i) i h) as [E1 E2];
      try (unfold sift_fuel; lia).
    split; [assumption|]. now rewrite <- E1.
  - intros key Hkey. destruct (Z.eq_dec (size h) MAX_CAPACITY) as [E|N].
    + now rewrite insert_full.
    + destruct (insert_spec key h Hok Hkey ltac:(lia)) as (a' & -> & _). exact I.
  - intros i key Hi Hkey.
    destruct (Z_lt_le_dec key (elem (array h) i)) as [Hlt|Hge].
    + rewrite increaseKey_invalid; [exact I|lia|assumption].
    + destruct (increaseKey_spec i key h Hok Hi ltac:(lia)) as (a' & -> & _).
      exact I.
  - destruct (buildMaxHeap_spec h Hok) as (a' & -> & _). exact I.
  - intros Hd1 Hd2 i Hi.
    destruct (dmaxHeapify_spec i h Hok) as (a' & -> & _);
      [assumption|nia|assumption|lia|exact I].
  - intros Hsafe. split.
    + destruct (Z.eq_dec (size h) 0) as [E|N].
      * rewrite heapExtractMax_empty by lia. exact I.
      * destruct (heapExtractMax_spec h Hok ltac:(lia) Hsafe) as (a' & -> & _).
        exact I.
    + intros index Hi. destruct (Z_le_gt_dec (size h) index) as [E|N].
      * rewrite delete_out_of_bounds by assumption. exact I.
      * destruct (delete_spec index h Hok ltac:(lia) Hsafe) as (a' & -> & _).
        exact I.
Qed.

Lemma operations_terminate_witness :
  terminates (heapExtractMax example_heap) /\
  terminates (buildMaxHeap example_heap).
Proof.
  pose proof (operations_terminate example_heap example_heap_ok)
    as (_ & _ & _ & _ & _ & _ & _ & Hb & _ & Hs).
  destruct (Hs example_heap_safe) as (He & _).
  split; [exact He|exact Hb].
Defined.

(* ================================================================== *)
(** * Further properties of the heap operations *)

(** ** Slots that the loops leave alone *)

Lemma heapify_loop_frame fuel : forall i h h',
  heapify_loop fuel i h = Ret tt h' ->
  forall c, 0 <= c -> c < i \/ size h <= c ->
    elem (array h') c = elem (array h) c.
Proof.
  induction fuel as [|fuel IH]; intros i h h' E c Hc Hout; [discriminate|].
  rewrite heapify_loop_S in E.
  destruct (find_largest i h) as [l h1| | |] eqn:F; try discriminate.
  destruct (Z.eqb_spec l i) as [Heq|Hne] in E; cbn [negb] in E.
  - injection E as <-.
    destruct (find_largest_result i h) as [F'|[l' F']]; congruence.
  - destruct (heapify_continue i h l h1 F Hne) as (-> & _ & Hil & Hl).
    apply bind_inv_Ret in E as (u & h2 & Es & E).
    apply swap_inv in Es as (-> & Hi' & Hl').
    rewrite (IH _ _ _ E c Hc) by (cbn [size]; lia).
    cbn [array]. rewrite elem_swap by lia.
    destruct (Z.eqb_spec c l) as [?|_]; [lia|].
    destruct (Z.eqb_spec c i) as [?|_]; [lia|reflexivity].
Qed.

Lemma sift_up_frame fuel : forall i h h',
  sift_up fuel i h = Ret tt h' ->
  forall c, i < c -> elem (array h') c = elem (array h) c.
Proof.
  induction fuel as [|fuel IH]; intros i h h' E c Hc; [discriminate|].
  rewrite sift_up_S in E. unfold ROOT in E.
  destruct (Z.gtb_spec i 0) as [Hi|Hi]; [|now injection E as <-].
  destruct (parent i (d h)) as [p|] eqn:Ep; [|discriminate].
  apply parent_lt in Ep; [|lia].
  apply bind_inv_Ret in E as (vp & h1 & L1 & E).
  apply load_inv in L1 as (-> & -> & Hp).
  apply bind_inv_Ret in E as (vi & h1 & L2 & E).
  apply load_inv in L2 as (-> & -> & Hi').
  destruct (_ <? _); [|now injection E as <-].
  apply bind_inv_Ret in E as (u & h2 & Es & E).
  apply swap_inv in Es as (-> & _ & _).
  rewrite (IH _ _ _ E c) by lia.
  cbn [array]. rewrite elem_swap by lia.
  destruct (Z.eqb_spec c p) as [?|_]; [lia|].
  destruct (Z.eqb_spec c i) as [?|_]; [lia|reflexivity].
Qed.

Lemma parent_of_child i k dg c :
  0 <= i -> 1 <= k <= dg ->
  child i k dg = Some c ->
  i < c /\ parent c dg = Some i.
Proof.
  intros Hi Hk E. apply child_inv in E as (-> & _ & Hc).
  assert (i < dg * i + k) by nia.
  split; [assumption|].
  rewrite parent_Some by lia.
  f_equal. apply (par_child dg); lia.
Qed.

Lemma child_of_parent c dg p :
  1 <= c <= INT_MAX -> 1 <= dg ->
  parent c dg = Some p ->
  0 <= p < c /\
  exists k, 1 <= k <= dg /\ child p k dg = Some c.
Proof.
  intros Hc Hd E. apply parent_inv in E; [|lia..]. subst p.
  pose proof (par_lt dg Hd c ltac:(lia)) as Hp.
  destruct (par_spec dg Hd c ltac:(lia)) as (_ & H1 & H2).
  split; [assumption|].
  exists (c - dg * par dg c). split; [lia|].
  rewrite child_Some; [f_equal; lia|lia..].
Qed.

(** X1.  [child] and [parent] are inverse to each other for every degree
    [d >= 1]: the parent of the [k]-th child of [i] ([1 <= k <= d], no
    overflow in [d*i + k]) is [i], and the child lies above [i]; every
    index [c >= 1] is the [k]-th child of [parent(c)] for some [k] in
    [1 .. d], and [parent(c)] lies in [0 .. c-1]. *)
Theorem child_parent_inverse dg :
  1 <= dg ->
  (forall i k c, 0 <= i -> 1 <= k <= dg ->
     child i k dg = Some c -> i < c /\ parent c dg = Some i) /\
  (forall c p, 1 <= c <= INT_MAX ->
     parent c dg = Some p ->
     0 <= p < c /\ exists k, 1 <= k <= dg /\ child p k dg = Some c).
Proof.
  intros Hd. split.
  - intros i k c. apply parent_of_child.
  - intros c p Hc. now apply child_of_parent.
Qed.

Lemma child_parent_inverse_witness :
  (child 2 3 3 = Some 9 -> 2 < 9 /\ parent 9 3 = Some 2) /\
  (parent 9 3 = Some 2 ->
   0 <= 2 < 9 /\ exists k, 1 <= k <= 3 /\ child 2 k 3 = Some 9).
Proof.
  destruct (child_parent_inverse 3 ltac:(lia)) as [H1 H2]. split.
  - apply H1; lia.
  - apply H2. unfold INT_MAX. lia.
Defined.

Lemma swap_list_twice (a : list Z) x y :
  0 <= x < Z.of_nat (length a) -> 0 <= y < Z.of_nat (length a) ->
  swap_list (swap_list a x y) x y = a.
Proof.
  intros Hx Hy. apply list_eq. intros n.
  destruct (decide (n < length a)%nat) as [Hn|Hn].
  - assert (E : forall b, length b = length a ->
                  b !! n = Some (elem b (Z.of_nat n))).
    { intros b Hb. rewrite <- (Nat2Z.id n) at 1. apply elem_lookup. lia. }
    rewrite !E by (rewrite ?length_swap; reflexivity).
    f_equal. rewrite elem_swap by (rewrite ?length_swap; lia).
    rewrite !elem_swap by lia.
    rewrite !Z.eqb_refl.
    destruct (Z.eqb_spec (Z.of_nat n) y) as [->|N1].
    + destruct (Z.eqb_spec x y) as [->|_]; reflexivity.
    + destruct (Z.eqb_spec (Z.of_nat n) x) as [->|N2]; [|reflexivity].
      destruct (Z.eqb_spec y x) as [->|_]; reflexivity.
  - rewrite !lookup_ge_None_2; [reflexivity|lia|rewrite !length_swap; lia].
Qed.

(** X2.  [swap] on two slots of the array exchanges their values, also
    when both are the same slot, leaves every other slot, [size] and [d]
    as they are, and a second [swap] of the same slots restores the
    state. *)
Theorem swap_exchanges_slots x y h :
  0 <= x < Z.of_nat (length (array h)) ->
  0 <= y < Z.of_nat (length (array h)) ->
  exists h',
    swap x y h = Ret tt h' /\
    size h' = size h /\ d h' = d h /\
    elem (array h') x = elem (array h) y /\
    elem (array h') y = elem (array h) x /\
    (forall c, 0 <= c -> c <> x -> c <> y ->
       elem (array h') c = elem (array h) c) /\
    swap x y h' = Ret tt h.
Proof.
  intros Hx Hy. eexists. split; [apply swap_spec; assumption|].
  cbn [array size d].
  split; [reflexivity|]. split; [reflexivity|].
  split; [|split; [|split]].
  - rewrite elem_swap by lia. rewrite Z.eqb_refl.
    destruct (Z.eqb_spec x y) as [->|_]; reflexivity.
  - rewrite elem_swap by lia. now rewrite Z.eqb_refl.
  - intros c Hc Nx Ny. rewrite elem_swap by lia.
    destruct (Z.eqb_spec c y) as [?|_]; [lia|].
    destruct (Z.eqb_spec c x) as [?|_]; [lia|reflexivity].
  - rewrite swap_spec by (cbn [array]; rewrite length_swap; assumption).
    cbn [array size d]. rewrite swap_list_twice by assumption.
    apply f_equal, heap_eta.
Qed.

Lemma swap_exchanges_slots_witness :
  exists h',
    swap 0 5 example_input = Ret tt h' /\
    elem (array h') 0 = 9 /\ elem (array h') 5 = 3 /\
    swap 0 5 h' = Ret tt example_input.
Proof.
  destruct (swap_exchanges_slots 0 5 example_input)
    as (h' & R & _ & _ & H0 & H5 & _ & Hback).
  - vm_compute. split; [discriminate|reflexivity].
  - vm_compute. split; [discriminate|reflexivity].
  - exists h'. split; [exact R|]. split; [exact H0|]. split; [exact H5|exact Hback].
Defined.

Lemma dmaxHeapify_noop h i :
  heap_ok h -> d h < INT_MAX ->
  0 <= i < MAX_CAPACITY -> d h * i + d h <= INT_MAX ->
  (forall k, 1 <= k <= d h -> d h * i + k < size h ->
     elem (array h) (d h * i + k) <= elem (array h) i) ->
  dmaxHeapify i h = Ret tt h.
Proof.
  intros Hok Hdm Hi Hov Hdom. pose proof Hok as (Hlen & Hall & Hsz & Hd).
  unfold dmaxHeapify, heapify_fuel. rewrite heapify_loop_S.
  destruct (find_largest_runs i h) as [l E]; [lia..|].
  rewrite E.
  destruct (find_largest_inv i h l h ltac:(lia) ltac:(lia) E)
    as [_ (P1 & _)].
  destruct P1 as [->|(k & Hk & -> & Hlt & Hgt)].
  - now rewrite Z.eqb_refl.
  - specialize (Hdom k ltac:(lia) Hlt). lia.
Qed.

(** X3.  At a node that is not smaller than any of its children below
    [size] -- a leaf, or any node of a max-heap -- [dmaxHeapify] changes
    nothing (when [d < INT_MAX] and the child indices [d*i + 1 .. d*i + d]
    do not overflow). *)
Theorem dmaxHeapify_keeps_dominating_node h i :
  heap_ok h -> d h < INT_MAX ->
  0 <= i < MAX_CAPACITY -> d h * i + d h <= INT_MAX ->
  (forall k, 1 <= k <= d h -> d h * i + k < size h ->
     elem (array h) (d h * i + k) <= elem (array h) i) ->
  dmaxHeapify i h = Ret tt h.
Proof.
  intros Hok Hdm Hi Hov Hdom. pose proof Hok as (Hlen & Hall & Hsz & Hd).
  unfold dmaxHeapify, heapify_fuel. rewrite heapify_loop_S.
  destruct (find_largest_runs i h) as [l E]; [lia..|].
  rewrite E.
  destruct (find_largest_inv i h l h ltac:(lia) ltac:(lia) E)
    as [_ (P1 & _)].
  destruct P1 as [->|(k & Hk & -> & Hlt & Hgt)].
  - now rewrite Z.eqb_refl.
  - specialize (Hdom k ltac:(lia) Hlt). lia.
Qed.

Lemma dmaxHeapify_keeps_dominating_node_witness :
  dmaxHeapify 1 example_heap = Ret tt example_heap.
Proof.
  apply (dmaxHeapify_keeps_dominating_node example_heap 1 example_heap_ok).
  - cbn. unfold INT_MAX. lia.
  - unfold MAX_CAPACITY. lia.
  - cbn. unfold INT_MAX. lia.
  - intros k Hk Hc.
    apply (example_heap_max_heap 1 k); [cbn; lia|exact Hk|exact Hc].
Defined.

(** X4.  [dmaxHeapify] at a valid index [i] returns when no index
    computation overflows.  Whenever it returns, [size] and [d] are
    unchanged, the valid elements are permuted, the slots below [i] and
    from [size] on are untouched, and if every node above [i] dominated
    its children before, every node from [i] on dominates its children
    afterwards. *)
Theorem dmaxHeapify_restores_order h i :
  heap_ok h -> 0 <= i < size h ->
  (d h < INT_MAX -> d h * size h <= INT_MAX ->
   exists h', dmaxHeapify i h = Ret tt h') /\
  (forall h', dmaxHeapify i h = Ret tt h' ->
     heap_ok h' /\ size h' = size h /\ d h' = d h /\
     valid h' ≡ₚ valid h /\
     (forall c, 0 <= c -> c < i \/ size h <= c ->
        elem (array h') c = elem (array h) c) /\
     ((forall c k, i < c -> 1 <= k <= d h -> d h * c + k < size h ->
         elem (array h) (d h * c + k) <= elem (array h) c) ->
      forall c k, i <= c -> 1 <= k <= d h -> d h * c + k < size h ->
         elem (array h') (d h * c + k) <= elem (array h') c)).
Proof.
  intros Hok Hi. pose proof Hok as (Hlen & Hall & Hsz & Hd). split.
  - intros Hd1 Hd2. unfold dmaxHeapify.
    apply heapify_loop_runs; try assumption; try nia.
    unfold heapify_fuel. lia.
  - intros h' E. unfold dmaxHeapify in E.
    pose proof (heapify_loop_frame _ _ _ _ E) as Hframe.
    destruct (heapify_loop_partial _ i h h' Hok (proj1 Hi) E)
      as (a' & -> & Hok' & Hperm & Hheap).
    split; [assumption|]. split; [reflexivity|]. split; [reflexivity|].
    split; [exact Hperm|]. split; [exact Hframe|].
    intros Hsub c k Hc Hk Hck. cbn [array].
    specialize (Hheap i). 
    assert (Hon : heap_on (d h) a' (size h) i).
    { apply Hheap. split.
      - intros c0 Hc0 Hlo Hne. unfold ok_at.
        pose proof (par_spec (d h) ltac:(lia) c0 ltac:(lia)) as (Hp0 & Hp1 & Hp2).
        replace c0 with (d h * par (d h) c0 + (c0 - d h * par (d h) c0)) at 1 by lia.
        apply Hsub; lia.
      - intros Hi1 Hlo. pose proof (par_lt (d h) ltac:(lia) i ltac:(lia)). lia. }
    specialize (Hon (d h * c + k) ltac:(nia)). unfold ok_at in Hon.
    rewrite par_child in Hon by lia. apply Hon. lia.
Qed.

Lemma dmaxHeapify_restores_order_witness :
  exists h',
    dmaxHeapify 0 (mkHeap (pad [1; 9; 8; 7; 6]) 5 2) = Ret tt h' /\
    valid h' ≡ₚ [1; 9; 8; 7; 6] /\
    (forall c k, 0 <= c -> 1 <= k <= 2 -> 2 * c + k < 5 ->
       elem (array h') (2 * c + k) <= elem (array h') c).
Proof.
  assert (Hok : heap_ok (mkHeap (pad [1; 9; 8; 7; 6]) 5 2))
    by (apply heap_okb_true; vm_compute; reflexivity).
  destruct (dmaxHeapify_restores_order (mkHeap (pad [1; 9; 8; 7; 6]) 5 2) 0 Hok)
    as [Hruns Hpost]; [cbn; lia|].
  destruct Hruns as [h' E]; [cbn; unfold INT_MAX; lia..|].
  exists h'. destruct (Hpost h' E) as (_ & _ & _ & Hperm & _ & Hord).
  split; [exact E|]. split; [exact Hperm|].
  apply Hord. cbn [array size d]. intros c k Hc Hk Hck.
  assert (c = 1) as -> by lia.
  assert (k = 1 \/ k = 2) as [-> | ->] by lia; vm_compute; discriminate.
Defined.

Lemma insert_unfold key h :
  heap_ok h -> size h < MAX_CAPACITY ->
  insert key h =
  sift_up (sift_fuel (size h)) (size h)
    (mkHeap (<[Z.to_nat (size h) := key]> (array h)) (size h + 1) (d h)).
Proof.
  intros (Hlen & Hall & Hsz0 & Hd) Hsz.
  unfold insert. rewrite get_size_bind.
  destruct (Z.eqb_spec (size h) MAX_CAPACITY) as [?|_]; [lia|].
  rewrite (bind_Ret _ _ _ _ _ (store_spec (size h) key h ltac:(lia))).
  rewrite int_op_Some by (unfold MAX_CAPACITY, INT_MIN, INT_MAX in *; lia).
  reflexivity.
Qed.

Lemma increaseKey_unfold i key h :
  0 <= i < Z.of_nat (length (array h)) -> elem (array h) i <= key ->
  increaseKey i key h =
  sift_up (sift_fuel i) i
    (mkHeap (<[Z.to_nat i := key]> (array h)) (size h) (d h)).
Proof.
  intros Hi Hkey. unfold increaseKey.
  rewrite (bind_Ret _ _ _ _ _ (load_spec i h Hi)).
  destruct (Z.ltb_spec key (elem (array h) i)); [lia|].
  now rewrite (bind_Ret _ _ _ _ _ (store_spec i key h Hi)).
Qed.

(** The root of a max-heap is the greatest valid element. *)
Lemma root_is_maximum h :
  heap_ok h -> max_heap h -> 1 <= size h ->
  elem (array h) 0 ∈ valid h /\ forall x, x ∈ valid h -> x <= elem (array h) 0.
Proof.
  intros Hok Hh Hs. pose proof Hok as (Hlen & _ & Hsz & _). split.
  - apply elem_of_valid; [lia|]. exists 0. split; [lia|reflexivity].
  - intros x Hx. now apply valid_le_root.
Qed.

(** X5.  [insert] on a heap that is not full adds exactly the key to the
    multiset of valid elements and leaves [d] and every slot above the
    old [size] as they are; on a non-empty max-heap the new root is the
    greater of the key and the old root. *)
Theorem insert_adds_key key h :
  heap_ok h -> INT_MIN <= key <= INT_MAX -> size h < MAX_CAPACITY ->
  exists h',
    insert key h = Ret tt h' /\
    heap_ok h' /\ d h' = d h /\
    valid h' ≡ₚ key :: valid h /\
    (forall c, size h < c -> elem (array h') c = elem (array h) c) /\
    (max_heap h -> 1 <= size h ->
     elem (array h') 0 = Z.max key (elem (array h) 0)).
Proof.
  intros Hok Hkey Hsz. pose proof Hok as (Hlen & Hall & Hsz0 & Hd).
  destruct (insert_spec key h Hok Hkey Hsz) as (a' & R & Hok' & Hperm & Hh').
  eexists. split; [exact R|]. split; [assumption|]. split; [reflexivity|].
  split; [assumption|]. split.
  - intros c Hc. rewrite insert_unfold in R by assumption.
    rewrite (sift_up_frame _ _ _ _ R c Hc). cbn [array].
    rewrite elem_insert by lia.
    destruct (Z.eqb_spec c (size h)) as [?|_]; [lia|reflexivity].
  - intros Hh Hs. specialize (Hh' Hh).
    destruct (root_is_maximum _ Hok' Hh' ltac:(cbn [size]; lia)) as [Hin Hmax].
    destruct (root_is_maximum _ Hok Hh Hs) as [Hin0 Hmax0].
    cbn [array] in *.
    assert (Hk : key <= elem a' 0)
      by (apply Hmax; rewrite Hperm; apply list_elem_of_here).
    assert (Hr : elem (array h) 0 <= elem a' 0)
      by (apply Hmax; rewrite Hperm; now apply list_elem_of_further).
    rewrite Hperm in Hin. apply elem_of_cons in Hin as [E|Hin].
    + lia.
    + specialize (Hmax0 _ Hin). lia.
Qed.

Lemma insert_adds_key_witness :
  exists h',
    insert 7 example_heap = Ret tt h' /\
    valid h' ≡ₚ 7 :: [9; 6; 4; 1; 5; 3; 2; 1] /\
    elem (array h') 0 = 9.
Proof.
  destruct (insert_adds_key 7 example_heap example_heap_ok)
    as (h' & R & _ & _ & Hperm & _ & Hroot).
  - unfold INT_MIN, INT_MAX. lia.
  - cbn. unfold MAX_CAPACITY. lia.
  - exists h'. split; [exact R|]. split; [exact Hperm|].
    apply (Hroot example_heap_max_heap). cbn. lia.
Defined.

(** X6.  [increaseKey] at a valid index with a key that is not smaller
    replaces one occurrence of the old value by the key in the multiset
    of valid elements and leaves [size], [d] and every slot above [i] as
    they are; on a max-heap the new root is the greater of the key and
    the old root. *)
Theorem increaseKey_replaces_key i key h :
  heap_ok h -> 0 <= i < size h -> elem (array h) i <= key <= INT_MAX ->
  exists h',
    increaseKey i key h = Ret tt h' /\
    heap_ok h' /\ size h' = size h /\ d h' = d h /\
    elem (array h) i :: valid h' ≡ₚ key :: valid h /\
    (forall c, i < c -> elem (array h') c = elem (array h) c) /\
    (max_heap h -> elem (array h') 0 = Z.max key (elem (array h) 0)).
Proof.
  intros Hok Hi Hkey. pose proof Hok as (Hlen & Hall & Hsz0 & Hd).
  destruct (increaseKey_spec i key h Hok Hi Hkey)
    as (a' & R & Hok' & Hperm & Hh').
  assert (Hp : elem (array h) i :: valid (mkHeap a' (size h) (d h))
               ≡ₚ key :: valid h).
  { rewrite Hperm. apply insert_perm. apply valid_lookup; lia. }
  eexists. split; [exact R|]. split; [assumption|].
  split; [reflexivity|]. split; [reflexivity|].
  split; [assumption|]. split.
  - intros c Hc. rewrite increaseKey_unfold in R by lia.
    rewrite (sift_up_frame _ _ _ _ R c Hc). cbn [array].
    rewrite elem_insert by lia.
    destruct (Z.eqb_spec c i) as [?|_]; [lia|reflexivity].
  - intros Hh. specialize (Hh' Hh).
    destruct (root_is_maximum _ Hok' Hh' ltac:(cbn [size]; lia)) as [Hin Hmax].
    destruct (root_is_maximum _ Hok Hh ltac:(lia)) as [Hin0 Hmax0].
    cbn [array] in *.
    assert (Hk : key <= elem a' 0).
    { apply Hmax. rewrite Hperm. apply list_elem_of_lookup.
      exists (Z.to_nat i). apply list_lookup_insert_eq.
      rewrite length_valid; lia. }
    assert (Hall' : forall x, x ∈ valid (mkHeap a' (size h) (d h)) ->
                      x <= Z.max key (elem (array h) 0)).
    { intros x Hx.
      assert (Hx' : x ∈ key :: valid h)
        by (rewrite <- Hp; now apply list_elem_of_further).
      apply elem_of_cons in Hx' as [->|Hx']; [lia|].
      specialize (Hmax0 _ Hx'). lia. }
    specialize (Hall' _ Hin).
    destruct (Z.eq_dec i 0) as [->|Hne].
    + (* the root itself is raised *)
      assert (elem (array h) 0 <= elem a' 0); [|lia]. lia.
    + assert (Hr : elem (array h) 0 <= elem a' 0); [|lia].
      apply Hmax. rewrite Hperm. apply list_elem_of_lookup.
      exists 0%nat. rewrite list_lookup_insert_ne by lia.
      change 0%nat with (Z.to_nat 0). apply valid_lookup; lia.
Qed.

Lemma increaseKey_replaces_key_witness :
  exists h',
    increaseKey 4 12 example_heap = Ret tt h' /\
    5 :: valid h' ≡ₚ 12 :: [9; 6; 4; 1; 5; 3; 2; 1] /\
    elem (array h') 0 = 12.
Proof.
  destruct (increaseKey_replaces_key 4 12 example_heap example_heap_ok)
    as (h' & R & _ & _ & _ & Hperm & _ & Hroot).
  - cbn. lia.
  - vm_compute. split; discriminate.
  - exists h'. split; [exact R|]. split; [exact Hperm|].
    apply (Hroot example_heap_max_heap).
Defined.

(** The sift-up loop returns from every index inside the array, whether
    the index is below [size] or not. *)
Lemma sift_up_returns fuel : forall i h,
  length (array h) = Z.to_nat MAX_CAPACITY -> 1 <= d h ->
  0 <= i < MAX_CAPACITY -> (Z.to_nat i < fuel)%nat ->
  exists a', sift_up fuel i h = Ret tt (mkHeap a' (size h) (d h)).
Proof.
  induction fuel as [|fuel IH]; intros i h Hlen Hd Hi F; [lia|].
  assert (HM : Z.of_nat (length (array h)) = MAX_CAPACITY) by lia.
  rewrite sift_up_S. unfold ROOT.
  destruct (Z.gtb_spec i 0) as [Hi0|Hi0].
  2:{ exists (array h). now rewrite heap_eta. }
  rewrite parent_Some by (unfold MAX_CAPACITY, INT_MAX in *; lia).
  fold (par (d h) i).
  pose proof (par_lt (d h) ltac:(lia) i ltac:(lia)) as Hp.
  rewrite (bind_Ret _ _ _ _ _ (load_spec (par (d h) i) h ltac:(lia))).
  rewrite (bind_Ret _ _ _ _ _ (load_spec i h ltac:(lia))).
  destruct (_ <? _).
  - unfold bind. rewrite swap_spec by lia.
    destruct (IH (par (d h) i)
                (mkHeap (swap_list (array h) i (par (d h) i)) (size h) (d h)))
      as (a' & R); cbn [array size d]; try lia.
    + rewrite length_swap. lia.
    + exists a'. exact R.
  - exists (array h). unfold ret. now rewrite heap_eta.
Qed.

(** X7.  [increaseKey] does not compare its index with [size]: an
    index outside the array ([i < 0] or [i >= MAX_CAPACITY]) is read out
    of bounds, and an index between [size] and the capacity is accepted
    like a valid one -- the call returns, with [size] and [d]
    unchanged. *)
Theorem increaseKey_index_unchecked h i key :
  heap_ok h ->
  (i < 0 \/ MAX_CAPACITY <= i -> increaseKey i key h = Fault) /\
  (size h <= i < MAX_CAPACITY -> elem (array h) i <= key ->
   exists h', increaseKey i key h = Ret tt h' /\
              size h' = size h /\ d h' = d h).
Proof.
  intros (Hlen & Hall & Hsz & Hd). split.
  - intros Hi. unfold increaseKey, bind, load.
    destruct (Z.ltb_spec i 0) as [|Hi0]; [reflexivity|].
    rewrite lookup_ge_None_2; [reflexivity|lia].
  - intros Hi Hkey. rewrite increaseKey_unfold by lia.
    destruct (sift_up_returns (sift_fuel i) i
                (mkHeap (<[Z.to_nat i := key]> (array h)) (size h) (d h)))
      as (a' & R); cbn [array size d]; try lia.
    + rewrite length_insert. lia.
    + unfold sift_fuel. lia.
    + eexists. split; [exact R|]. split; reflexivity.
Qed.

Lemma increaseKey_index_unchecked_witness :
  increaseKey (-1) 5 example_heap = Fault /\
  exists h', increaseKey 9 50 example_heap = Ret tt h' /\
             size h' = size example_heap /\ d h' = d example_heap.
Proof.
  destruct (increaseKey_index_unchecked example_heap (-1) 5 example_heap_ok)
    as [H1 _].
  destruct (increaseKey_index_unchecked example_heap 9 50 example_heap_ok)
    as [_ H2].
  split.
  - apply H1. left. lia.
  - apply H2; [cbn; unfold MAX_CAPACITY; lia|vm_compute; discriminate].
Defined.

(** X8.  [delete] checks its index against [size] only: every negative
    index passes the check and [array[index]] is read out of bounds. *)
Theorem delete_negative_index h index :
  0 <= size h -> index < 0 -> delete index h = Fault.
Proof.
  intros Hs Hi. unfold delete. rewrite get_size_bind.
  destruct (Z.geb_spec index (size h)); [lia|].
  unfold increaseKey, bind, load.
  destruct (Z.ltb_spec index 0); [reflexivity|lia].
Qed.

Lemma delete_negative_index_witness : delete (-3) example_heap = Fault.
Proof. apply delete_negative_index; cbn; lia. Defined.

(** X9.  On a heap of at least two elements, deleting index 0 is the
    same as [heapExtractMax] with its result dropped: both end in the
    same state, or fail in the same way. *)
Theorem delete_root_is_extract h :
  heap_ok h -> 2 <= size h ->
  delete 0 h = (_ <- heapExtractMax ;; ret tt) h.
Proof.
  intros Hok Hs. pose proof Hok as (Hlen & Hall & Hsz & Hd).
  assert (HM : Z.of_nat (length (array h)) = MAX_CAPACITY) by lia.
  pose proof (elem_in_int (array h) 0 Hall ltac:(lia)) as H0.
  unfold delete. rewrite get_size_bind.
  destruct (Z.geb_spec 0 (size h)); [lia|].
  assert (R : increaseKey 0 INT_MAX h =
              Ret tt (mkHeap (<[0%nat := INT_MAX]> (array h)) (size h) (d h))).
  { rewrite increaseKey_unfold by lia. reflexivity. }
  rewrite (bind_Ret _ _ _ _ _ R).
  assert (Hok1 : heap_ok (mkHeap (<[0%nat := INT_MAX]> (array h)) (size h) (d h))).
  { split; [|split; [|split]]; cbn [array size d]; try lia.
    - rewrite length_insert. lia.
    - apply Forall_insert; [assumption|unfold INT_MIN, INT_MAX; lia]. }
  unfold bind.
  rewrite (heapExtractMax_unfold _ Hok1) by (cbn [size]; lia).
  rewrite (heapExtractMax_unfold _ Hok) by lia.
  cbn [array size d]. rewrite list_insert_insert_eq.
  replace (elem (<[0%nat := INT_MAX]> (array h)) (size h - 1))
    with (elem (array h) (size h - 1)).
  2:{ change 0%nat with (Z.to_nat 0). rewrite elem_insert by lia.
      destruct (Z.eqb_spec (size h - 1) 0) as [?|_]; [lia|reflexivity]. }
  unfold bind.
  destruct (dmaxHeapify ROOT _); reflexivity.
Qed.

Lemma delete_root_is_extract_witness :
  delete 0 example_heap = (_ <- heapExtractMax ;; ret tt) example_heap.
Proof. apply (delete_root_is_extract example_heap example_heap_ok). cbn. lia. Defined.

(** ** More on [buildMaxHeap] *)

Lemma build_loop_noop n : forall i h,
  heap_ok h -> max_heap h ->
  Z.of_nat n = i + 1 -> d h * (i + 1) <= size h ->
  build_loop n i h = Ret tt h.
Proof.
  induction n as [|n IH]; intros i h Hok Hh Hn Hi; [reflexivity|].
  pose proof Hok as (Hlen & Hall & Hsz0 & Hd).
  assert (Hi0 : 0 <= i) by lia.
  assert (Hlt : i < size h) by nia.
  cbn [build_loop].
  rewrite (bind_Ret _ _ _ _ _ (dmaxHeapify_noop h i Hok
             ltac:(unfold MAX_CAPACITY, INT_MAX in *; nia)
             ltac:(lia)
             ltac:(unfold MAX_CAPACITY, INT_MAX in *; nia)
             ltac:(intros k Hk Hc; apply Hh; lia))).
  rewrite int_op_Some by (unfold MAX_CAPACITY, INT_MIN, INT_MAX in *; lia).
  rewrite lift_bind. apply IH; try assumption; [lia|nia].
Qed.

Lemma buildMaxHeap_unfold h :
  heap_ok h ->
  buildMaxHeap h =
  build_loop (Z.to_nat (size h / d h)) (size h / d h - 1) h.
Proof.
  intros (Hlen & Hall & Hsz0 & Hd).
  assert (Hq : 0 <= size h / d h <= size h).
  { split; [apply Z.div_pos; lia|]. apply Z.div_le_upper_bound; nia. }
  unfold buildMaxHeap. rewrite get_size_bind.
  unfold bind at 1. cbn [get_d].
  destruct (Z.eqb_spec (d h) 0); [lia|].
  rewrite Z.quot_div_nonneg by lia.
  rewrite int_op_Some by (unfold MAX_CAPACITY, INT_MIN, INT_MAX in *; lia).
  rewrite lift_bind.
  rewrite int_op_Some by (unfold MAX_CAPACITY, INT_MIN, INT_MAX in *; lia).
  rewrite lift_bind. f_equal. lia.
Qed.

(** With [d = 1] the heap order is the order of a sorted list. *)
Lemma sorted_take (a : list Z) : forall n,
  (forall i, 0 <= i -> i + 1 < Z.of_nat n -> i + 1 < Z.of_nat (length a) ->
     elem a (i + 1) <= elem a i) ->
  Sorted Z.ge (take n a).
Proof.
  induction a as [|x a IH]; intros n H.
  - rewrite take_nil. constructor.
  - destruct n as [|n]; [constructor|]. cbn [take].
    constructor.
    + apply IH. intros i Hi Hn Hl.
      specialize (H (i + 1) ltac:(lia) ltac:(lia) ltac:(cbn [length]; lia)).
      unfold elem in *.
      replace (Z.to_nat (i + 1 + 1)) with (S (Z.to_nat (i + 1))) in H by lia.
      replace (Z.to_nat (i + 1)) with (S (Z.to_nat i)) in H at 2 by lia.
      exact H.
    + destruct a as [|y a]; [rewrite take_nil; constructor|].
      destruct n as [|n]; [constructor|]. cbn [take]. constructor.
      specialize (H 0 ltac:(lia) ltac:(lia) ltac:(cbn [length]; lia)).
      change (y <= x) in H. lia.
Qed.

Lemma unary_heap_sorted h :
  d h = 1 -> max_heap h -> Sorted Z.ge (valid h).
Proof.
  intros Hd Hh. apply sorted_take. intros i Hi Hn _.
  specialize (Hh i 1). rewrite Hd in Hh.
  replace (1 * i + 1) with (i + 1) in Hh by lia.
  apply Hh; lia.
Qed.

(** X10.  [buildMaxHeap] returns in every state with [d >= 1], keeps
    [size] and [d] and permutes the valid elements; its result is a
    max-heap whenever [size mod d <= 1] (always for [d = 1] and
    [d = 2]). *)
Theorem buildMaxHeap_builds_heap h :
  heap_ok h ->
  exists h',
    buildMaxHeap h = Ret tt h' /\
    heap_ok h' /\ size h' = size h /\ d h' = d h /\
    valid h' ≡ₚ valid h /\
    (size h mod d h <= 1 -> max_heap h').
Proof.
  intros Hok.
  destruct (buildMaxHeap_spec h Hok) as (a' & R & Hok' & Hperm & Hh).
  eexists. split; [exact R|]. split; [assumption|].
  split; [reflexivity|]. split; [reflexivity|]. split; assumption.
Qed.

Lemma buildMaxHeap_builds_heap_witness :
  exists h',
    buildMaxHeap example_input = Ret tt h' /\
    valid h' ≡ₚ [3; 1; 4; 1; 5; 9; 2; 6] /\ max_heap h'.
Proof.
  destruct (buildMaxHeap_builds_heap example_input example_input_ok)
    as (h' & R & _ & _ & _ & Hperm & Hh).
  exists h'. split; [exact R|]. split; [exact Hperm|].
  apply Hh. vm_compute. discriminate.
Defined.

(** X11.  With degree 1, [buildMaxHeap] sorts: the valid elements are
    the same multiset, in non-increasing order. *)
Theorem buildMaxHeap_unary_sorts h :
  heap_ok h -> d h = 1 ->
  exists h',
    buildMaxHeap h = Ret tt h' /\
    size h' = size h /\
    valid h' ≡ₚ valid h /\
    Sorted Z.ge (valid h').
Proof.
  intros Hok Hd.
  destruct (buildMaxHeap_spec h Hok) as (a' & R & Hok' & Hperm & Hh).
  eexists. split; [exact R|]. split; [reflexivity|]. split; [assumption|].
  apply unary_heap_sorted; [assumption|].
  apply Hh. rewrite Hd, Z.mod_1_r. lia.
Qed.

Lemma buildMaxHeap_unary_sorts_witness :
  exists h',
    buildMaxHeap (mkHeap (pad [3; 1; 4; 1; 5]) 5 1) = Ret tt h' /\
    size h' = 5 /\
    valid h' ≡ₚ [3; 1; 4; 1; 5] /\
    Sorted Z.ge (valid h').
Proof.
  apply (buildMaxHeap_unary_sorts (mkHeap (pad [3; 1; 4; 1; 5]) 5 1)).
  - apply heap_okb_true. vm_compute. reflexivity.
  - reflexivity.
Defined.

(** X12.  [buildMaxHeap] on a max-heap changes nothing, for every
    degree. *)
Theorem buildMaxHeap_keeps_max_heap h :
  heap_ok h -> max_heap h -> buildMaxHeap h = Ret tt h.
Proof.
  intros Hok Hh. pose proof Hok as (Hlen & Hall & Hsz0 & Hd).
  rewrite buildMaxHeap_unfold by assumption.
  assert (Hq : 0 <= size h / d h) by (apply Z.div_pos; lia).
  apply build_loop_noop; try assumption; [lia|].
  replace (size h / d h - 1 + 1) with (size h / d h) by lia.
  apply Z.mul_div_le. lia.
Qed.

Lemma buildMaxHeap_keeps_max_heap_witness :
  buildMaxHeap example_heap = Ret tt example_heap.
Proof.
  exact (buildMaxHeap_keeps_max_heap example_heap
           example_heap_ok example_heap_max_heap).
Defined.

(** X13.  When the degree exceeds the number of elements,
    [size/d - 1] is negative, the loop of [buildMaxHeap] is not entered
    and the array is returned as it is, whatever its order. *)
Theorem buildMaxHeap_degree_above_size h :
  heap_ok h -> size h < d h -> buildMaxHeap h = Ret tt h.
Proof.
  intros Hok Hlt. pose proof Hok as (Hlen & Hall & Hsz0 & Hd).
  rewrite buildMaxHeap_unfold by assumption.
  rewrite Z.div_small by lia. reflexivity.
Qed.

Lemma buildMaxHeap_degree_above_size_witness :
  buildMaxHeap (mkHeap (pad [1; 2; 3]) 3 4) = Ret tt (mkHeap (pad [1; 2; 3]) 3 4).
Proof.
  apply buildMaxHeap_degree_above_size.
  - apply heap_okb_true. vm_compute. reflexivity.
  - cbn. lia.
Defined.

(** X14.  [buildMaxHeap] followed by [size] calls of [heapExtractMax]
    sorts: when [size mod d <= 1], [d < INT_MAX] and
    [d * (size - 1) <= INT_MAX], the values returned are the elements of
    the array in non-increasing order, and the heap ends empty. *)
Theorem heap_sort h :
  heap_ok h -> size h mod d h <= 1 -> index_safe h ->
  exists l h',
    (buildMaxHeap ;; extract_all (Z.to_nat (size h))) h = Ret l h' /\
    size h' = 0 /\
    l ≡ₚ valid h /\
    Sorted Z.ge l.
Proof.
  intros Hok Hmod Hsafe. pose proof Hok as (Hlen & Hall & Hsz0 & Hd).
  destruct (buildMaxHeap_spec h Hok) as (a1 & R1 & Hok1 & Hperm1 & Hh1).
  specialize (Hh1 Hmod).
  destruct (extract_all_spec (Z.to_nat (size h)) _ Hok1 Hh1 Hsafe)
    as (l & a2 & R2 & _ & _ & Hperm2 & _ & Hsorted);
    [cbn [size]; lia|].
  cbn [size d] in *.
  exists l. eexists. rewrite (bind_Ret _ _ _ _ _ R1).
  split; [exact R2|]. split; [cbn [size]; lia|]. split; [|assumption].
  rewrite <- Hperm1, <- Hperm2, valid_empty by (cbn [size]; lia).
  now rewrite app_nil_r.
Qed.

Lemma heap_sort_witness :
  exists l h',
    (buildMaxHeap ;; extract_all 8) example_input = Ret l h' /\
    size h' = 0 /\
    l ≡ₚ [3; 1; 4; 1; 5; 9; 2; 6] /\
    Sorted Z.ge l.
Proof.
  apply (heap_sort example_input example_input_ok).
  - vm_compute. discriminate.
  - split; cbn; unfold INT_MAX; lia.
Defined.

(** X15.  On a max-heap that is not full (and within the range of
    degrees in which the sift-down does not overflow), [insert key]
    followed by [heapExtractMax] returns the greatest of the key and the
    old elements, and leaves a max-heap of the old [size] that holds the
    others. *)
Theorem insert_then_extract key h :
  heap_ok h -> max_heap h -> INT_MIN <= key <= INT_MAX ->
  size h < MAX_CAPACITY ->
  d h < INT_MAX -> d h * size h <= INT_MAX ->
  exists m h',
    (insert key ;; heapExtractMax) h = Ret m h' /\
    m ∈ key :: valid h /\
    (forall x, x ∈ key :: valid h -> x <= m) /\
    m :: valid h' ≡ₚ key :: valid h /\
    size h' = size h /\ d h' = d h /\ max_heap h'.
Proof.
  intros Hok Hh Hkey Hsz Hd1 Hd2.
  destruct (insert_spec key h Hok Hkey Hsz) as (a1 & R1 & Hok1 & Hperm1 & Hh1).
  specialize (Hh1 Hh).
  pose proof Hok as (_ & _ & Hsz0 & _).
  destruct (heapExtractMax_spec _ Hok1) as (a2 & R2 & Hok2 & Hperm2 & Hh2).
  { cbn [size]. lia. }
  { split; cbn [size d]; [assumption|]. now replace (size h + 1 - 1) with (size h) by lia. }
  destruct (root_is_maximum _ Hok1 Hh1 ltac:(cbn [size]; lia)) as [Hin Hmax].
  cbn [array size d] in *.
  replace (size h + 1 - 1) with (size h) in * by lia.
  exists (elem a1 0). eexists. rewrite (bind_Ret _ _ _ _ _ R1).
  split; [exact R2|].
  split; [now rewrite <- Hperm1|].
  split; [intros x Hx; apply Hmax; now rewrite Hperm1|].
  split; [now rewrite Hperm2|].
  split; [reflexivity|]. split; [reflexivity|auto].
Qed.

Lemma insert_then_extract_witness :
  exists m h',
    (insert 10 ;; heapExtractMax) example_heap = Ret m h' /\
    (forall x, x ∈ 10 :: [9; 6; 4; 1; 5; 3; 2; 1] -> x <= m) /\
    size h' = 8 /\ max_heap h'.
Proof.
  destruct (insert_then_extract 10 example_heap
              example_heap_ok example_heap_max_heap)
    as (m & h' & R & _ & Hmax & _ & Hs & _ & Hh).
  - unfold INT_MIN, INT_MAX. lia.
  - cbn. unfold MAX_CAPACITY. lia.
  - cbn. unfold INT_MAX. lia.
  - cbn. unfold INT_MAX. lia.
  - exists m, h'. split; [exact R|]. split; [exact Hmax|].
    split; [exact Hs|exact Hh].
Defined.

(* ================================================================== *)
(** * Properties of the rest of the program *)

(** ** Decimal text: [isNumber], [atoi] and [%d] *)

Lemma digits_value_uint_pos u : forall t acc,
  digits_value (NilEmpty.string_of_uint u ++ t) (Z.pos acc) =
  digits_value t (Z.pos (Pos.of_uint_acc u acc)).
Proof.
  induction u; intros t acc; cbn [NilEmpty.string_of_uint String.append];
    [reflexivity|..];
    cbn [digits_value]; 
    match goal with |- context [isdigit ?c] =>
      change (isdigit c) with true;
      let v := eval vm_compute in (Z.of_nat (nat_of_ascii c) - 48) in
      change (Z.of_nat (nat_of_ascii c) - 48) with v end;
    cbn [Pos.of_uint_acc]; rewrite <- IHu; f_equal; lia.
Qed.

Lemma digits_value_uint u : forall t,
  digits_value (NilEmpty.string_of_uint u ++ t) 0 =
  digits_value t (Z.of_N (Pos.of_uint u)).
Proof.
  induction u; intros t; cbn [NilEmpty.string_of_uint String.append];
    [reflexivity|..];
    cbn [digits_value];
    match goal with |- context [isdigit ?c] =>
      change (isdigit c) with true;
      let v := eval vm_compute in (Z.of_nat (nat_of_ascii c) - 48) in
      change (Z.of_nat (nat_of_ascii c) - 48) with v end;
    cbn [Pos.of_uint]; [apply IHu|..];
    match goal with |- digits_value _ ?a = _ =>
      let v := eval vm_compute in a in change a with v end;
    apply digits_value_uint_pos.
Qed.

Lemma isNumber_app s t : isNumber (s ++ t) = isNumber s && isNumber t.
Proof.
  induction s as [|c s IH]; [reflexivity|].
  cbn [String.append isNumber].
  destruct (negb (isdigit c) && negb (Ascii.eqb c "-")); [reflexivity|exact IH].
Qed.

Lemma isNumber_uint u : isNumber (NilEmpty.string_of_uint u) = true.
Proof. induction u; [reflexivity|exact IHu..]. Qed.

Lemma isNumber_uint_zero u : isNumber (NilZero.string_of_uint u) = true.
Proof. destruct u; try reflexivity; apply (isNumber_uint (_ u)). Qed.

Lemma isNumber_print_int z : isNumber (print_int z) = true.
Proof.
  unfold print_int. destruct (Z.to_int z) as [u|u]; cbn [NilZero.string_of_int].
  - apply isNumber_uint_zero.
  - cbn [isNumber]. change (isdigit "-") with false.
    change (Ascii.eqb "-" "-") with true. cbn. apply isNumber_uint_zero.
Qed.

Lemma isdigit_not_space c : isdigit c = true -> isspace c = false.
Proof.
  unfold isdigit, isspace. intros H. apply andb_true_iff in H as [H1 H2].
  apply Nat.leb_le in H1, H2.
  destruct (Nat.eqb_spec (nat_of_ascii c) 32); [lia|].
  destruct (Nat.leb_spec (nat_of_ascii c) 13); [lia|].
  now rewrite andb_false_r.
Qed.

Lemma isdigit_not_sign c :
  isdigit c = true -> Ascii.eqb c "-" = false /\ Ascii.eqb c "+" = false.
Proof.
  intros H. split.
  - destruct (Ascii.eqb_spec c "-") as [->|]; [discriminate|reflexivity].
  - destruct (Ascii.eqb_spec c "+") as [->|]; [discriminate|reflexivity].
Qed.

Lemma atoi_digit c r :
  isdigit c = true -> atoi (String c r) = int_op (digits_value (String c r) 0).
Proof.
  intros H. unfold atoi. cbn [skip_spaces].
  rewrite (isdigit_not_space c H).
  destruct (isdigit_not_sign c H) as [-> ->]. reflexivity.
Qed.

Lemma atoi_minus r : atoi (String "-" r) = int_op (- digits_value r 0).
Proof. reflexivity. Qed.

Lemma uint_zero_digit u t :
  exists c r, (NilZero.string_of_uint u ++ t)%string = String c r /\
              isdigit c = true.
Proof. destruct u; cbn; eexists _, _; split; reflexivity. Qed.

Lemma uint_zero_value u t :
  digits_value (NilZero.string_of_uint u ++ t) 0 =
  digits_value t (Z.of_uint u).
Proof.
  destruct u; try apply (digits_value_uint (_ u)).
  reflexivity.
Qed.

(** [atoi] reads back what [%d] prints, whatever follows it that is not a
    digit. *)
Lemma atoi_print_int z t :
  INT_MIN <= z <= INT_MAX ->
  (forall v, digits_value t v = v) ->
  atoi (print_int z ++ t) = Some z.
Proof.
  intros Hz Ht. pose proof (DecimalZ.of_to z) as E. unfold print_int.
  destruct (Z.to_int z) as [u|u]; cbn [NilZero.string_of_int Z.of_int] in *.
  - destruct (uint_zero_digit u t) as (c & r & Ec & Hc).
    rewrite Ec, (atoi_digit c r Hc), <- Ec, uint_zero_value, Ht, E.
    now apply int_op_Some.
  - cbn [String.append]. rewrite atoi_minus, uint_zero_value, Ht, E.
    now apply int_op_Some.
Qed.

Lemma digits_value_stop c r v :
  isdigit c = false -> digits_value (String c r) v = v.
Proof. intros H. cbn [digits_value]. now rewrite H. Qed.

Lemma append_nil_r s : (s ++ EmptyString)%string = s.
Proof. induction s as [|c s IH]; [reflexivity|]. cbn. now rewrite IH. Qed.

Lemma c_string_isNumber s : isNumber s = true -> c_string s = s.
Proof.
  induction s as [|c s IH]; [reflexivity|]. cbn [isNumber c_string].
  destruct (Ascii.eqb_spec c "000") as [->|_]; [discriminate|].
  destruct (negb (isdigit c) && negb (Ascii.eqb c "-")); [discriminate|].
  intros H. now rewrite IH.
Qed.

(** ** The length of what [%d] prints *)

Lemma length_string_of_uint u :
  String.length (NilEmpty.string_of_uint u) = Decimal.nb_digits u.
Proof. induction u; cbn; congruence. Qed.

Lemma of_uint_acc_lower u : forall acc,
  Z.pos acc * 10 ^ Z.of_nat (Decimal.nb_digits u) <=
  Z.pos (Pos.of_uint_acc u acc).
Proof.
  induction u; intros acc; cbn [Decimal.nb_digits Pos.of_uint_acc];
    [rewrite Z.pow_0_r; lia|..];
    rewrite Nat2Z.inj_succ, Z.pow_succ_r by lia;
    (etransitivity; [|apply IHu]);
    assert (0 < 10 ^ Z.of_nat (Decimal.nb_digits u)) by (apply Z.pow_pos_nonneg; lia);
    nia.
Qed.

Lemma nzhead_head u :
  match Decimal.nzhead u with Decimal.D0 _ => False | _ => True end.
Proof. induction u; cbn; auto. Qed.

Lemma to_uint_head p :
  match Pos.to_uint p with
  | Decimal.Nil | Decimal.D0 _ => False
  | _ => True
  end.
Proof.
  pose proof (DecimalPos.Unsigned.to_of (Pos.to_uint p)) as E.
  rewrite DecimalPos.Unsigned.of_to in E. cbn [N.to_uint] in E.
  pose proof (Unsigned.to_uint_nonnil p) as Hn.
  pose proof (Unsigned.to_uint_nonzero p) as Hz.
  pose proof (nzhead_head (Pos.to_uint p)) as Hh.
  unfold Decimal.unorm in E.
  destruct (Decimal.nzhead (Pos.to_uint p)); rewrite E in *; auto.
Qed.

Lemma nb_digits_to_uint p :
  Z.pos p <= INT_MAX + 1 -> (Decimal.nb_digits (Pos.to_uint p) <= 10)%nat.
Proof.
  intros Hp. pose proof (to_uint_head p) as Hh.
  pose proof (DecimalPos.Unsigned.of_to p) as E.
  assert (B : forall l k, Pos.of_uint_acc l k = p ->
            (Decimal.nb_digits l < 10)%nat).
  { intros l k Ek. pose proof (of_uint_acc_lower l k) as L. rewrite Ek in L.
    destruct (le_lt_dec 10 (Decimal.nb_digits l)) as [Hge|]; [|assumption].
    exfalso.
    assert (10 ^ 10 <= 10 ^ Z.of_nat (Decimal.nb_digits l))
      by (apply Z.pow_le_mono_r; lia).
    unfold INT_MAX in Hp. change (10 ^ 10) with 10000000000 in *. nia. }
  destruct (Pos.to_uint p) as [|l|l|l|l|l|l|l|l|l|l]; try contradiction;
    cbn [Pos.of_uint Decimal.nb_digits] in *; injection E as E;
    apply B in E; lia.
Qed.

Lemma print_int_length z :
  INT_MIN <= z <= INT_MAX -> (String.length (print_int z) <= 11)%nat.
Proof.
  intros Hz. unfold print_int.
  destruct z as [|p|p]; cbn [Z.to_int NilZero.string_of_int].
  - cbn. lia.
  - pose proof (to_uint_head p). pose proof (nb_digits_to_uint p ltac:(lia)).
    destruct (Pos.to_uint p) eqn:E; try contradiction;
      cbn [NilZero.string_of_uint]; rewrite length_string_of_uint; lia.
  - pose proof (to_uint_head p).
    pose proof (nb_digits_to_uint p ltac:(unfold INT_MIN, INT_MAX in *; lia)).
    destruct (Pos.to_uint p) eqn:E; try contradiction;
      cbn [NilZero.string_of_uint String.length];
      rewrite length_string_of_uint; lia.
Qed.

(** ** [getIntInput] *)

Lemma getIntInput_loop_nil n prompt min max buffer w :
  input (console w) = [] ->
  getIntInput_loop n prompt min max buffer w =
  match buffer with None => Undefined | Some _ => Hangs end.
Proof.
  intros E. destruct n; cbn [getIntInput_loop];
    unfold io_bind, print, printed, scan_word; cbn [console input heaps];
    rewrite E; destruct buffer; reflexivity.
Qed.

Lemma getIntInput_loop_cons n prompt min max buffer w word rest :
  input (console w) = word :: rest ->
  getIntInput_loop (S n) prompt min max buffer w =
  if Z.of_nat (String.length word) <? 100 then
    let w1 := mkWorld (heaps w)
                (mkConsole rest (output (console w) ++ prompt)) in
    let again := getIntInput_loop n prompt min max (Some (c_string word))
                   (printed (invalid_text min max) w1) in
    if isNumber (c_string word) then
      match atoi (c_string word) with
      | None => Undefined
      | Some number =>
          if (number >=? min) && (number <=? max) then Returns number w1
          else again
      end
    else again
  else Undefined.
Proof.
  intros E. cbn [getIntInput_loop].
  unfold io_bind at 1. unfold print at 1. unfold io_bind at 1.
  unfold scan_word, printed. cbn [console input heaps output]. rewrite E.
  destruct (Z.of_nat (String.length word) <? 100); [|reflexivity].
  cbv zeta.
  destruct (isNumber (c_string word)).
  - destruct (atoi (c_string word)) as [number|]; [|reflexivity].
    destruct ((number >=? min) && (number <=? max)); reflexivity.
  - reflexivity.
Qed.

Lemma getIntInput_loop_0 prompt min max buffer w :
  getIntInput_loop 0 prompt min max buffer w = Undefined \/
  getIntInput_loop 0 prompt min max buffer w = Hangs \/
  getIntInput_loop 0 prompt min max buffer w = NoFuel /\
  input (console w) <> [].
Proof.
  destruct (input (console w)) as [|word rest] eqn:E.
  - rewrite getIntInput_loop_nil by assumption. destruct buffer; auto.
  - cbn [getIntInput_loop]. unfold io_bind, print, printed, scan_word.
    cbn [console input heaps output]. rewrite E.
    destruct (Z.of_nat (String.length word) <? 100); [|auto].
    right. right. split; [reflexivity|discriminate].
Qed.

Lemma getIntInput_loop_sound n : forall prompt min max buffer w v w',
  getIntInput_loop n prompt min max buffer w = Returns v w' ->
  min <= v <= max /\ INT_MIN <= v <= INT_MAX /\
  heaps w' = heaps w /\
  exists k, (k < length (input (console w)))%nat /\
            input (console w') = drop (S k) (input (console w)).
Proof.
  induction n as [|n IH]; intros prompt min max buffer w v w' E.
  - destruct (getIntInput_loop_0 prompt min max buffer w) as [H|[H|[H _]]];
      congruence.
  - destruct (input (console w)) as [|word rest] eqn:Ein.
    { rewrite getIntInput_loop_nil in E by assumption.
      destruct buffer; discriminate. }
    rewrite (getIntInput_loop_cons _ _ _ _ _ _ _ _ Ein) in E.
    destruct (Z.of_nat (String.length word) <? 100); [|discriminate].
    cbv zeta in E.
    assert (Hagain : forall str,
              getIntInput_loop n prompt min max (Some str)
                (printed (invalid_text min max)
                   (mkWorld (heaps w)
                      (mkConsole rest (output (console w) ++ prompt))))
              = Returns v w' ->
              min <= v <= max /\ INT_MIN <= v <= INT_MAX /\
              heaps w' = heaps w /\
              exists k, (k < length (word :: rest))%nat /\
                        input (console w') = drop (S k) (word :: rest)).
    { intros str E'. apply IH in E' as (H1 & H2 & H3 & k & Hk & H4).
      cbn [printed heaps console input] in *.
      split; [assumption|]. split; [assumption|]. split; [assumption|].
      exists (S k). split; [cbn [length]; lia|exact H4]. }
    destruct (isNumber (c_string word)); [|now apply Hagain in E].
    destruct (atoi (c_string word)) as [number|] eqn:Ea; [|discriminate].
    destruct (Z.geb_spec number min) as [H1|H1]; cbn [andb] in E;
      [|now apply Hagain in E].
    destruct (Z.leb_spec number max) as [H2|H2]; [|now apply Hagain in E].
    injection E as <- <-. cbn [heaps console input].
    split; [lia|]. split.
    + unfold atoi in Ea.
      destruct (skip_spaces (c_string word)) as [|c s'];
        [|destruct (Ascii.eqb c "-"); [|destruct (Ascii.eqb c "+")]];
        apply int_op_inv in Ea as [-> Hr]; exact Hr.
    + split; [reflexivity|]. exists 0%nat. split; [cbn [length]; lia|reflexivity].
Qed.

Lemma getIntInput_loop_fuel n : forall prompt min max buffer w,
  (length (input (console w)) <= n)%nat ->
  getIntInput_loop n prompt min max buffer w <> NoFuel.
Proof.
  induction n as [|n IH]; intros prompt min max buffer w Hn.
  - destruct (getIntInput_loop_0 prompt min max buffer w) as [H|[H|[_ H]]];
      try congruence.
    destruct (input (console w)); [congruence|cbn [length] in Hn; lia].
  - destruct (input (console w)) as [|word rest] eqn:Ein.
    { rewrite getIntInput_loop_nil by assumption. destruct buffer; discriminate. }
    rewrite (getIntInput_loop_cons _ _ _ _ _ _ _ _ Ein).
    destruct (Z.of_nat (String.length word) <? 100); [|discriminate].
    cbv zeta. cbn [length] in Hn.
    destruct (isNumber (c_string word));
      [destruct (atoi (c_string word)) as [number|]; [|discriminate];
       destruct ((number >=? min) && (number <=? max)); [discriminate|]|];
      apply IH; cbn [printed console input]; lia.
Qed.

Lemma getIntInput_loop_accepts bad : forall n prompt min max buffer w word v rest,
  Forall (rejected min max) bad ->
  accepted min max word v ->
  input (console w) = bad ++ word :: rest ->
  (length bad < n)%nat ->
  exists out,
    getIntInput_loop n prompt min max buffer w =
    Returns v (mkWorld (heaps w) (mkConsole rest out)).
Proof.
  induction bad as [|b bad IH];
    intros n prompt min max buffer w word v rest Hbad (Hl & Hn & Ha & Hv) Ein F.
  - destruct n as [|n]; [cbn [length] in F; lia|].
    rewrite (getIntInput_loop_cons _ _ _ _ _ _ _ _ Ein).
    destruct (Z.ltb_spec (Z.of_nat (String.length word)) 100); [|lia].
    cbv zeta. rewrite Hn, Ha.
    destruct (Z.geb_spec v min); [|lia].
    destruct (Z.leb_spec v max); [|lia].
    eexists. reflexivity.
  - destruct n as [|n]; [cbn [length] in F; lia|].
    apply Forall_cons in Hbad as [(Hbl & Hb) Hbad].
    rewrite (getIntInput_loop_cons _ _ _ _ _ _ _ _ Ein).
    destruct (Z.ltb_spec (Z.of_nat (String.length b)) 100); [|lia].
    cbv zeta.
    assert (Hagain : exists out,
              getIntInput_loop n prompt min max (Some (c_string b))
                (printed (invalid_text min max)
                   (mkWorld (heaps w)
                      (mkConsole (bad ++ word :: rest)
                                 (output (console w) ++ prompt))))
              = Returns v (mkWorld (heaps w) (mkConsole rest out))).
    { destruct (IH n prompt min max (Some (c_string b))
                  (printed (invalid_text min max)
                     (mkWorld (heaps w)
                        (mkConsole (bad ++ word :: rest)
                                   (output (console w) ++ prompt))))
                  word v rest Hbad) as [out E].
      - split; [assumption|]. split; [assumption|]. split; assumption.
      - reflexivity.
      - cbn [length] in F. lia.
      - exists out. exact E. }
    destruct Hb as [Hb|(v' & Hb & Hv')].
    + rewrite Hb. exact Hagain.
    + rewrite Hb. destruct (isNumber (c_string b)); [|exact Hagain].
      destruct (Z.geb_spec v' min); cbn [andb]; [|exact Hagain].
      destruct (Z.leb_spec v' max); [lia|exact Hagain].
Qed.

Lemma print_int_accepted min max v :
  min <= v <= max -> INT_MIN <= v <= INT_MAX ->
  accepted min max (print_int v) v.
Proof.
  intros Hv Hr. pose proof (print_int_length v Hr) as Hl.
  pose proof (isNumber_print_int v) as Hn.
  split; [lia|]. rewrite (c_string_isNumber _ Hn).
  split; [assumption|]. split; [|assumption].
  rewrite <- (append_nil_r (print_int v)).
  apply atoi_print_int; [assumption|reflexivity].
Qed.

(** X16.  The decimal text of every [int], as [%d] prints it, is a
    number for [isNumber], is read back as the same value by [atoi], and
    has at most 11 characters (it fits the buffer of [getIntInput]). *)
Theorem decimal_text_is_number z :
  INT_MIN <= z <= INT_MAX ->
  isNumber (print_int z) = true /\
  atoi (print_int z) = Some z /\
  (String.length (print_int z) <= 11)%nat.
Proof.
  intros Hz. split; [apply isNumber_print_int|]. split.
  - rewrite <- (append_nil_r (print_int z)).
    apply atoi_print_int; [assumption|reflexivity].
  - now apply print_int_length.
Qed.

Lemma decimal_text_is_number_witness :
  isNumber (print_int (-2147483648)) = true /\
  atoi (print_int (-2147483648)) = Some (-2147483648) /\
  (String.length (print_int (-2147483648)) <= 11)%nat.
Proof. apply decimal_text_is_number. unfold INT_MIN, INT_MAX. lia. Defined.

(** X17.  [isNumber] only asks that every character be a digit or
    ['-']: it accepts a number followed by ['-'] and more such
    characters, which [atoi] reads as the number in front (5-3 is read as
    5), and a word that starts with two ['-'], which [atoi] reads as
    0. *)
Theorem isNumber_accepts_inner_minus z t :
  INT_MIN <= z <= INT_MAX -> isNumber t = true ->
  isNumber (print_int z ++ String "-" t) = true /\
  atoi (print_int z ++ String "-" t) = Some z /\
  isNumber (String "-" (String "-" t)) = true /\
  atoi (String "-" (String "-" t)) = Some 0.
Proof.
  intros Hz Ht. split; [|split; [|split]].
  - rewrite isNumber_app, isNumber_print_int. cbn [isNumber andb].
    change (Ascii.eqb "-" "-") with true. rewrite andb_false_r. exact Ht.
  - apply atoi_print_int; [assumption|].
    intros v. now apply digits_value_stop.
  - cbn [isNumber]. change (Ascii.eqb "-" "-") with true.
    rewrite andb_false_r. exact Ht.
  - reflexivity.
Qed.

Lemma isNumber_accepts_inner_minus_witness :
  isNumber "5-3" = true /\ atoi "5-3" = Some 5 /\
  isNumber "--3" = true /\ atoi "--3" = Some 0.
Proof.
  apply (isNumber_accepts_inner_minus 5 "3");
    [unfold INT_MIN, INT_MAX; lia|reflexivity].
Defined.

(** X18.  When the words at the prompt are rejected words followed by
    the decimal text of a number [v] with [min <= v <= max],
    [getIntInput] returns [v], has consumed the words up to and including
    that text, and leaves the heaps alone. *)
Theorem getIntInput_reads_number prompt min max bad v rest w :
  min <= v <= max -> INT_MIN <= v <= INT_MAX ->
  Forall (rejected min max) bad ->
  input (console w) = bad ++ print_int v :: rest ->
  exists out,
    getIntInput prompt min max w =
    Returns v (mkWorld (heaps w) (mkConsole rest out)).
Proof.
  intros Hv Hr Hbad Ein. unfold getIntInput.
  apply (getIntInput_loop_accepts bad _ _ _ _ _ _ (print_int v));
    try assumption.
  - now apply print_int_accepted.
  - rewrite Ein, length_app. cbn [length]. lia.
Qed.

Lemma getIntInput_reads_number_witness :
  exists out,
    getIntInput "n: " 1 5
      (mkWorld [] (mkConsole ["x"; "7"; "-"; "3"; "4"]%string EmptyString)) =
    Returns 3 (mkWorld [] (mkConsole ["4"%string] out)).
Proof.
  apply (getIntInput_reads_number "n: " 1 5 ["x"; "7"; "-"]%string 3
           ["4"%string]
           (mkWorld [] (mkConsole ["x"; "7"; "-"; "3"; "4"]%string EmptyString))).
  - lia.
  - unfold INT_MIN, INT_MAX. lia.
  - apply Forall_cons. split; [split; [cbn; lia|left; reflexivity]|].
    apply Forall_cons. split.
    { split; [cbn; lia|right; exists 7; split; [reflexivity|lia]]. }
    apply Forall_cons. split; [|constructor].
    split; [cbn; lia|right; exists 0; split; [reflexivity|lia]].
  - reflexivity.
Defined.

Lemma getIntInput_loop_no_stop n : forall prompt min max buffer w e w',
  getIntInput_loop n prompt min max buffer w <> Stops e w'.
Proof.
  induction n as [|n IH]; intros prompt min max buffer w e w'.
  - destruct (getIntInput_loop_0 prompt min max buffer w) as [H|[H|[H _]]];
      congruence.
  - destruct (input (console w)) as [|word rest] eqn:Ein.
    { rewrite getIntInput_loop_nil by assumption. destruct buffer; discriminate. }
    rewrite (getIntInput_loop_cons _ _ _ _ _ _ _ _ Ein).
    destruct (Z.of_nat (String.length word) <? 100); [|discriminate].
    cbv zeta.
    destruct (isNumber (c_string word));
      [destruct (atoi (c_string word)) as [number|]; [|discriminate];
       destruct ((number >=? min) && (number <=? max)); [discriminate|]|];
      apply IH.
Qed.


(** ** Reading a line *)

Lemma store_tokens_cons token toks h :
  store_tokens (token :: toks) h =
  match atoi token with
  | None => Fault
  | Some v =>
      if (0 <=? size h) && (size h <? Z.of_nat (length (array h))) then
        match int_op (size h + 1) with
        | None => Fault
        | Some sz' =>
            store_tokens toks
              (mkHeap (<[Z.to_nat (size h) := v]> (array h)) sz' (d h))
        end
      else Fault
  end.
Proof.
  cbn [store_tokens]. rewrite get_size_bind.
  destruct (atoi token) as [v|]; [|reflexivity].
  rewrite lift_bind. unfold bind at 1. unfold store.
  destruct ((0 <=? size h) && (size h <? Z.of_nat (length (array h))));
    [|reflexivity].
  unfold bind at 1. cbn [array size d].
  destruct (int_op (size h + 1)); reflexivity.
Qed.

Lemma store_tokens_result toks : forall h,
  store_tokens toks h = Fault \/ exists h', store_tokens toks h = Ret tt h'.
Proof.
  induction toks as [|token toks IH]; intros h.
  - right. now exists h.
  - rewrite store_tokens_cons.
    destruct (atoi token); [|now left].
    destruct (_ && _); [|now left].
    destruct (int_op _); [apply IH|now left].
Qed.

Lemma store_tokens_inv toks : forall h h',
  0 <= size h <= Z.of_nat (length (array h)) ->
  store_tokens toks h = Ret tt h' ->
  exists vs,
    Forall2 (fun t v => atoi t = Some v) toks vs /\
    size h' = size h + Z.of_nat (length toks) /\
    size h' <= Z.of_nat (length (array h)) /\
    length (array h') = length (array h) /\
    valid h' = valid h ++ vs /\
    d h' = d h /\
    (forall c, size h' <= c -> elem (array h') c = elem (array h) c).
Proof.
  induction toks as [|token toks IH]; intros h h' Hs E.
  - injection E as <-. exists []. split; [constructor|].
    split; [cbn [length]; lia|]. split; [lia|]. split; [reflexivity|].
    split; [now rewrite app_nil_r|]. split; reflexivity.
  - rewrite store_tokens_cons in E.
    destruct (atoi token) as [v|] eqn:Ea; [|discriminate].
    destruct (Z.leb_spec 0 (size h)); [|discriminate].
    destruct (Z.ltb_spec (size h) (Z.of_nat (length (array h)))) as [Hlt|];
      [|discriminate].
    cbn [andb] in E.
    destruct (int_op (size h + 1)) as [sz'|] eqn:Ei; [|discriminate].
    apply int_op_inv in Ei as [-> _].
    apply IH in E as (vs & HF & Hsz & Hcap & Hlen & Hval & Hd & Hfr);
      cbn [array size d] in *; [|rewrite length_insert; lia].
    rewrite length_insert in *.
    exists (v :: vs). split; [now constructor|].
    split; [cbn [length]; lia|]. split; [lia|]. split; [assumption|].
    split; [|split; [assumption|]].
    + rewrite Hval. unfold valid. cbn [array size].
      rewrite valid_insert_end by lia. now rewrite <- app_assoc.
    + intros c Hc. rewrite Hfr by assumption.
      rewrite elem_insert by lia.
      destruct (Z.eqb_spec c (size h)); [lia|reflexivity].
Qed.

Lemma store_tokens_runs toks : forall h vs,
  0 <= size h ->
  Forall2 (fun t v => atoi t = Some v) toks vs ->
  size h + Z.of_nat (length toks) <= Z.of_nat (length (array h)) ->
  Z.of_nat (length (array h)) <= INT_MAX ->
  exists h', store_tokens toks h = Ret tt h'.
Proof.
  induction toks as [|token toks IH]; intros h vs Hs HF Hcap Hmax.
  - now exists h.
  - apply Forall2_cons_inv_l in HF as (v & vs' & Ha & HF & ->).
    cbn [length] in Hcap.
    rewrite store_tokens_cons, Ha.
    destruct (Z.leb_spec 0 (size h)); [|lia].
    destruct (Z.ltb_spec (size h) (Z.of_nat (length (array h)))); [|lia].
    cbn [andb].
    rewrite int_op_Some by (unfold INT_MIN in *; lia).
    apply (IH _ vs'); cbn [array size d]; rewrite ?length_insert;
      try assumption; lia.
Qed.

Lemma store_tokens_overflow toks h :
  0 <= size h <= Z.of_nat (length (array h)) ->
  Z.of_nat (length (array h)) < size h + Z.of_nat (length toks) ->
  store_tokens toks h = Fault.
Proof.
  intros Hs Hov.
  destruct (store_tokens_result toks h) as [E|[h' E]]; [assumption|].
  apply store_tokens_inv in E as (_ & _ & Hsz & Hcap & _); lia.
Qed.

Lemma Forall2_atoi_unique toks : forall vs vs',
  Forall2 (fun t v => atoi t = Some v) toks vs ->
  Forall2 (fun t v => atoi t = Some v) toks vs' -> vs = vs'.
Proof.
  induction toks as [|t toks IH]; intros vs vs' H1 H2.
  - apply Forall2_nil_inv_l in H1, H2. congruence.
  - apply Forall2_cons_inv_l in H1 as (v & l & E1 & H1 & ->).
    apply Forall2_cons_inv_l in H2 as (v' & l' & E2 & H2 & ->).
    f_equal; [congruence|now apply IH].
Qed.

Lemma read_line_unfold line h :
  read_line line h =
  store_tokens (tokens (c_string line)) (mkHeap (array h) 0 (d h)).
Proof. reflexivity. Qed.

Lemma valid_zero a dd : valid (mkHeap a 0 dd) = [].
Proof. reflexivity. Qed.

(** What [read_line] does with the tokens of a line. *)
Lemma read_line_spec line h vs :
  Z.of_nat (length (array h)) <= INT_MAX ->
  Forall2 (fun t v => atoi t = Some v) (tokens (c_string line)) vs ->
  Z.of_nat (length vs) <= Z.of_nat (length (array h)) ->
  exists h',
    read_line line h = Ret tt h' /\
    size h' = Z.of_nat (length vs) /\
    valid h' = vs /\
    d h' = d h /\
    length (array h') = length (array h).
Proof.
  intros Hmax HF Hcap. rewrite read_line_unfold.
  pose proof (Forall2_length _ _ _ HF) as Hlen.
  destruct (store_tokens_runs (tokens (c_string line))
              (mkHeap (array h) 0 (d h)) vs) as [h' E];
    cbn [array size d]; try assumption; try lia.
  exists h'. split; [exact E|].
  apply store_tokens_inv in E as (vs' & HF' & Hsz & _ & Hl & Hval & Hd & _);
    cbn [array size d] in *; [|lia].
  rewrite (Forall2_atoi_unique _ _ _ HF HF').
  pose proof (Forall2_length _ _ _ HF') as Hlen'.
  split; [lia|]. split; [now rewrite Hval|]. split; assumption.
Qed.

(** X20.  The inner loop of [readHeapsFromFile] stores [atoi] of each
    token of the line, in order, from index 0 on and sets [size] to the
    number of tokens, keeping [d]; it returns exactly when every token
    has a representable value and there are at most [MAX_CAPACITY]
    tokens.  A line of more tokens is written past the end of the array:
    the count is not checked. *)
Theorem read_line_stores_tokens line h :
  Z.of_nat (length (array h)) = MAX_CAPACITY ->
  (forall h', read_line line h = Ret tt h' ->
     exists vs,
       Forall2 (fun t v => atoi t = Some v) (tokens (c_string line)) vs /\
       size h' = Z.of_nat (length vs) /\ size h' <= MAX_CAPACITY /\
       valid h' = vs /\ d h' = d h) /\
  (forall vs,
     Forall2 (fun t v => atoi t = Some v) (tokens (c_string line)) vs ->
     Z.of_nat (length vs) <= MAX_CAPACITY ->
     exists h', read_line line h = Ret tt h' /\ valid h' = vs) /\
  (MAX_CAPACITY < Z.of_nat (length (tokens (c_string line))) ->
   read_line line h = Fault).
Proof.
  intros Hlen. split; [|split].
  - intros h' E. rewrite read_line_unfold in E.
    apply store_tokens_inv in E as (vs & HF & Hsz & Hcap & _ & Hval & Hd & _);
      cbn [array size d] in *; [|lia].
    pose proof (Forall2_length _ _ _ HF) as Hl.
    exists vs. split; [assumption|]. split; [lia|]. split; [lia|].
    split; assumption.
  - intros vs HF Hcap.
    destruct (read_line_spec line h vs) as (h' & E & _ & Hval & _);
      try assumption; [unfold MAX_CAPACITY, INT_MAX in *; lia|lia|].
    exists h'. split; assumption.
  - intros Hov. rewrite read_line_unfold.
    apply store_tokens_overflow; cbn [array size d]; lia.
Qed.

Lemma read_line_stores_tokens_witness :
  exists h',
    read_line ("5 1  2x 3 -9" ++ nl) example_heap = Ret tt h' /\
    valid h' = [5; 1; 2; 3; -9].
Proof.
  destruct (read_line_stores_tokens ("5 1  2x 3 -9" ++ nl) example_heap)
    as (_ & H & _); [vm_compute; reflexivity|].
  apply (H [5; 1; 2; 3; -9]).
  - repeat constructor.
  - cbn. unfold MAX_CAPACITY. lia.
Defined.

(** ** [printHeap] and reading its lines back *)

Lemma printHeap_loop_spec n : forall i h,
  0 <= i -> i + Z.of_nat n <= Z.of_nat (length (array h)) ->
  Z.of_nat (length (array h)) <= INT_MAX ->
  printHeap_loop n i h =
  Ret (heap_text (take n (drop (Z.to_nat i) (array h)))) h.
Proof.
  induction n as [|n IH]; intros i h Hi Hn Hmax; [reflexivity|].
  cbn [printHeap_loop].
  rewrite (bind_Ret _ _ _ _ _ (load_spec i h ltac:(lia))).
  rewrite int_op_Some by (unfold INT_MIN in *; lia).
  rewrite lift_bind.
  rewrite (bind_Ret _ _ _ _ _ (IH (i + 1) h ltac:(lia) ltac:(lia) Hmax)).
  unfold ret. f_equal.
  rewrite (drop_S _ (elem (array h) i) (Z.to_nat i)) by (apply elem_lookup; lia).
  cbn [take heap_text].
  now replace (Z.to_nat (i + 1)) with (S (Z.to_nat i)) by lia.
Qed.

Lemma printHeap_text_spec h :
  0 <= size h <= Z.of_nat (length (array h)) ->
  Z.of_nat (length (array h)) <= INT_MAX ->
  printHeap_text h = Ret (heap_text (valid h) ++ nl)%string h.
Proof.
  intros Hs Hmax. unfold printHeap_text. rewrite get_size_bind.
  rewrite (bind_Ret _ _ _ _ _
             (printHeap_loop_spec (Z.to_nat (size h)) 0 h
                ltac:(lia) ltac:(lia) Hmax)).
  reflexivity.
Qed.

Lemma isNumber_no_space c s :
  isNumber (String c s) = true -> Ascii.eqb c " " = false.
Proof.
  cbn [isNumber]. destruct (Ascii.eqb_spec c " ") as [->|]; [|reflexivity].
  discriminate.
Qed.

Lemma fields_number s : forall t,
  isNumber s = true ->
  fields (s ++ String " " t) = s :: fields t.
Proof.
  induction s as [|c s IH]; intros t H; [reflexivity|].
  cbn [String.append fields]. rewrite (isNumber_no_space c s H).
  cbn [isNumber] in H.
  destruct (negb (isdigit c) && negb (Ascii.eqb c "-")); [discriminate|].
  now rewrite IH.
Qed.

Lemma print_int_nonempty z : String.eqb (print_int z) EmptyString = false.
Proof.
  unfold print_int. destruct (Z.to_int z) as [u|u]; [|reflexivity].
  cbn [NilZero.string_of_int].
  destruct (uint_zero_digit u EmptyString) as (c & r & E & _).
  rewrite append_nil_r in E. now rewrite E.
Qed.

Lemma append_assoc s t u : ((s ++ t) ++ u)%string = (s ++ (t ++ u))%string.
Proof. induction s as [|c s IH]; [reflexivity|]. cbn. now rewrite IH. Qed.

Lemma tokens_heap_text vs t :
  tokens (heap_text vs ++ t) = map print_int vs ++ tokens t.
Proof.
  induction vs as [|v vs IH]; [reflexivity|].
  cbn [heap_text map]. unfold tokens in *.
  rewrite !append_assoc. cbn [String.append].
  rewrite fields_number by apply isNumber_print_int.
  cbn [List.filter]. rewrite print_int_nonempty. cbn [negb app].
  now rewrite IH.
Qed.

Lemma c_string_app s t : c_string s = s -> c_string (s ++ t) = (s ++ c_string t)%string.
Proof.
  induction s as [|c s IH]; [reflexivity|]. cbn [c_string String.append].
  destruct (Ascii.eqb c "000"); [discriminate|].
  intros E. injection E as E. now rewrite IH.
Qed.

Lemma c_string_heap_text vs : c_string (heap_text vs) = heap_text vs.
Proof.
  induction vs as [|v vs IH]; [reflexivity|]. cbn [heap_text].
  rewrite c_string_app by (apply c_string_isNumber, isNumber_print_int).
  cbn [String.append c_string]. change (Ascii.eqb " " "000") with false.
  cbn. now rewrite IH.
Qed.

Lemma Forall2_atoi_print vs :
  Forall (fun z => INT_MIN <= z <= INT_MAX) vs ->
  Forall2 (fun t v => atoi t = Some v) (map print_int vs) vs.
Proof.
  induction 1 as [|v vs Hv _ IH]; cbn [map]; constructor; [|exact IH].
  rewrite <- (append_nil_r (print_int v)).
  apply atoi_print_int; [assumption|reflexivity].
Qed.

Lemma Forall_valid h :
  Forall (fun z => INT_MIN <= z <= INT_MAX) (array h) ->
  Forall (fun z => INT_MIN <= z <= INT_MAX) (valid h).
Proof. intros H. unfold valid. now apply Forall_take. Qed.

(** ** The monad of the program *)

Lemma io_bind_Returns {A B} (m : IO A) (k : A -> IO B) w a w1 :
  m w = Returns a w1 -> io_bind m k w = k a w1.
Proof. intros E. unfold io_bind. now rewrite E. Qed.

Lemma io_bind_inv_Returns {A B} (m : IO A) (k : A -> IO B) w b w' :
  io_bind m k w = Returns b w' ->
  exists a w1, m w = Returns a w1 /\ k a w1 = Returns b w'.
Proof.
  unfold io_bind. destruct (m w) as [a w1| | | |]; try discriminate.
  intros E. now exists a, w1.
Qed.

Lemma io_bind_inv_Stops {A B} (m : IO A) (k : A -> IO B) w e w' :
  io_bind m k w = Stops e w' ->
  m w = Stops e w' \/ exists a w1, m w = Returns a w1 /\ k a w1 = Stops e w'.
Proof.
  unfold io_bind. destruct (m w) as [a w1| | | |]; try discriminate.
  - intros E. right. now exists a, w1.
  - intros E. left. now injection E as -> ->.
Qed.

Lemma world_eta w : mkWorld (heaps w) (console w) = w.
Proof. destruct w. reflexivity. Qed.

Lemma on_heap_Returns {A} k (m : M A) w h a h' :
  heaps w !! k = Some h -> m h = Ret a h' ->
  on_heap k m w = Returns a (mkWorld (<[k := h']> (heaps w)) (console w)).
Proof. intros E1 E2. unfold on_heap. now rewrite E1, E2. Qed.

Lemma on_heap_read {A} k (m : M A) w h a :
  heaps w !! k = Some h -> m h = Ret a h ->
  on_heap k m w = Returns a w.
Proof.
  intros E1 E2. rewrite (on_heap_Returns k m w h a h E1 E2).
  now rewrite list_insert_id, world_eta.
Qed.

Lemma on_heap_inv_Returns {A} k (m : M A) w a w' :
  on_heap k m w = Returns a w' ->
  exists h h', heaps w !! k = Some h /\ m h = Ret a h' /\
               w' = mkWorld (<[k := h']> (heaps w)) (console w).
Proof.
  unfold on_heap. destruct (heaps w !! k) as [h|]; [|discriminate].
  destruct (m h) as [a0 h'| | |] eqn:E; try discriminate.
  intros E'. injection E' as <- <-. now exists h, h'.
Qed.

Lemma on_heap_inv_Stops {A} k (m : M A) w e w' :
  on_heap k m w = Stops e w' ->
  exists h err h', heaps w !! k = Some h /\ m h = Exit err h' /\
                   e = Failed err.
Proof.
  unfold on_heap. destruct (heaps w !! k) as [h|]; [|discriminate].
  destruct (m h) as [a0 h'|err h'| |] eqn:E; try discriminate.
  intros E'. injection E' as <- _. now exists h, err, h'.
Qed.

(** ** [readHeapsFromFile] *)

Lemma read_line_inv line h h' :
  0 <= Z.of_nat (length (array h)) ->
  read_line line h = Ret tt h' ->
  d h' = d h /\ length (array h') = length (array h) /\
  0 <= size h' <= Z.of_nat (length (array h')).
Proof.
  intros _ E. rewrite read_line_unfold in E.
  apply store_tokens_inv in E as (vs & _ & Hsz & Hcap & Hl & _ & Hd & _);
    cbn [array size d] in *; [|lia].
  rewrite Hl. split; [assumption|]. split; [reflexivity|]. lia.
Qed.

Lemma read_heaps_nil n heapIndex w :
  read_heaps n heapIndex EmptyString w = Returns heapIndex w.
Proof. destruct n; reflexivity. Qed.

Lemma read_heaps_spec n : forall heapIndex file w v w',
  0 <= heapIndex ->
  read_heaps n heapIndex file w = Returns v w' ->
  heapIndex <= v <= heapIndex + Z.of_nat n /\
  (v = heapIndex <-> file = EmptyString \/ n = 0%nat) /\
  console w' = console w /\
  length (heaps w') = length (heaps w) /\
  (forall k, (k < Z.to_nat heapIndex \/ Z.to_nat v <= k)%nat ->
     heaps w' !! k = heaps w !! k) /\
  (forall k h h', heaps w !! k = Some h -> heaps w' !! k = Some h' ->
     d h' = d h /\ length (array h') = length (array h)) /\
  (forall k h', (Z.to_nat heapIndex <= k < Z.to_nat v)%nat ->
     heaps w' !! k = Some h' -> 0 <= size h' <= Z.of_nat (length (array h'))).
Proof.
  induction n as [|n IH]; intros heapIndex file w v w' Hi E.
  - assert (E' : v = heapIndex /\ w' = w).
    { destruct file; cbn in E; injection E as <- <-; auto. }
    destruct E' as [-> ->].
    split; [lia|]. split; [tauto|]. split; [reflexivity|].
    split; [reflexivity|]. split; [reflexivity|]. split.
    + intros k h h' E1 E2. rewrite E1 in E2. injection E2 as <-. auto.
    + intros k h' Hk. lia.
  - destruct file as [|c file].
    { cbn in E. injection E as <- <-.
      split; [lia|]. split; [tauto|]. split; [reflexivity|].
      split; [reflexivity|]. split; [reflexivity|]. split.
      + intros k h h' E1 E2. rewrite E1 in E2. injection E2 as <-. auto.
      + intros k h' Hk. lia. }
    cbn [read_heaps] in E.
    destruct (fgets _ (String c file)) as [line rest].
    apply io_bind_inv_Returns in E as ([] & w1 & E1 & E).
    apply on_heap_inv_Returns in E1 as (h & h1 & Eh & Er & ->).
    apply read_line_inv in Er as (Hd1 & Hl1 & Hs1); [|lia].
    apply IH in E as (Hv & _ & Hc & Hlen & Hout & Hkeep & Hsz); [|lia].
    cbn [heaps console] in *. rewrite length_insert in Hlen.
    split; [lia|]. split.
    { split; [lia|]. intros [?|?]; discriminate. }
    split; [assumption|]. split; [assumption|]. split; [|split].
    + intros k Hk. rewrite Hout by lia.
      apply list_lookup_insert_ne. lia.
    + intros k h0 h' E0 E'.
      destruct (decide (k = Z.to_nat heapIndex)) as [->|Hne].
      * pose proof (lookup_lt_Some _ _ _ E0) as Hlt.
        destruct (Hkeep (Z.to_nat heapIndex) h1 h') as [H1 H2];
          [apply list_lookup_insert_eq; assumption|assumption|].
        rewrite Eh in E0. injection E0 as <-. split; congruence.
      * apply (Hkeep k h0 h'); [|assumption].
        now rewrite list_lookup_insert_ne by congruence.
    + intros k h' Hk E'.
      destruct (decide (k = Z.to_nat heapIndex)) as [->|Hne].
      * rewrite Hout in E' by lia.
        rewrite list_lookup_insert_eq in E' by (eapply lookup_lt_Some; eassumption).
        injection E' as <-. assumption.
      * apply (Hsz k h'); [lia|assumption].
Qed.

(** X22.  [readHeapsFromFile] stops the process with the file error
    when the file cannot be opened, and leaves the world as it is.  When
    it returns, the number of heaps is between 0 and [MAX_HEAPS] and is 0
    exactly for an empty file, the console is untouched, the heaps from
    that number on are unchanged, and no [d] has been written. *)
Theorem readHeapsFromFile_result files fileName w :
  (files fileName = None ->
   readHeapsFromFile files fileName w = Stops FileNotOpened w) /\
  (forall n w', readHeapsFromFile files fileName w = Returns n w' ->
     0 <= n <= MAX_HEAPS /\
     (n = 0 <-> files fileName = Some EmptyString) /\
     console w' = console w /\
     length (heaps w') = length (heaps w) /\
     (forall k, (Z.to_nat n <= k)%nat -> heaps w' !! k = heaps w !! k) /\
     (forall k h h', heaps w !! k = Some h -> heaps w' !! k = Some h' ->
        d h' = d h)).
Proof.
  unfold readHeapsFromFile. split.
  - intros ->. reflexivity.
  - intros n w' E. destruct (files fileName) as [file|]; [|discriminate].
    apply read_heaps_spec in E as (Hn & Hz & Hc & Hl & Hout & Hkeep & _); [|lia].
    split; [unfold MAX_HEAPS in *; lia|]. split.
    { rewrite Hz. split.
      - intros [->|?]; [reflexivity|discriminate].
      - intros E. injection E as ->. now left. }
    split; [assumption|]. split; [assumption|]. split.
    + intros k Hk. apply Hout. now right.
    + intros k h h' E1 E2. now apply (Hkeep k h h').
Qed.

(** ** Reading back a line that [printHeap] wrote *)

Lemma length_append s t :
  String.length (s ++ t) = (String.length s + String.length t)%nat.
Proof. induction s as [|c s IH]; cbn; congruence. Qed.

(** [fgets] goes through a number without stopping. *)
Lemma fgets_number s : forall n t,
  isNumber s = true -> (String.length s <= n)%nat ->
  fgets n (s ++ t) =
  ((s ++ fst (fgets (n - String.length s) t))%string,
   snd (fgets (n - String.length s) t)).
Proof.
  induction s as [|c s IH]; intros n t Hs Hn.
  - cbn [String.append String.length]. rewrite Nat.sub_0_r.
    now destruct (fgets n t).
  - cbn [String.length] in Hn. destruct n as [|n]; [lia|].
    cbn [String.append fgets String.length Nat.sub].
    cbn [isNumber] in Hs.
    destruct (Ascii.eqb_spec c "010") as [->|_]; [discriminate|].
    destruct (negb (isdigit c) && negb (Ascii.eqb c "-")); [discriminate|].
    rewrite (IH n t Hs ltac:(lia)). reflexivity.
Qed.

Lemma fgets_heap_text vs : forall n t,
  (String.length (heap_text vs) <= n)%nat ->
  fgets n (heap_text vs ++ t) =
  ((heap_text vs ++ fst (fgets (n - String.length (heap_text vs)) t))%string,
   snd (fgets (n - String.length (heap_text vs)) t)).
Proof.
  induction vs as [|v vs IH]; intros n t Hn.
  - cbn [heap_text String.append String.length]. rewrite Nat.sub_0_r.
    now destruct (fgets n t).
  - cbn [heap_text] in *. rewrite length_append in Hn.
    cbn [String.append String.length] in Hn.
    rewrite !append_assoc. cbn [String.append].
    rewrite fgets_number by (apply isNumber_print_int || lia).
    remember (n - String.length (print_int v))%nat as m eqn:Em.
    destruct m as [|m]; [lia|].
    cbn [fgets]. change (Ascii.eqb " " "010") with false. cbv iota.
    rewrite (IH m t) by lia. cbn [fst snd].
    rewrite length_append. cbn [String.length].
    replace (n - (String.length (print_int v)
                  + S (String.length (heap_text vs))))%nat
      with (m - String.length (heap_text vs))%nat by lia.
    reflexivity.
Qed.

(** A line of [printHeap] that fits the buffer is read by one [fgets]. *)
Lemma fgets_printed_line vs n :
  (String.length (heap_text vs ++ nl) <= n)%nat ->
  fgets n (heap_text vs ++ nl) = ((heap_text vs ++ nl)%string, EmptyString).
Proof.
  intros Hn. rewrite length_append in Hn. cbn [nl String.length] in Hn.
  rewrite fgets_heap_text by lia.
  remember (n - String.length (heap_text vs))%nat as m eqn:Em.
  destruct m as [|m]; [lia|]. reflexivity.
Qed.

Lemma read_heaps_S n heapIndex file w :
  file <> EmptyString ->
  read_heaps (S n) heapIndex file w =
  io_bind
    (on_heap (Z.to_nat heapIndex)
       (read_line (fst (fgets (Z.to_nat (MAX_LINE_LENGTH - 1)) file))))
    (fun _ =>
       read_heaps n (heapIndex + 1)
         (snd (fgets (Z.to_nat (MAX_LINE_LENGTH - 1)) file))) w.
Proof.
  intros Hne. destruct file as [|c file]; [congruence|].
  cbn [read_heaps].
  now destruct (fgets (Z.to_nat (MAX_LINE_LENGTH - 1)) (String c file)).
Qed.

Lemma printed_line_nonempty vs : (heap_text vs ++ nl)%string <> EmptyString.
Proof.
  intros E. apply (f_equal String.length) in E.
  rewrite length_append in E. cbn [nl String.length] in E. lia.
Qed.

(** X21.  A file that holds one line written by [printHeap], of fewer
    than [MAX_LINE_LENGTH] characters, is not read back as the heap
    printed: [readHeapsFromFile] reads one heap, in which the space that
    follows the last element has made a token of the newline, read by
    [atoi] as 0 -- the elements of the heap printed and one more element
    0.  For a full heap this element is stored past the end of the
    array. *)
Theorem printed_line_read_back files fileName h w h0 :
  heap_ok h ->
  files fileName = Some (heap_text (valid h) ++ nl)%string ->
  Z.of_nat (String.length (heap_text (valid h) ++ nl)) < MAX_LINE_LENGTH ->
  heaps w !! 0%nat = Some h0 ->
  Z.of_nat (length (array h0)) = MAX_CAPACITY ->
  printHeap_text h = Ret (heap_text (valid h) ++ nl)%string h /\
  (size h < MAX_CAPACITY ->
   exists h',
     readHeapsFromFile files fileName w =
     Returns 1 (mkWorld (<[0%nat := h']> (heaps w)) (console w)) /\
     valid h' = valid h ++ [0] /\
     size h' = size h + 1 /\ d h' = d h0) /\
  (size h = MAX_CAPACITY ->
   readHeapsFromFile files fileName w = Undefined).
Proof.
  intros Hok Hfile Hfit Eh0 Hlen0.
  pose proof Hok as (Hlen & Hall & Hsz & Hd).
  set (text := (heap_text (valid h) ++ nl)%string) in *.
  assert (Htok : tokens (c_string text) = map print_int (valid h) ++ [nl]).
  { unfold text. rewrite c_string_app by apply c_string_heap_text.
    now rewrite tokens_heap_text. }
  assert (HF : Forall2 (fun t v => atoi t = Some v)
                 (map print_int (valid h) ++ [nl]) (valid h ++ [0])).
  { apply Forall2_app; [apply Forall2_atoi_print, Forall_valid, Hall|].
    now constructor. }
  pose proof (length_valid h ltac:(lia)) as Hlv.
  assert (Hread : readHeapsFromFile files fileName w =
                  io_bind (on_heap 0 (read_line text))
                    (fun _ => read_heaps (Z.to_nat MAX_HEAPS - 1) 1 EmptyString)
                    w).
  { unfold readHeapsFromFile. rewrite Hfile.
    change (Z.to_nat MAX_HEAPS) with (S (Z.to_nat MAX_HEAPS - 1)) at 1.
    rewrite read_heaps_S by apply printed_line_nonempty.
    fold text. unfold text at 1 2.
    rewrite fgets_printed_line by (unfold MAX_LINE_LENGTH in *; fold text; lia).
    reflexivity. }
  split; [|split].
  - apply printHeap_text_spec; unfold MAX_CAPACITY, INT_MAX in *; lia.
  - intros Hlt.
    destruct (read_line_spec text h0 (valid h ++ [0]))
      as (h' & E & Hs & Hv & Hd' & _).
    + unfold MAX_CAPACITY, INT_MAX in *. lia.
    + now rewrite Htok.
    + rewrite length_app. cbn [length]. lia.
    + exists h'. rewrite Hread.
      rewrite (io_bind_Returns _ _ _ _ _ (on_heap_Returns 0 _ w h0 tt h' Eh0 E)).
      split; [apply read_heaps_nil|]. split; [exact Hv|].
      split; [|exact Hd'].
      rewrite Hs, length_app. cbn [length]. lia.
  - intros Hfull. rewrite Hread.
    assert (E : read_line text h0 = Fault).
    { rewrite read_line_unfold, Htok.
      apply store_tokens_overflow; cbn [array size d]; [lia|].
      rewrite length_app, length_map. cbn [length]. lia. }
    unfold io_bind, on_heap. now rewrite Eh0, E.
Qed.

Lemma printed_line_read_back_witness :
  printHeap_text example_heap =
  Ret ("9 6 4 1 5 3 2 1 " ++ nl)%string example_heap /\
  exists h',
    readHeapsFromFile (fun _ => Some ("9 6 4 1 5 3 2 1 " ++ nl)%string)
      "heaps.txt" (session_world []) =
    Returns 1 (mkWorld (<[0%nat := h']> (heaps (session_world [])))
                 (console (session_world []))) /\
    valid h' = [9; 6; 4; 1; 5; 3; 2; 1] ++ [0] /\ size h' = 9.
Proof.
  destruct (printed_line_read_back
              (fun _ => Some ("9 6 4 1 5 3 2 1 " ++ nl)%string) "heaps.txt"
              example_heap (session_world []) (mkHeap (pad []) 0 0)
              example_heap_ok)
    as (Hp & Hr & _).
  - reflexivity.
  - vm_compute. reflexivity.
  - reflexivity.
  - vm_compute. reflexivity.
  - split; [exact Hp|].
    destruct Hr as (h' & E & Hv & Hs & _); [cbn; unfold MAX_CAPACITY; lia|].
    exists h'. split; [exact E|]. split; [exact Hv|exact Hs].
Defined.


(** ** Computations that leave the heaps alone *)

Lemma getIntInput_sound prompt min max w v w' :
  getIntInput prompt min max w = Returns v w' ->
  min <= v <= max /\ INT_MIN <= v <= INT_MAX /\ heaps w' = heaps w.
Proof.
  intros E. apply getIntInput_loop_sound in E as (H1 & H2 & H3 & _). auto.
Qed.

Lemma getIntInput_no_stop prompt min max w e w' :
  getIntInput prompt min max w <> Stops e w'.
Proof. apply getIntInput_loop_no_stop. Qed.

(** Without a number between [min] and [max], [getIntInput] cannot
    return: it goes on asking, or it runs into undefined behaviour. *)
Lemma getIntInput_empty_range prompt min max w :
  max < min ->
  getIntInput prompt min max w = Undefined \/
  getIntInput prompt min max w = Hangs.
Proof.
  intros Hlt.
  pose proof (getIntInput_loop_fuel (length (input (console w)))
                prompt min max None w ltac:(lia)) as Hf.
  pose proof (getIntInput_no_stop prompt min max w) as Hs.
  destruct (getIntInput prompt min max w) as [v w'|e w'| | |] eqn:E; auto.
  - apply getIntInput_sound in E. lia.
  - exfalso. now apply (Hs e w').
  - exfalso. now apply Hf.
Qed.

Lemma quiet_print s : quiet (print s).
Proof.
  split; [discriminate|]. intros w a w' E. now injection E as _ <-.
Qed.

Lemma quiet_getIntInput prompt min max : quiet (getIntInput prompt min max).
Proof.
  split.
  - intros w e w'. apply getIntInput_no_stop.
  - intros w a w' E. now apply getIntInput_sound in E.
Qed.

Lemma quiet_bind {A B} (m : IO A) (k : A -> IO B) :
  quiet m -> (forall a, quiet (k a)) -> quiet (io_bind m k).
Proof.
  intros [Hm1 Hm2] Hk. split.
  - intros w e w' E. apply io_bind_inv_Stops in E as [E|(a & w1 & _ & E)].
    + now apply Hm1 in E.
    + now apply (Hk a) in E.
  - intros w b w' E. apply io_bind_inv_Returns in E as (a & w1 & E1 & E).
    apply Hm2 in E1. apply (Hk a) in E. congruence.
Qed.

Lemma printHeap_loop_result n : forall i h,
  printHeap_loop n i h = Fault \/
  exists text, printHeap_loop n i h = Ret text h.
Proof.
  induction n as [|n IH]; intros i h; [right; now eexists|].
  cbn [printHeap_loop].
  destruct (load_result i h) as [L|L];
    [left; now rewrite (bind_Fault _ _ _ L)|].
  rewrite (bind_Ret _ _ _ _ _ L).
  destruct (int_op (i + 1)) as [i'|]; [|now left].
  rewrite lift_bind.
  destruct (IH i' h) as [E|[text E]].
  - left. now rewrite (bind_Fault _ _ _ E).
  - right. rewrite (bind_Ret _ _ _ _ _ E). now eexists.
Qed.

Lemma printHeap_text_result h :
  printHeap_text h = Fault \/ exists text, printHeap_text h = Ret text h.
Proof.
  unfold printHeap_text. rewrite get_size_bind.
  destruct (printHeap_loop_result (Z.to_nat (size h)) 0 h) as [E|[text E]].
  - left. now rewrite (bind_Fault _ _ _ E).
  - right. rewrite (bind_Ret _ _ _ _ _ E). now eexists.
Qed.

Lemma quiet_printHeap k : quiet (printHeap k).
Proof.
  unfold printHeap. apply quiet_bind; [|intros; apply quiet_print].
  split.
  - intros w e w' E. apply on_heap_inv_Stops in E as (h & err & h' & _ & E & _).
    destruct (printHeap_text_result h) as [E'|[text E']]; congruence.
  - intros w a w' E.
    apply on_heap_inv_Returns in E as (h & h' & Eh & E & ->).
    destruct (printHeap_text_result h) as [E'|[text E']]; [congruence|].
    rewrite E' in E. injection E as _ <-. cbn [heaps].
    now apply list_insert_id.
Qed.

Lemma quiet_menu_prompt k dd : quiet (menu_prompt k dd).
Proof.
  unfold menu_prompt.
  repeat (apply quiet_bind; [first [apply quiet_print|apply quiet_printHeap]|intros _]).
  apply quiet_getIntInput.
Qed.

(** What a heap operation on [heaps[k]] leaves behind. *)
Lemma on_heap_frame {A} k (m : M A) w a w' h :
  on_heap k m w = Returns a w' -> heaps w !! k = Some h ->
  exists h',
    m h = Ret a h' /\ heaps w' !! k = Some h' /\
    length (heaps w') = length (heaps w) /\
    (forall j, j <> k -> heaps w' !! j = heaps w !! j).
Proof.
  intros E Eh. apply on_heap_inv_Returns in E as (h0 & h' & Eh0 & E & ->).
  rewrite Eh in Eh0. injection Eh0 as <-.
  exists h'. cbn [heaps]. split; [assumption|]. split.
  - apply list_lookup_insert_eq. eapply lookup_lt_Some; eassumption.
  - split; [apply length_insert|].
    intros j Hj. apply list_lookup_insert_ne. congruence.
Qed.

Lemma on_heap_get_size k w sz w' h :
  on_heap k get_size w = Returns sz w' -> heaps w !! k = Some h ->
  sz = size h /\ w' = w.
Proof.
  intros E Eh. unfold on_heap in E. rewrite Eh in E. cbn in E.
  injection E as <- <-. split; [reflexivity|].
  now rewrite list_insert_id, world_eta.
Qed.

Lemma io_lift_inv {A} (o : option A) w a w' :
  io_lift o w = Returns a w' -> o = Some a /\ w' = w.
Proof. destruct o; [|discriminate]. intros E. now injection E as <- <-. Qed.


(** ** The menu loop of [main] *)

Lemma menu_step_returns k dd w h w' :
  heaps w !! k = Some h -> heap_ok h ->
  menu_step k dd w = Returns tt w' ->
  exists h',
    heaps w' !! k = Some h' /\
    heap_ok h' /\ (max_heap h -> max_heap h') /\ d h' = d h /\
    size h - 1 <= size h' <= size h + 1 /\
    length (heaps w') = length (heaps w) /\
    (forall j, j <> k -> heaps w' !! j = heaps w !! j).
Proof.
  intros Eh Hok E. pose proof Hok as (Hlen & Hall & Hsz & Hd).
  unfold menu_step in E.
  apply io_bind_inv_Returns in E as (choice & w1 & Ep & E).
  pose proof (proj2 (quiet_menu_prompt k dd) _ _ _ Ep) as H1.
  rewrite <- H1 in *. clear Ep H1 w.
  assert (Same : forall w2, heaps w2 = heaps w1 ->
            exists h',
              heaps w2 !! k = Some h' /\
              heap_ok h' /\ (max_heap h -> max_heap h') /\ d h' = d h /\
              size h - 1 <= size h' <= size h + 1 /\
              length (heaps w2) = length (heaps w1) /\
              (forall j, j <> k -> heaps w2 !! j = heaps w1 !! j)).
  { intros w2 ->. exists h. split; [assumption|]. split; [assumption|].
    split; [auto|]. split; [reflexivity|]. split; [lia|].
    split; reflexivity. }
  unfold menu_switch in E.
  destruct (choice =? 1).
  { apply io_bind_inv_Returns in E as (key & w2 & Eg & E).
    apply getIntInput_sound in Eg as (_ & Hkey & H2).
    rewrite <- H2 in *. clear H2.
    destruct (on_heap_frame _ _ _ _ _ h E Eh) as (h' & Eop & Eh' & Hl & Hfr).
    destruct (Z.eq_dec (size h) MAX_CAPACITY) as [Hfull|Hnot].
    { rewrite insert_full in Eop by assumption. discriminate. }
    destruct (insert_spec key h Hok Hkey ltac:(lia))
      as (a' & R & Hok' & _ & Hh').
    rewrite R in Eop. injection Eop as <-.
    eexists. split; [exact Eh'|]. cbn [size d].
    split; [assumption|]. split; [auto|]. split; [reflexivity|].
    split; [lia|]. split; assumption. }
  destruct (choice =? 2).
  { apply io_bind_inv_Returns in E as (sz & w2 & Es & E).
    apply (on_heap_get_size _ _ _ _ h) in Es as [-> ->]; [|assumption].
    apply io_bind_inv_Returns in E as (hi & w2 & Ehi & E).
    apply io_lift_inv in Ehi as [Ehi ->].
    apply int_op_inv in Ehi as [-> _].
    apply io_bind_inv_Returns in E as (index & w2 & Eg & E).
    apply getIntInput_sound in Eg as (Hindex & _ & H2).
    apply io_bind_inv_Returns in E as (key & w3 & Eg & E).
    apply getIntInput_sound in Eg as (_ & Hkey & H3).
    rewrite <- H2, <- H3 in *. clear H2 H3.
    destruct (on_heap_frame _ _ _ _ _ h E Eh) as (h' & Eop & Eh' & Hl & Hfr).
    destruct (Z_lt_le_dec key (elem (array h) index)) as [Hlt|Hge].
    { rewrite increaseKey_invalid in Eop by lia. discriminate. }
    destruct (increaseKey_spec index key h Hok ltac:(lia) ltac:(lia))
      as (a' & R & Hok' & _ & Hh').
    rewrite R in Eop. injection Eop as <-.
    eexists. split; [exact Eh'|]. cbn [size d].
    split; [assumption|]. split; [auto|]. split; [reflexivity|].
    split; [lia|]. split; assumption. }
  destruct (choice =? 3).
  { apply io_bind_inv_Returns in E as (sz & w2 & Es & E).
    apply (on_heap_get_size _ _ _ _ h) in Es as [-> ->]; [|assumption].
    destruct (Z.gtb_spec (size h) 0) as [Hpos|Hzero].
    - apply io_bind_inv_Returns in E as (key & w2 & Eop & E).
      destruct (on_heap_frame _ _ _ _ _ h Eop Eh) as (h' & Ex & Eh' & Hl & Hfr).
      injection E as <-. cbn [printed heaps].
      destruct (heapExtractMax_partial h key h' Hok ltac:(lia) Ex)
        as (_ & a' & -> & Hok' & _ & Hh').
      eexists. split; [exact Eh'|]. cbn [size d].
      split; [assumption|]. split; [auto|]. split; [reflexivity|].
      split; [lia|]. split; assumption.
    - injection E as <-. now apply Same. }
  destruct (choice =? 4).
  { apply io_bind_inv_Returns in E as (sz & w2 & Es & E).
    apply (on_heap_get_size _ _ _ _ h) in Es as [-> ->]; [|assumption].
    apply io_bind_inv_Returns in E as (hi & w2 & Ehi & E).
    apply io_lift_inv in Ehi as [Ehi ->].
    apply int_op_inv in Ehi as [-> _].
    apply io_bind_inv_Returns in E as (index & w2 & Eg & E).
    apply getIntInput_sound in Eg as (Hindex & _ & H2).
    rewrite <- H2 in *. clear H2.
    destruct (on_heap_frame _ _ _ _ _ h E Eh) as (h' & Eop & Eh' & Hl & Hfr).
    destruct (delete_partial index h h' Hok ltac:(lia) Eop)
      as (a' & -> & Hok' & Hh').
    eexists. split; [exact Eh'|]. cbn [size d].
    split; [assumption|]. split; [intros Hm; now apply Hh'|]. split; [reflexivity|].
    split; [lia|]. split; assumption. }
  destruct (choice =? 5).
  { apply io_bind_inv_Returns in E as (u & w2 & _ & E). discriminate. }
  injection E as <-. now apply Same.
Qed.


(** ** [main] *)

















Lemma printHeap_Returns k w h :
  heaps w !! k = Some h -> heap_ok h ->
  printHeap k w = Returns tt (printed (heap_text (valid h) ++ nl) w).
Proof.
  intros Eh (Hlen & _ & Hsz & _). unfold printHeap.
  rewrite (io_bind_Returns _ _ _ _ _
             (on_heap_read k printHeap_text w h _ Eh
                (printHeap_text_spec h
                   ltac:(unfold MAX_CAPACITY in *; lia)
                   ltac:(unfold MAX_CAPACITY, INT_MAX in *; lia)))).
  reflexivity.
Qed.

(** X24.  [printHeap] writes the valid elements in index order, each
    followed by a space, then a newline, and changes neither the heaps
    nor the input. *)
Theorem printHeap_writes_valid k w h :
  heaps w !! k = Some h -> heap_ok h ->
  printHeap k w = Returns tt (printed (heap_text (valid h) ++ nl) w).
Proof.
  intros Eh (Hlen & _ & Hsz & _).
  assert (Et : printHeap_text h = Ret (heap_text (valid h) ++ nl)%string h)
    by (apply printHeap_text_spec; unfold MAX_CAPACITY, INT_MAX in *; lia).
  unfold printHeap, io_bind, on_heap. rewrite Eh, Et.
  now rewrite list_insert_id, world_eta.
Qed.

Lemma printHeap_writes_valid_witness :
  printHeap 0 (mkWorld [example_heap] (mkConsole [] "Heap: ")) =
  Returns tt (mkWorld [example_heap]
                (mkConsole [] ("Heap: 9 6 4 1 5 3 2 1 " ++ nl))).
Proof.
  exact (printHeap_writes_valid 0
           (mkWorld [example_heap] (mkConsole [] "Heap: ")) example_heap
           eq_refl example_heap_ok).
Defined.

(** The menu is printed and the choice read when the next word is a
    number from 1 to 5. *)
Lemma menu_prompt_reads k dd w h choice rest :
  heaps w !! k = Some h -> heap_ok h ->
  1 <= choice <= 5 ->
  input (console w) = print_int choice :: rest ->
  exists out,
    menu_prompt k dd w =
    Returns choice (mkWorld (heaps w) (mkConsole rest out)).
Proof.
  intros Eh Hok Hc Ein. unfold menu_prompt.
  rewrite (io_bind_Returns (print _) _ w tt _ eq_refl). cbv beta.
  assert (Eh1 : forall s, heaps (printed s w) !! k = Some h)
    by (intros s; exact Eh).
  rewrite (io_bind_Returns (printHeap k) _ _ tt _
             (printHeap_Returns k _ h (Eh1 _) Hok)). cbv beta.
  do 7 (erewrite (io_bind_Returns (print _)) by reflexivity; cbv beta).
  unfold getIntInput.
  match goal with |- context [getIntInput_loop ?n ?p ?a ?b ?c ?w0] =>
    destruct (getIntInput_loop_accepts [] n p a b c w0
                (print_int choice) choice rest) as [out E] end.
  - constructor.
  - apply print_int_accepted; [assumption|unfold INT_MIN, INT_MAX; lia].
  - exact Ein.
  - cbn [printed console input]. rewrite Ein. cbn [length]. lia.
  - exists out. exact E.
Qed.

Lemma io_bind_no_return {A B} (m : IO A) (k : A -> IO B) w :
  m w = Undefined \/ m w = Hangs ->
  io_bind m k w = Undefined \/ io_bind m k w = Hangs.
Proof. unfold io_bind. intros [-> | ->]; auto. Qed.

(** X25.  With an empty heap the menu entries 2 and 4 lock the
    program: the index is asked for between 0 and -1, no word is
    accepted, and the iteration never returns. *)
Theorem menu_step_empty_heap k dd w h choice rest :
  heaps w !! k = Some h -> heap_ok h -> size h = 0 ->
  choice = 2 \/ choice = 4 ->
  input (console w) = print_int choice :: rest ->
  menu_step k dd w = Undefined \/ menu_step k dd w = Hangs.
Proof.
  intros Eh Hok Hs Hc Ein.
  destruct (menu_prompt_reads k dd w h choice rest Eh Hok ltac:(lia) Ein)
    as [out Ep].
  unfold menu_step. rewrite (io_bind_Returns _ _ _ _ _ Ep). cbv beta.
  set (w1 := mkWorld (heaps w) (mkConsole rest out)).
  assert (Eh1 : heaps w1 !! k = Some h) by exact Eh.
  assert (Esz : on_heap k get_size w1 = Returns 0 w1)
    by (apply (on_heap_read k get_size w1 h); [assumption|now rewrite <- Hs]).
  unfold menu_switch.
  destruct Hc as [-> | ->]; cbn [Z.eqb Pos.eqb];
    rewrite (io_bind_Returns _ _ _ _ _ Esz); cbv beta;
    rewrite (io_bind_Returns (io_lift (int_op (0 - 1))) _ w1 (-1) w1 eq_refl);
    cbv beta;
    apply io_bind_no_return, getIntInput_empty_range; lia.
Qed.

Lemma menu_step_empty_heap_witness :
  menu_step 0 3 (mkWorld [empty_heap] (mkConsole ["4"; "0"]%string EmptyString))
  = Undefined \/
  menu_step 0 3 (mkWorld [empty_heap] (mkConsole ["4"; "0"]%string EmptyString))
  = Hangs.
Proof.
  apply (menu_step_empty_heap 0 3 _ empty_heap 4 ["0"%string]).
  - reflexivity.
  - apply empty_heap_ok.
  - reflexivity.
  - now right.
  - reflexivity.
Defined.

Lemma scan_word_cons n w word rest :
  input (console w) = word :: rest ->
  scan_word n w =
  if Z.of_nat (String.length word) <? n
  then Returns (Some (c_string word))
         (mkWorld (heaps w) (mkConsole rest (output (console w))))
  else Undefined.
Proof. intros E. unfold scan_word. now rewrite E. Qed.

(** X26.  With an empty file no heap is read, the array number is
    asked for between 1 and 0, and [main] never gets to its menu. *)
Theorem main_setup_empty_file files w word rest :
  input (console w) = word :: rest ->
  files (c_string word) = Some EmptyString ->
  main_setup files w = Undefined \/ main_setup files w = Hangs.
Proof.
  intros Ein Ef. unfold main_setup.
  rewrite (io_bind_Returns (print _) _ w tt _ eq_refl). cbv beta.
  match goal with |- context [io_bind (scan_word _) _ ?w0] =>
    pose proof (scan_word_cons MAX_FILENAME_LENGTH w0 word rest Ein) as Es
  end.
  destruct (_ <? _).
  2:{ apply io_bind_no_return. left. exact Es. }
  rewrite (io_bind_Returns _ _ _ _ _ Es). cbv beta.
  unfold readHeapsFromFile. rewrite Ef.
  rewrite (io_bind_Returns _ _ _ _ _ (read_heaps_nil _ 0 _)). cbv beta.
  rewrite (io_bind_Returns (print _) _ _ tt _ eq_refl). cbv beta.
  change (Z.to_nat 0) with 0%nat.
  rewrite (io_bind_Returns (print_arrays 0 0) _ _ tt _ eq_refl). cbv beta.
  apply io_bind_no_return, getIntInput_empty_range. lia.
Qed.

Lemma main_setup_empty_file_witness :
  main_setup (fun _ => Some EmptyString) (session_world ["a"; "1"; "2"]%string)
  = Undefined \/
  main_setup (fun _ => Some EmptyString) (session_world ["a"; "1"; "2"]%string)
  = Hangs.
Proof.
  apply (main_setup_empty_file (fun _ => Some EmptyString)
           (session_world ["a"; "1"; "2"]%string) "a" ["1"; "2"]%string);
    reflexivity.
Defined.

(** X27.  An iteration of the menu loop that returns leaves the
    selected heap a max-heap of the same degree, with [size] changed by at
    most one, and leaves the other heaps alone. *)
Theorem menu_step_keeps_max_heap k dd w h w' :
  heaps w !! k = Some h -> heap_ok h -> max_heap h ->
  menu_step k dd w = Returns tt w' ->
  exists h',
    heaps w' !! k = Some h' /\
    heap_ok h' /\ max_heap h' /\ d h' = d h /\
    size h - 1 <= size h' <= size h + 1 /\
    length (heaps w') = length (heaps w) /\
    (forall j, j <> k -> heaps w' !! j = heaps w !! j).
Proof.
  intros Eh Hok Hh E.
  destruct (menu_step_returns k dd w h w' Eh Hok E)
    as (h' & Eh' & Hok' & Hh' & Hrest).
  exists h'. split; [assumption|]. split; [assumption|].
  split; [auto|assumption].
Qed.

Lemma menu_step_keeps_max_heap_witness :
  exists w' h',
    menu_step 0 2
      (mkWorld [example_heap] (mkConsole ["4"; "1"]%string EmptyString))
    = Returns tt w' /\
    heaps w' !! 0%nat = Some h' /\ max_heap h' /\
    size example_heap - 1 <= size h' <= size example_heap + 1.
Proof.
  assert (E : exists w',
            menu_step 0 2
              (mkWorld [example_heap]
                 (mkConsole ["4"; "1"]%string EmptyString))
            = Returns tt w') by (eexists; vm_compute; reflexivity).
  destruct E as [w' E].
  destruct (menu_step_keeps_max_heap 0 2
              (mkWorld [example_heap]
                 (mkConsole ["4"; "1"]%string EmptyString))
              example_heap w' eq_refl
              example_heap_ok example_heap_max_heap E)
    as (h' & Eh' & _ & Hh' & _ & Hs & _).
  exists w', h'. split; [exact E|]. split; [exact Eh'|].
  split; [exact Hh'|exact Hs].
Defined.
